(** * PDF outline extractor (backend/round_1A.py): a shallow embedding

    The development follows the source file top to bottom: text helpers,
    the regular expressions the classifiers use, the classifiers, the table
    detector, the candidate filters, title extraction and the whole-document
    routine [extract_pdf_outline]; the properties come last.

    Modelling conventions.
    - Text is a list of 8-bit characters read as ASCII.  On ASCII text
      [unicodedata.normalize("NFKC", _)] is the identity, [str.lower] and
      [str.upper] act on the 26 letters only, and the whitespace of
      [str.split], [str.strip] and the pattern [\s] is the ten characters
      of [is_space].
    - Python floats (font sizes, coordinates, ratios) are exact rationals
      [Q]; a division by a numpy zero yields an infinity or a NaN, which
      [ratio] keeps apart, and a division by a Python float zero raises.
    - An exception is [None]; the document routine maps it to the empty
      result, as its [except Exception] does. *)

From Stdlib Require Import Ascii String.
From Stdlib Require Import List Bool Arith ZArith QArith Qround Qabs Lia Lqa.
From Stdlib Require Import Permutation Sorted.
Import ListNotations.

Set Implicit Arguments.
Local Open Scope nat_scope.

(* ================================================================== *)
(** ** Characters and text *)

Module Text.

Definition text := list ascii.

(** A string literal as text. *)
Definition T (s : string) : text := list_ascii_of_string s.

Definition code (c : ascii) : nat := nat_of_ascii c.

Definition in_range (lo hi : nat) (c : ascii) : bool :=
  (lo <=? code c) && (code c <=? hi).

(** Whitespace of ASCII text: TAB..CR, FS..US and the space. *)
Definition is_space (c : ascii) : bool :=
  in_range 9 13 c || in_range 28 32 c.

Definition is_digit (c : ascii) : bool := in_range 48 57 c.
Definition is_upper (c : ascii) : bool := in_range 65 90 c.
Definition is_lower (c : ascii) : bool := in_range 97 122 c.
Definition is_alpha (c : ascii) : bool := is_upper c || is_lower c.
Definition is_alnum (c : ascii) : bool := is_alpha c || is_digit c.

Definition to_lower (c : ascii) : ascii :=
  if is_upper c then ascii_of_nat (code c + 32) else c.

Definition to_upper (c : ascii) : ascii :=
  if is_lower c then ascii_of_nat (code c - 32) else c.

Definition lower (s : text) : text := map to_lower s.

Definition chr_eqb (a b : ascii) : bool := Ascii.eqb a b.

Fixpoint text_eqb (a b : text) : bool :=
  match a, b with
  | [], [] => true
  | x :: a', y :: b' => chr_eqb x y && text_eqb a' b'
  | _, _ => false
  end.

Definition mem_text (t : text) (l : list text) : bool :=
  existsb (text_eqb t) l.

(** [s.lstrip()], [s.rstrip()], [s.strip()] and [s.rstrip(c)]. *)
Fixpoint drop_while (p : ascii -> bool) (s : text) : text :=
  match s with
  | [] => []
  | c :: r => if p c then drop_while p r else s
  end.

Definition lstrip (s : text) : text := drop_while is_space s.
Definition rstrip_with (p : ascii -> bool) (s : text) : text :=
  rev (drop_while p (rev s)).
Definition rstrip (s : text) : text := rstrip_with is_space s.
Definition strip (s : text) : text := rstrip (lstrip s).
Definition rstrip_chr (c : ascii) (s : text) : text :=
  rstrip_with (chr_eqb c) s.

(** [re.sub(r"\s+", " ", s)]: every maximal run of whitespace becomes one
    space; the space is emitted at the last character of the run. *)
Fixpoint collapse_ws (s : text) : text :=
  match s with
  | [] => []
  | c :: r =>
      if is_space c then
        match r with
        | [] => [" "%char]
        | c' :: _ => if is_space c' then collapse_ws r
                     else " "%char :: collapse_ws r
        end
      else c :: collapse_ws r
  end.

(** [normalize_text], lines 22-24. *)
Definition normalize_text (s : text) : text := strip (collapse_ws s).

(** [s.split()]: the maximal runs of non-whitespace; [cur] is the word
    being read, reversed. *)
Fixpoint words_from (s : text) (cur : text) : list text :=
  match s with
  | [] => match cur with [] => [] | _ => [rev cur] end
  | c :: r =>
      if is_space c then
        match cur with
        | [] => words_from r []
        | _ => rev cur :: words_from r []
        end
      else words_from r (c :: cur)
  end.

Definition split (s : text) : list text := words_from s [].

Definition word_count (s : text) : nat := length (split s).

(** [s.endswith((c1, ..., cn))] for one-character suffixes. *)
Definition ends_with_any (cs : list ascii) (s : text) : bool :=
  match rev s with
  | [] => false
  | c :: _ => existsb (chr_eqb c) cs
  end.

Definition starts_with_chr (c : ascii) (s : text) : bool :=
  match s with
  | [] => false
  | d :: _ => chr_eqb c d
  end.

(** [s.isupper()]: some cased character, and no lowercase one. *)
Definition isupper (s : text) : bool :=
  existsb is_upper s && negb (existsb is_lower s).

(** [capitalize_first_letter], lines 27-36. *)
Fixpoint capitalize_first_letter (s : text) : text :=
  match s with
  | [] => []
  | c :: r => if is_alpha c then to_upper c :: r
              else c :: capitalize_first_letter r
  end.

(** Lexicographic order of [str], by code. *)
Fixpoint text_ltb (a b : text) : bool :=
  match a, b with
  | [], [] => false
  | [], _ :: _ => true
  | _ :: _, [] => false
  | x :: a', y :: b' =>
      if code x <? code y then true
      else if code y <? code x then false
      else text_ltb a' b'
  end.

End Text.
Import Text.

(* ================================================================== *)
(** ** Regular expressions

    The patterns of the source use character classes, concatenation,
    alternation and repetition only, so whether [re.fullmatch],
    [re.match] or [re.search] finds a match is a question about a regular
    language; it is decided here with derivatives. *)

Module Regex.

Inductive regex : Type :=
| Void : regex
| Eps : regex
| Cls : (ascii -> bool) -> regex
| Cat : regex -> regex -> regex
| Alt : regex -> regex -> regex
| Star : regex -> regex.

Fixpoint nullable (r : regex) : bool :=
  match r with
  | Void => false
  | Eps => true
  | Cls _ => false
  | Cat a b => nullable a && nullable b
  | Alt a b => nullable a || nullable b
  | Star _ => true
  end.

Fixpoint deriv (c : ascii) (r : regex) : regex :=
  match r with
  | Void => Void
  | Eps => Void
  | Cls p => if p c then Eps else Void
  | Cat a b =>
      if nullable a then Alt (Cat (deriv c a) b) (deriv c b)
      else Cat (deriv c a) b
  | Alt a b => Alt (deriv c a) (deriv c b)
  | Star a => Cat (deriv c a) (Star a)
  end.

Fixpoint matches (r : regex) (s : text) : bool :=
  match s with
  | [] => nullable r
  | c :: s' => matches (deriv c r) s'
  end.

(** Pattern combinators. *)
Definition chr (c : ascii) : regex := Cls (chr_eqb c).
Definition any : regex := Cls (fun _ => true).
Definition opt (r : regex) : regex := Alt r Eps.
Definition plus (r : regex) : regex := Cat r (Star r).

Fixpoint lit (s : text) : regex :=
  match s with
  | [] => Eps
  | c :: s' => Cat (chr c) (lit s')
  end.

Fixpoint cats (rs : list regex) : regex :=
  match rs with
  | [] => Eps
  | r :: rs' => Cat r (cats rs')
  end.

Fixpoint alts (rs : list regex) : regex :=
  match rs with
  | [] => Void
  | r :: rs' => Alt r (alts rs')
  end.

(** [r{n}] and [r{lo,hi}] with [hi = lo + extra]. *)
Fixpoint times (n : nat) (r : regex) : regex :=
  match n with
  | 0 => Eps
  | S n' => Cat r (times n' r)
  end.

Fixpoint upto (n : nat) (r : regex) : regex :=
  match n with
  | 0 => Eps
  | S n' => opt (Cat r (upto n' r))
  end.

Definition between (lo extra : nat) (r : regex) : regex :=
  Cat (times lo r) (upto extra r).

Definition digit : regex := Cls is_digit.
Definition ws : regex := Cls is_space.
Definition letter : regex := Cls is_alpha.

(** The three entry points.  A trailing [$] also matches just before a
    final newline; [anchored] is [re.match] on a pattern [^r$]. *)
Definition fullmatch (r : regex) (s : text) : bool := matches r s.
Definition rmatch (r : regex) (s : text) : bool := matches (Cat r (Star any)) s.
Definition search (r : regex) (s : text) : bool :=
  matches (Cat (Star any) (Cat r (Star any))) s.
Definition anchored (r : regex) (s : text) : bool :=
  matches (Cat r (opt (chr "010"%char))) s.

(** The language of a pattern. *)
Inductive lang : regex -> text -> Prop :=
| L_eps : lang Eps []
| L_cls : forall p c, p c = true -> lang (Cls p) [c]
| L_cat : forall a b u v, lang a u -> lang b v -> lang (Cat a b) (u ++ v)
| L_alt_l : forall a b u, lang a u -> lang (Alt a b) u
| L_alt_r : forall a b u, lang b u -> lang (Alt a b) u
| L_star_nil : forall a, lang (Star a) []
| L_star_app : forall a u v,
    lang a u -> lang (Star a) v -> lang (Star a) (u ++ v).

End Regex.
Import Regex.

(* ================================================================== *)
(** ** Numbers *)

Definition Qltb (a b : Q) : bool := negb (Qle_bool b a).
Definition Qgtb (a b : Q) : bool := Qltb b a.
Definition Qgeb (a b : Q) : bool := Qle_bool b a.

(** [max(l)] and [min(l)] of a non-empty list, [d] standing for the empty one. *)
Definition Qmax_list (d : Q) (l : list Q) : Q :=
  match l with
  | [] => d
  | x :: r => fold_left (fun m y => if Qltb m y then y else m) r x
  end.

Definition Qmin_list (d : Q) (l : list Q) : Q :=
  match l with
  | [] => d
  | x :: r => fold_left (fun m y => if Qltb y m then y else m) r x
  end.

Definition Qsum (l : list Q) : Q := fold_right Qplus 0%Q l.

Definition Qof_nat (n : nat) : Q := inject_Z (Z.of_nat n).

(** The quotient of two floats where the divisor is a numpy scalar: a zero
    divisor gives an infinity or a NaN instead of raising. *)
Inductive ratio : Type :=
| Fin : Q -> ratio
| PosInf : ratio
| NegInf : ratio
| NaN : ratio.

Definition np_div (a m : Q) : ratio :=
  if Qeq_bool m 0 then
    (if Qltb 0 a then PosInf else if Qltb a 0 then NegInf else NaN)
  else Fin (a / m).

Definition ratio_gtb (r : ratio) (c : Q) : bool :=
  match r with
  | Fin q => Qgtb q c
  | PosInf => true
  | NegInf => false
  | NaN => false
  end.

(* ================================================================== *)
(** ** Classifiers (lines 39-179) *)

Definition signature_words : list text :=
  map T ["date"; "signature"; "sign"; "name"; "witness"; "seal"; "stamp";
         "approved"; "verified"; "checked"; "authorized"; "place"]%string.

Definition form_labels : list text :=
  map T ["address"; "phone"; "email"; "rsvp"; "contact"; "location"; "venue";
         "time"; "date"; "when"; "where"; "who"; "what"; "details"; "info";
         "information"; "notice"; "announcement"; "warning"; "attention";
         "note"; "memo"; "subject"; "from"; "to"; "cc"; "bcc"]%string.

(** The shared body of [is_signature_field] and [is_form_label]. *)
Definition clean_label (t : text) : text :=
  strip (rstrip_chr ":"%char (strip (lower (normalize_text t)))).

Definition is_signature_field (t : text) : bool :=
  mem_text (clean_label t) signature_words.

Definition is_form_label (t : text) : bool :=
  mem_text (clean_label t) form_labels.

Definition date_patterns : list regex :=
  [ cats [between 1 1 digit; plus ws; between 3 6 letter; plus ws; times 4 digit];
    cats [between 1 1 digit; Cls (fun c => chr_eqb c "/" || chr_eqb c "-");
          between 1 1 digit; Cls (fun c => chr_eqb c "/" || chr_eqb c "-");
          between 2 2 digit];
    cats [between 3 6 letter; plus ws; times 4 digit];
    times 4 digit ].

Definition url_pattern : regex :=
  alts [ lit (T "www."); lit (T ".com"); lit (T ".org"); lit (T ".net");
         cats [lit (T "http"); opt (chr "s"); lit (T "://")] ].

Definition paren_pattern : regex :=
  cats [chr "("; Star (Cls (fun c => negb (chr_eqb c ")"))); chr ")"].

Definition is_rule_chr (c : ascii) : bool :=
  existsb (chr_eqb c) ["-"; "_"; "="; "*"; "#"; "~"; "`"; "^"]%char.

Definition rule_pattern : regex :=
  Cat (times 3 (Cls is_rule_chr)) (Star (Cls is_rule_chr)).

Definition page_patterns : list regex :=
  [ cats [lit (T "page"); plus ws; plus digit];
    cats [lit (T "figure"); plus ws; plus digit];
    cats [lit (T "table"); plus ws; plus digit];
    cats [plus digit; Star ws; chr "/"; Star ws; plus digit] ].

Definition count_alnum (t : text) : nat := length (filter is_alnum t).

(** [is_noise_content], lines 63-105. *)
Definition is_noise_content (t0 : text) : bool :=
  let t := normalize_text t0 in
  if length t <? 2 then true
  else if fullmatch (plus digit) t then true
  else if existsb (fun p => fullmatch p t) date_patterns then true
  else if search url_pattern (lower t) then true
  else if fullmatch paren_pattern t then true
  else if fullmatch rule_pattern t then true
  else if existsb (fun p => search p (lower t)) page_patterns then true
  else if 15 <? word_count t then true
  else if Qltb (Qof_nat (count_alnum t) / Qof_nat (length t)) (3 # 10) then true
  else false.

(** A span of a line, as the parser gives it; a key may be missing. *)
Record span : Type := mk_span {
  span_text : option text;
  span_size : option Q;
  span_flags : option Z
}.

Definition span_bold (s : span) : bool :=
  negb (Z.eqb (Z.land (match span_flags s with Some f => f | None => 0%Z end) 16) 0).

Definition span_sizes (spans : list span) : list Q :=
  flat_map (fun s => match span_size s with Some z => [z] | None => [] end) spans.

(** [has_consistent_formatting], lines 108-122, at [font_tolerance = 1.5]. *)
Definition has_consistent_formatting (spans : list span) : bool :=
  match spans with
  | [] => true
  | [_] => true
  | _ =>
      let font_sizes := span_sizes spans in
      if (1 <? length font_sizes)
         && Qgtb (Qmax_list 0 font_sizes - Qmin_list 0 font_sizes) (3 # 2)
      then false
      else
        let bold_flags := map span_bold spans in
        if existsb (fun b => b) bold_flags && existsb negb bold_flags
        then false else true
  end.

Definition first_word_lower (t : text) : text :=
  match split t with
  | [] => []
  | w :: _ => lower w
  end.

(** [is_valid_heading], lines 125-146. *)
Definition is_valid_heading (t0 : text) : bool :=
  let t := normalize_text t0 in
  if negb (existsb is_alpha t) then false
  else if ends_with_any ["."; ";"; ","; "!"; "?"]%char t then false
  else if (word_count t <? 1) || (12 <? word_count t) then false
  else if mem_text (first_word_lower t)
            (map T ["the"; "a"; "an"; "this"; "that"]%string) then false
  else if is_signature_field t then false
  else true.

(** [is_valid_title], lines 149-166. *)
Definition is_valid_title (t0 : text) : bool :=
  let t := normalize_text t0 in
  if negb (existsb is_alpha t) then false
  else if is_form_label t || is_signature_field t || is_noise_content t then false
  else if ends_with_any ["."; ";"; ","; "?"]%char t
          && negb (ends_with_any ["!"]%char t) then false
  else if (word_count t <? 1) || (10 <? word_count t) then false
  else true.

Definition roman_lower : regex :=
  Cls (fun c => existsb (chr_eqb c) ["i"; "v"; "x"; "l"; "c"; "d"; "m"]%char).
Definition roman_upper : regex :=
  Cls (fun c => existsb (chr_eqb c) ["I"; "V"; "X"; "L"; "C"; "D"; "M"]%char).

Definition dot : regex := chr ".".

Definition serial_patterns : list regex :=
  [ cats [lit (T "sr"); opt dot; Star ws; lit (T "no"); opt dot];
    cats [lit (T "s"); opt dot; Star ws; lit (T "no"); opt dot];
    cats [lit (T "sl"); opt dot; Star ws; lit (T "no"); opt dot];
    cats [lit (T "serial"); Star ws; lit (T "no"); opt dot];
    cats [lit (T "no"); opt dot];
    chr "#";
    cats [lit (T "item"); Star ws; lit (T "no"); opt dot];
    cats [plus digit; opt dot];
    cats [plus digit; chr ")"];
    cats [plus roman_lower; opt dot];
    cats [plus roman_upper; opt dot] ].

(** [is_serial_number], lines 169-179. *)
Definition is_serial_number (t0 : text) : bool :=
  let t := lower (normalize_text t0) in
  existsb (fun p => anchored p t) serial_patterns.

(* ================================================================== *)
(** ** Containers *)

(** A stable sort: [sorted(l, key=...)] is stable, and so is
    [stable_sort] when [leb x y] says that [x] may stay before [y]. *)
Section Sort.
Variable A : Type.
Variable leb : A -> A -> bool.

Fixpoint insert_sorted (x : A) (l : list A) : list A :=
  match l with
  | [] => [x]
  | y :: r => if leb x y then x :: l else y :: insert_sorted x r
  end.

Definition stable_sort (l : list A) : list A :=
  fold_right insert_sorted [] l.
End Sort.

(** A dict of lists filled by [d[k].append(a)], in insertion order. *)
Section Group.
Variables A K : Type.
Variable keq : K -> K -> bool.

Fixpoint group_add (k : K) (a : A) (m : list (K * list A)) : list (K * list A) :=
  match m with
  | [] => [(k, [a])]
  | (k', vs) :: m' =>
      if keq k k' then (k', vs ++ [a]) :: m'
      else (k', vs) :: group_add k a m'
  end.

Definition group_by (key : A -> K) (l : list A) : list (K * list A) :=
  fold_left (fun m a => group_add (key a) a m) l [].

Fixpoint lookup (k : K) (m : list (K * A)) : option A :=
  match m with
  | [] => None
  | (k', v) :: m' => if keq k k' then Some v else lookup k m'
  end.
End Group.

Definition mem_nat (n : nat) (l : list nat) : bool := existsb (Nat.eqb n) l.

(** A set of floats; only membership is observed. *)
Definition yset_add (y : Q) (s : list Q) : list Q :=
  if existsb (Qeq_bool y) s then s else s ++ [y].

(** Exceptions: the first failure aborts the loop. *)
Fixpoint traverse (A B : Type) (f : A -> option B) (l : list A) : option (list B) :=
  match l with
  | [] => Some []
  | a :: r =>
      match f a with
      | None => None
      | Some b =>
          match traverse f r with
          | None => None
          | Some bs => Some (b :: bs)
          end
      end
  end.

(* ================================================================== *)
(** ** Lines *)

Record bbox : Type := mk_bbox { bx0 : Q; by0 : Q; bx1 : Q; by1 : Q }.

(** The dict built at lines 514-521. *)
Record line : Type := mk_line {
  l_text : text;
  l_size : Q;
  l_is_bold : bool;
  l_bbox : bbox;
  l_page : nat;
  l_spans : list span
}.

(** A line that passed the scorer, with the three keys added at
    lines 592-594. *)
Record candidate : Type := mk_candidate {
  c_line : line;
  c_score : Z;
  c_vertical_gap : Q;
  c_size_ratio : ratio
}.

Definition c_text (c : candidate) : text := l_text (c_line c).
Definition c_page (c : candidate) : nat := l_page (c_line c).
Definition c_bbox (c : candidate) : bbox := l_bbox (c_line c).
Definition c_size (c : candidate) : Q := l_size (c_line c).

(* ================================================================== *)
(** ** Table detector (lines 182-239) *)

(** [round(q)]: to the nearest integer, a tie to the even one. *)
Definition py_round (q : Q) : Z :=
  let f := Qfloor q in
  let r := (q - inject_Z f)%Q in
  if Qltb r (1 # 2) then f
  else if Qltb (1 # 2) r then (f + 1)%Z
  else if Z.even f then f else (f + 1)%Z.

Fixpoint digits_value (acc : Z) (s : text) : option Z :=
  match s with
  | [] => Some acc
  | c :: r =>
      if is_digit c
      then digits_value (10 * acc + Z.of_nat (code c - 48))%Z r
      else None
  end.

(** [int(s)] for a string of decimal digits; anything else raises. *)
Definition parse_int (s : text) : option Z :=
  match s with
  | [] => None
  | _ => digits_value 0%Z s
  end.

Definition int_line_pattern : regex := cats [plus digit; opt dot].

(** Lines 213-220: the value and the Y of a line whose stripped text is
    an integer with an optional period; other lines give nothing. *)
Definition numbered_line (l : line) : list (Z * Q) :=
  if anchored int_line_pattern (strip (l_text l)) then
    match parse_int (rstrip_chr "." (strip (l_text l))) with
    | Some num => [(num, by0 (l_bbox l))]
    | None => []
    end
  else [].

Definition y_leb (a b : line) : bool :=
  negb (Qltb (by0 (l_bbox b)) (by0 (l_bbox a))).

(** The test of lines 224-225 at index [i]. *)
Definition run_at (numbers : list Z) (i : nat) : bool :=
  match nth_error numbers i, nth_error numbers (i + 1), nth_error numbers (i + 2) with
  | Some a, Some b, Some c => (b =? a + 1)%Z && (c =? a + 2)%Z
  | _, _, _ => false
  end.

(** Lines 206-228 for one X-bucket: the Y-coordinates it adds. *)
Definition bucket_rows (x_lines : list line) : list Q :=
  if length x_lines <? 3 then []
  else
    let sorted := stable_sort y_leb x_lines in
    let numbered := flat_map numbered_line sorted in
    let numbers := map fst numbered in
    let y_coords := map snd numbered in
    if 3 <=? length numbers then
      match find (run_at numbers) (List.seq 0 (length numbers - 2)) with
      | Some i => firstn (Nat.min (i + 3) (length y_coords) - i) (skipn i y_coords)
      | None => []
      end
    else [].

Definition x_bucket (l : line) : Z := (py_round (bx0 (l_bbox l) / 10) * 10)%Z.

Definition serial_rows (all_lines : list line) : list Q :=
  fold_left
    (fun s l => if is_serial_number (l_text l) then yset_add (by0 (l_bbox l)) s else s)
    all_lines [].

Definition page_rows (lines : list line) (s : list Q) : list Q :=
  fold_left
    (fun s g => fold_left (fun s y => yset_add y s) (bucket_rows (snd g)) s)
    (group_by Z.eqb x_bucket lines) s.

(** [detect_table_rows], lines 182-230. *)
Definition detect_table_rows (all_lines : list line) : list Q :=
  fold_left
    (fun s g => page_rows (snd g) s)
    (group_by Nat.eqb l_page all_lines)
    (serial_rows all_lines).

(** [is_in_table_row], lines 233-239, at [tolerance = 8.0]. *)
Definition is_in_table_row (text_bbox : bbox) (table_y_coords : list Q) : bool :=
  match table_y_coords with
  | [] => false
  | _ => existsb (fun table_y => Qle_bool (Qabs (by0 text_bbox - table_y)) 8)
                 table_y_coords
  end.

(* ================================================================== *)
(** ** Candidate filters (lines 242-383) *)

(** The sort key [(page, bbox[1], bbox[0])], compared as tuples are. *)
Definition pos_ltb (a b : candidate) : bool :=
  (c_page a <? c_page b)
  || ((c_page a =? c_page b)
      && (Qltb (by0 (c_bbox a)) (by0 (c_bbox b))
          || (Qeq_bool (by0 (c_bbox a)) (by0 (c_bbox b))
              && Qltb (bx0 (c_bbox a)) (bx0 (c_bbox b))))).

Definition pos_leb (a b : candidate) : bool := negb (pos_ltb b a).

(** The inner loop, lines 261-280, over [rest = candidates_sorted[j:]],
    at [y_tolerance = 10.0] and [min_horizontal_gap = 50.0]. *)
Fixpoint scan_neighbors (skip : list nat) (current : candidate) (j : nat)
         (rest : list candidate) : list nat :=
  match rest with
  | [] => []
  | other :: rest' =>
      if mem_nat j skip then scan_neighbors skip current (S j) rest'
      else if negb (c_page other =? c_page current) then []
      else if Qle_bool (Qabs (by0 (c_bbox other) - by0 (c_bbox current))) 10 then
        if Qgeb (bx0 (c_bbox other) - bx1 (c_bbox current)) 50
        then j :: scan_neighbors skip current (S j) rest'
        else scan_neighbors skip current (S j) rest'
      else if Qgtb (by0 (c_bbox other)) (by0 (c_bbox current) + 10) then []
      else scan_neighbors skip current (S j) rest'
  end.

(** The outer loop, lines 253-285, over [rest = candidates_sorted[i:]]:
    the kept candidates with their indices, and the final [skip_indices]. *)
Fixpoint hfilter_loop (i : nat) (rest : list candidate) (skip : list nat)
  : list (nat * candidate) * list nat :=
  match rest with
  | [] => ([], skip)
  | current :: rest' =>
      if mem_nat i skip then hfilter_loop (S i) rest' skip
      else
        match scan_neighbors skip current (S i) rest' with
        | [] =>
            let (kept, sk) := hfilter_loop (S i) rest' skip in
            ((i, current) :: kept, sk)
        | horizontal_neighbors =>
            hfilter_loop (S i) rest' (skip ++ horizontal_neighbors)
        end
  end.

Definition candidates_sorted (candidates : list candidate) : list candidate :=
  stable_sort pos_leb candidates.

(** [filter_horizontal_table_headers], lines 242-287. *)
Definition filter_horizontal_table_headers (candidates : list candidate)
  : list candidate :=
  if length candidates <? 2 then candidates
  else map snd (fst (hfilter_loop 0 (candidates_sorted candidates) [])).

(** [filter_inconsistent_formatting], lines 290-299. *)
Definition filter_inconsistent_formatting (candidates : list candidate)
  : list candidate :=
  filter (fun c => has_consistent_formatting (l_spans (c_line c))) candidates.

Definition paragraph_indicators : list text :=
  map T ["the"; "and"; "or"; "but"; "in"; "on"; "at"; "by"; "for";
         "with"; "this"; "that"; "these"; "those"]%string.

(** [is_paragraph_content], lines 302-331. *)
Definition is_paragraph_content (t0 : text) : bool :=
  let t := normalize_text t0 in
  if word_count t <? 3 then false
  else if negb (existsb is_lower t) then false
  else if is_noise_content t || is_signature_field t then false
  else if ends_with_any ["."; "!"; "?"; ";"]%char t then true
  else if existsb (fun w => mem_text w (split (lower t))) paragraph_indicators then true
  else if (5 <=? word_count t) && existsb is_lower t && existsb is_upper t then true
  else false.

(** The loop of lines 345-359 over [rest = all_lines[heading_idx+1:]],
    at [max_distance = 15]. *)
Fixpoint paragraph_scan (heading_page : nat) (candidate_texts : list text)
         (lines_checked : nat) (rest : list line) : bool :=
  match rest with
  | [] => false
  | next_line :: rest' =>
      if 15 <=? lines_checked then false
      else if heading_page + 2 <? l_page next_line then false
      else if mem_text (l_text next_line) candidate_texts
      then paragraph_scan heading_page candidate_texts (S lines_checked) rest'
      else if is_paragraph_content (l_text next_line) then true
      else paragraph_scan heading_page candidate_texts (S lines_checked) rest'
  end.

(** [has_paragraph_below], lines 334-361. *)
Definition has_paragraph_below (heading_idx : nat) (all_lines : list line)
           (heading_candidates : list candidate) : bool :=
  match nth_error all_lines heading_idx with
  | None => false
  | Some heading =>
      paragraph_scan (l_page heading) (map c_text heading_candidates) 0
                     (skipn (S heading_idx) all_lines)
  end.

(** [text_to_index[t]] after lines 366-368: the last index holding [t]. *)
Fixpoint text_to_index (t : text) (i : nat) (ls : list line) : option nat :=
  match ls with
  | [] => None
  | l :: r =>
      match text_to_index t (S i) r with
      | Some k => Some k
      | None => if text_eqb (l_text l) t then Some i else None
      end
  end.

(** [filter_headings_with_content], lines 364-383. *)
Definition filter_headings_with_content (candidates : list candidate)
           (all_lines : list line) : list candidate :=
  filter
    (fun c =>
       match text_to_index (c_text c) 0 all_lines with
       | Some heading_idx => has_paragraph_below heading_idx all_lines candidates
       | None => true
       end)
    candidates.

(* ================================================================== *)
(** ** Title extraction (lines 386-468) *)

(** An element of [scored_candidates]: [(score, text, size)]. *)
Definition scored : Type := (Z * text * Q)%type.

(** [a < b] on these tuples. *)
Definition scored_ltb (a b : scored) : bool :=
  let '(sa, ta, za) := a in
  let '(sb, tb, zb) := b in
  (sa <? sb)%Z
  || ((sa =? sb)%Z && (text_ltb ta tb || (text_eqb ta tb && Qltb za zb))).

(** The order of [sort(reverse=True)]: [a] may stay before [b]. *)
Definition scored_geb (a b : scored) : bool := negb (scored_ltb a b).

(** Lines 425-462 for one element; [None] is the [ZeroDivisionError] of
    line 437. *)
Definition title_score (median_size sixty_percent_height : Q) (element : line)
  : option scored :=
  let t := normalize_text (l_text element) in
  let score := 0%Z in
  let size_ratio := np_div (l_size element) median_size in
  let score :=
    if ratio_gtb size_ratio 2 then (score + 10)%Z
    else if ratio_gtb size_ratio (3 # 2) then (score + 8)%Z
    else if ratio_gtb size_ratio (6 # 5) then (score + 6)%Z
    else score in
  let y_pos := by0 (l_bbox element) in
  if Qeq_bool sixty_percent_height 0 then None
  else
    let position_ratio := (y_pos / sixty_percent_height)%Q in
    let score :=
      if Qltb position_ratio (3 # 10) then (score + 4)%Z
      else if Qltb position_ratio (3 # 5) then (score + 2)%Z
      else score in
    let score := if l_is_bold element then (score + 3)%Z else score in
    let wc := word_count t in
    let score :=
      if (1 <=? wc) && (wc <=? 3) then (score + 4)%Z
      else if (4 <=? wc) && (wc <=? 6) then (score + 2)%Z
      else if 10 <? wc then (score - 2)%Z
      else score in
    let score := if isupper t then (score + 2)%Z else score in
    let page_width := 612%Q in
    let x_center :=
      (bx0 (l_bbox element) + (bx1 (l_bbox element) - bx0 (l_bbox element)) / 2)%Q in
    let score :=
      if Qltb (Qabs (x_center - page_width / 2)) 100 then (score + 2)%Z
      else score in
    Some (score, t, l_size element).

Definition title_ok (element : line) : bool :=
  let t := normalize_text (l_text element) in
  is_valid_title t
  && negb (starts_with_chr "(" t && ends_with_any [")"%char] t).

(** Lines 416-418. *)
Definition largest_candidates (title_candidates : list line) : list line :=
  let largest_size := Qmax_list 0 (map l_size title_candidates) in
  filter (fun e => Qgeb (l_size e) (largest_size - 1)) title_candidates.

Definition sixty_percent (page_height : Q) : Q := (page_height * (6 # 10))%Q.

(** Lines 393-396. *)
Definition top_section_elements (first_page_elements : list line)
           (page_height : Q) : list line :=
  filter (fun e => Qle_bool (by0 (l_bbox e)) (sixty_percent page_height))
         first_page_elements.

(** Lines 401-411. *)
Definition title_candidates (first_page_elements : list line)
           (page_height : Q) : list line :=
  filter title_ok (top_section_elements first_page_elements page_height).

(** Lines 423-466: score, sort, take the first. *)
Definition best_scored (median_size page_height : Q) (largest : list line)
  : option text :=
  match traverse (title_score median_size (sixty_percent page_height)) largest with
  | None => None
  | Some scored_candidates =>
      match stable_sort scored_geb scored_candidates with
      | [] => Some []
      | (_, t, _) :: _ => Some (capitalize_first_letter t)
      end
  end.

(** [extract_title]; [None] when it raises. *)
Definition extract_title (first_page_elements : list line)
           (median_size page_height : Q) : option text :=
  match first_page_elements with
  | [] => Some []
  | _ =>
      match top_section_elements first_page_elements page_height with
      | [] => Some []
      | _ =>
          match title_candidates first_page_elements page_height with
          | [] => Some []
          | cands =>
              match largest_candidates cands with
              | [e] => Some (capitalize_first_letter (l_text e))
              | largest => best_scored median_size page_height largest
              end
          end
      end
  end.

(* ================================================================== *)
(** ** Reading the document (lines 474-531) *)

(** What the parser returns: pages of blocks of lines of spans.  A block
    may have no ["lines"], a line no ["spans"] or no ["bbox"]; [pg_blocks]
    is [None] when reading the page raises. *)
Record raw_line : Type := mk_raw_line {
  rl_spans : option (list span);
  rl_bbox : option bbox
}.

Record block : Type := mk_block { blk_lines : option (list raw_line) }.

Record page : Type := mk_page {
  pg_height : Q;
  pg_blocks : option (list block)
}.

(** [None] when [fitz.open] raises. *)
Definition document : Type := option (list page).

Record acc : Type := mk_acc {
  all_lines : list line;
  first_page_elements : list line;
  font_sizes : list Q;
  bold_count : nat
}.

Definition acc0 : acc := mk_acc [] [] [] 0.

Definition joined_text (spans : list span) : text :=
  strip (concat (map (fun s => match span_text s with Some t => t | None => [] end)
                     spans)).

(** Lines 494-526 for one line of the page. *)
Definition read_line (page_num : nat) (a : acc) (rl : raw_line) : acc :=
  match rl_spans rl with
  | None => a
  | Some [] => a
  | Some spans =>
      let t := joined_text spans in
      match t with
      | [] => a
      | _ =>
          if is_noise_content t then a
          else
            match span_sizes spans with
            | [] => a
            | sizes =>
                let font_size := Qmax_list 0 sizes in
                let is_bold := existsb span_bold spans in
                let line_data :=
                  mk_line (normalize_text t) font_size is_bold
                          (match rl_bbox rl with
                           | Some b => b
                           | None => mk_bbox 0 0 0 0
                           end)
                          page_num spans in
                mk_acc (all_lines a ++ [line_data])
                       (if page_num =? 0
                        then first_page_elements a ++ [line_data]
                        else first_page_elements a)
                       (font_sizes a ++ [font_size])
                       (if is_bold then S (bold_count a) else bold_count a)
            end
      end
  end.

Definition read_block (page_num : nat) (a : acc) (b : block) : acc :=
  match blk_lines b with
  | None => a
  | Some ls => fold_left (read_line page_num) ls a
  end.

Definition read_page (page_num : nat) (a : acc) (p : page) : acc :=
  match pg_blocks p with
  | None => a
  | Some bs => fold_left (read_block page_num) bs a
  end.

Fixpoint read_pages (page_num : nat) (pages : list page) (a : acc) : acc :=
  match pages with
  | [] => a
  | p :: ps => read_pages (S page_num) ps (read_page page_num a p)
  end.

Definition first_page_height (pages : list page) : Q :=
  match pages with
  | [] => 792
  | p :: _ => pg_height p
  end.

(* ================================================================== *)
(** ** Scoring (lines 545-595) *)

(** [np.median] of a non-empty list. *)
Definition np_median (l : list Q) : Q :=
  let s := stable_sort Qle_bool l in
  let n := length s in
  if Nat.even n
  then ((nth (n / 2 - 1) s 0 + nth (n / 2) s 0) / 2)%Q
  else nth (n / 2) s 0%Q.

(** The case-insensitive comparison of lines 552 and 650. *)
Definition ci_text (t : text) : text := lower (normalize_text t).

Definition matches_title (title : text) (l : line) : bool :=
  match title with
  | [] => false
  | _ => text_eqb (ci_text (l_text l)) (ci_text title)
  end.

(** Lines 563-565; [prev] is [all_lines[i-1]], absent at [i = 0]. *)
Definition vertical_gap_of (prev : option line) (l : line) : Q :=
  match prev with
  | Some p =>
      if l_page p =? l_page l then (by0 (l_bbox l) - by1 (l_bbox p))%Q else 0
  | None => 0
  end.

Definition numbered_marker : regex :=
  cats [plus digit; Cls (fun c => chr_eqb c "." || chr_eqb c ")"); ws].

Definition starts_upper (w : text) : bool :=
  match w with
  | [] => false
  | c :: _ => is_upper c
  end.

Definition title_ratio (words : list text) : Q :=
  (Qof_nat (length (filter starts_upper words))
   / Qof_nat (Nat.max 1 (length words)))%Q.

(** Lines 567-589. *)
Definition heading_score (size_ratio : ratio) (vertical_gap bold_frequency : Q)
           (l : line) : Z :=
  let score := 0%Z in
  let score :=
    if ratio_gtb size_ratio (13 # 10) then (score + 4)%Z
    else if ratio_gtb size_ratio (115 # 100) && l_is_bold l then (score + 3)%Z
    else if l_is_bold l && Qltb bold_frequency (2 # 10) then (score + 3)%Z
    else score in
  let score := if Qgtb vertical_gap 20 then (score + 2)%Z else score in
  let score := if rmatch numbered_marker (l_text l) then (score + 3)%Z else score in
  let words := split (l_text l) in
  let score :=
    if (length words <=? 6) && l_is_bold l then (score + 2)%Z else score in
  let score := if Qgtb (title_ratio words) (7 # 10) then (score + 2)%Z else score in
  score.

(** The body of the loop of lines 550-595 for one line. *)
Definition score_line (title : text) (table_y_coords : list Q)
           (median_size bold_frequency : Q) (prev : option line) (l : line)
  : option candidate :=
  if matches_title title l then None
  else if negb (is_valid_heading (l_text l)) then None
  else if is_in_table_row (l_bbox l) table_y_coords then None
  else
    let size_ratio := np_div (l_size l) median_size in
    let vertical_gap := vertical_gap_of prev l in
    let score := heading_score size_ratio vertical_gap bold_frequency l in
    if (4 <=? score)%Z then Some (mk_candidate l score vertical_gap size_ratio)
    else None.

Fixpoint score_lines (title : text) (table_y_coords : list Q)
         (median_size bold_frequency : Q) (prev : option line) (ls : list line)
  : list candidate :=
  match ls with
  | [] => []
  | l :: r =>
      match score_line title table_y_coords median_size bold_frequency prev l with
      | Some c =>
          c :: score_lines title table_y_coords median_size bold_frequency (Some l) r
      | None =>
          score_lines title table_y_coords median_size bold_frequency (Some l) r
      end
  end.

(* ================================================================== *)
(** ** Levels and the outline (lines 605-661) *)

(** One row of the feature matrix, lines 608-611. *)
Definition features (c : candidate) : list Q :=
  [ c_size c;
    if l_is_bold (c_line c) then 1 else 0;
    bx0 (c_bbox c);
    c_vertical_gap c;
    Qof_nat (length (c_text c));
    inject_Z (c_score c) ]%Q.

Definition n_clusters (candidates : list candidate) : nat :=
  Nat.min 3 (Nat.max 2 (length candidates / 2)).

(** Lines 620-624; [candidates[i]] raises when the labels outnumber the
    candidates. *)
Fixpoint cluster_sizes (labels : list nat) (candidates : list candidate)
         (m : list (nat * list Q)) : option (list (nat * list Q)) :=
  match labels with
  | [] => Some m
  | label :: ls =>
      match candidates with
      | [] => None
      | c :: cs => cluster_sizes ls cs (group_add Nat.eqb label (c_size c) m)
      end
  end.

Definition np_mean (l : list Q) : Q := (Qsum l / Qof_nat (length l))%Q.

Definition cluster_mean (sizes : list (nat * list Q)) (cluster : nat) : Q :=
  np_mean (match lookup Nat.eqb cluster sizes with Some l => l | None => [] end).

(** Lines 626-628: the clusters by mean size, largest first. *)
Definition sorted_clusters (sizes : list (nat * list Q)) : list nat :=
  stable_sort
    (fun a b => negb (Qltb (cluster_mean sizes a) (cluster_mean sizes b)))
    (map fst sizes).

(** Lines 630-631; the level [n] stands for the string ["H<n>"]. *)
Fixpoint level_map_from (i : nat) (clusters : list nat) : list (nat * nat) :=
  match clusters with
  | [] => []
  | cluster :: r => (cluster, Nat.min (i + 1) 3) :: level_map_from (S i) r
  end.

Definition level_map (sizes : list (nat * list Q)) : list (nat * nat) :=
  level_map_from 0 (sorted_clusters sizes).

(** Lines 633-634: [level_map[labels[i]]] for every candidate. *)
Fixpoint levels_of (labels : list nat) (lm : list (nat * nat))
         (candidates : list candidate) : option (list (candidate * nat)) :=
  match candidates with
  | [] => Some []
  | c :: cs =>
      match labels with
      | [] => None
      | label :: ls =>
          match lookup Nat.eqb label lm with
          | None => None
          | Some lv =>
              match levels_of ls lm cs with
              | None => None
              | Some r => Some ((c, lv) :: r)
              end
          end
      end
  end.

Record entry : Type := mk_entry {
  e_level : nat;
  e_text : text;
  e_page : nat
}.

Record result : Type := mk_result {
  title : text;
  outline : list entry
}.

Definition empty_result : result := mk_result [] [].

(** The key of the sort at lines 647-651; [next] raises [StopIteration]
    when no candidate matches. *)
Definition outline_key (candidates : list candidate) (x : entry)
  : option (nat * Q * entry) :=
  match find (fun c => text_eqb (ci_text (c_text c)) (ci_text (e_text x)))
             candidates with
  | Some c => Some (e_page x, by0 (c_bbox c), x)
  | None => None
  end.

Definition key_leb (a b : nat * Q * entry) : bool :=
  let '(pa, ya, _) := a in
  let '(pb, yb, _) := b in
  negb ((pb <? pa) || ((pb =? pa) && Qltb yb ya)).

Definition sort_outline (candidates : list candidate) (outline : list entry)
  : option (list entry) :=
  match traverse (outline_key candidates) outline with
  | None => None
  | Some keyed => Some (map snd (stable_sort key_leb keyed))
  end.

(** The key of lines 656-657. *)
Definition seen_key (item : entry) : text := strip (lower (e_text item)).

(** Lines 653-659. *)
Fixpoint dedupe (seen : list text) (outline : list entry) : list entry :=
  match outline with
  | [] => []
  | item :: r =>
      if mem_text (seen_key item) seen then dedupe seen r
      else item :: dedupe (seen_key item :: seen) r
  end.

Definition make_entry (cl : candidate * nat) : entry :=
  mk_entry (snd cl) (capitalize_first_letter (c_text (fst cl))) (c_page (fst cl)).

(** Lines 597-600. *)
Definition refine (candidates : list candidate) (lines : list line)
  : list candidate :=
  match candidates with
  | [] => []
  | _ =>
      filter_headings_with_content
        (filter_horizontal_table_headers
           (filter_inconsistent_formatting candidates))
        lines
  end.

Section Pipeline.

(** The clustering library, lines 613-618: the feature rows are
    standardised and clustered (Ward linkage) into the given number of
    clusters; the answer is one label per row, or an exception. *)
Variable fit_predict : list (list Q) -> nat -> option (list nat).

(** Lines 605-636. *)
Definition assign_levels (candidates : list candidate)
  : option (list (candidate * nat)) :=
  if 2 <=? length candidates then
    match fit_predict (map features candidates) (n_clusters candidates) with
    | None => None
    | Some labels =>
        match cluster_sizes labels candidates [] with
        | None => None
        | Some sizes => levels_of labels (level_map sizes) candidates
        end
    end
  else Some (map (fun c => (c, 1)) candidates).

(** Lines 602-661, from the refined candidates on. *)
Definition assemble (title : text) (candidates : list candidate)
  : option result :=
  match candidates with
  | [] => Some (mk_result title [])
  | _ =>
      match assign_levels candidates with
      | None => None
      | Some leveled =>
          match sort_outline candidates (map make_entry leveled) with
          | None => None
          | Some sorted => Some (mk_result title (dedupe [] sorted))
          end
      end
  end.

(** The heading candidates of lines 548-595. *)
Definition heading_candidates (a : acc) (title : text) : list candidate :=
  score_lines title (detect_table_rows (all_lines a))
              (np_median (font_sizes a))
              (Qof_nat (bold_count a) / Qof_nat (length (all_lines a)))%Q
              None (all_lines a).

(** The [try] block of [extract_pdf_outline]; [None] when it raises. *)
Definition outline_of (doc : document) : option result :=
  match doc with
  | None => None
  | Some pages =>
      let a := read_pages 0 pages acc0 in
      let page_height := first_page_height pages in
      match all_lines a with
      | [] => Some empty_result
      | _ =>
          match extract_title (first_page_elements a)
                  (match font_sizes a with
                   | [] => 12
                   | fs => np_median fs
                   end)
                  page_height with
          | None => None
          | Some title =>
              match font_sizes a with
              | [] => Some (mk_result title [])
              | _ =>
                  assemble title
                    (refine (heading_candidates a title) (all_lines a))
              end
          end
      end
  end.

(** [extract_pdf_outline], lines 471-664. *)
Definition extract_pdf_outline (doc : document) : result :=
  match outline_of doc with
  | Some r => r
  | None => empty_result
  end.

End Pipeline.

(* ================================================================== *)
(** ** Vocabulary of the properties *)

(** The lines the reading loop collects from a document. *)
Definition extracted_lines (doc : document) : list line :=
  match doc with
  | Some pages => all_lines (read_pages 0 pages acc0)
  | None => []
  end.

(** The letters of the two Roman classes of [serial_patterns]. *)
Definition is_roman_letter (c : ascii) : bool :=
  existsb (chr_eqb c)
          ["i"; "v"; "x"; "l"; "c"; "d"; "m"; "I"; "V"; "X"; "L"; "C"; "D"; "M"]%char.

(** Membership in a set of floats. *)
Definition yset_mem (y : Q) (s : list Q) : Prop := exists z, In z s /\ (z == y)%Q.

(** The score as the specification words it: one of three exclusive
    size and weight rules, the first that applies, and four bonuses that
    are added independently. *)
Definition size_weight_points (size_ratio : ratio) (bold : bool)
           (bold_frequency : Q) : Z :=
  if ratio_gtb size_ratio (13 # 10) then 4%Z
  else if ratio_gtb size_ratio (115 # 100) && bold then 3%Z
  else if bold && Qltb bold_frequency (2 # 10) then 3%Z
  else 0%Z.

Definition bonus (applies : bool) (points : Z) : Z :=
  if applies then points else 0%Z.

Definition claimed_score (size_ratio : ratio) (vertical_gap bold_frequency : Q)
           (l : line) : Z :=
  (size_weight_points size_ratio (l_is_bold l) bold_frequency
   + bonus (Qgtb vertical_gap 20) 2
   + bonus (rmatch numbered_marker (l_text l)) 3
   + bonus ((word_count (l_text l) <=? 6)%nat && l_is_bold l) 2
   + bonus (Qgtb (title_ratio (split (l_text l))) (7 # 10)) 2)%Z.

(** [all_lines[i-1]] for the line that follows [pre]. *)
Definition last_line (pre : list line) : option line :=
  match rev pre with
  | [] => None
  | p :: _ => Some p
  end.

(** [m] occurs in [t]. *)
Definition contains (m t : text) : Prop := exists a b, t = a ++ m ++ b.

(** The alternatives of the URL pattern of line 82, spelled out. *)
Definition url_markers : list text :=
  map T ["www."; ".com"; ".org"; ".net"; "http://"; "https://"]%string.

(** The text, in any letter case, contains a URL marker. *)
Definition has_url_marker (t : text) : Prop :=
  exists m, In m url_markers /\ contains m (lower t).

(** The text, in any letter case, contains "page", whitespace and a number. *)
Definition has_page_number (t : text) : Prop :=
  exists a w d b,
    lower t = a ++ T "page" ++ w ++ d ++ b
    /\ w <> [] /\ Forall (fun c => is_space c = true) w
    /\ d <> [] /\ Forall (fun c => is_digit c = true) d.

(** The line was built from a text that is not noise. *)
Definition from_clean_text (l : line) : Prop :=
  exists raw, l_text l = normalize_text raw /\ is_noise_content raw = false.

(** The font sizes of the candidates that the clustering put in [cluster]. *)
Definition member_sizes (labels : list nat) (candidates : list candidate)
           (cluster : nat) : list Q :=
  map (fun p => c_size (snd p))
      (filter (fun p => fst p =? cluster) (combine labels candidates)).

(** The list a dict of lists holds under a key, empty when absent. *)
Definition content (k : nat) (m : list (nat * list Q)) : list Q :=
  match lookup Nat.eqb k m with
  | Some l => l
  | None => []
  end.

(** The Y-sorted bucket, its integer lines' values and their Ys
    ([numbers] and [y_coords] of lines 211-220). *)
Definition bucket_sorted (x_lines : list line) : list line :=
  stable_sort y_leb x_lines.

Definition bucket_numbers (x_lines : list line) : list Z :=
  map fst (flat_map numbered_line (bucket_sorted x_lines)).

Definition bucket_ys (x_lines : list line) : list Q :=
  map snd (flat_map numbered_line (bucket_sorted x_lines)).

(** The integer a line's text parses as, if it does. *)
Definition line_int (l : line) : option Z :=
  match numbered_line l with
  | (n, _) :: _ => Some n
  | [] => None
  end.

(** Three consecutive lines of [ls] parse as n, n+1, n+2. *)
Definition consecutive_int_lines (ls : list line) : Prop :=
  exists i a b c n,
    nth_error ls i = Some a /\ nth_error ls (i + 1) = Some b
    /\ nth_error ls (i + 2) = Some c
    /\ line_int a = Some n /\ line_int b = Some (n + 1)%Z
    /\ line_int c = Some (n + 2)%Z.

(** Three consecutive entries of [numbers] are n, n+1, n+2. *)
Definition consecutive_numbers (numbers : list Z) : Prop :=
  exists i n,
    nth_error numbers i = Some n /\ nth_error numbers (i + 1) = Some (n + 1)%Z
    /\ nth_error numbers (i + 2) = Some (n + 2)%Z.

(** [b] sits beside [a]: same page, Y within 10pt, left edge at least
    50pt past the right edge of [a]. *)
Definition side_by_side (a b : candidate) : Prop :=
  c_page b = c_page a
  /\ (Qabs (by0 (c_bbox b) - by0 (c_bbox a)) <= 10)%Q
  /\ (50 <= bx0 (c_bbox b) - bx1 (c_bbox a))%Q.

(** In the sorted list [cs], the candidate at [j] is a horizontal
    neighbour of the one at [i]: a later candidate beside it. *)
Definition hneighbor (cs : list candidate) (i j : nat) : Prop :=
  i < j
  /\ exists a b,
      nth_error cs i = Some a /\ nth_error cs j = Some b /\ side_by_side a b.

(** The order of the sort key [(page, bbox[1], bbox[0])]. *)
Definition pos_le (a b : candidate) : Prop := pos_leb a b = true.

(** What the outer loop of the horizontal filter establishes when it
    starts at index [i] of the sorted list [cs] with the skip set [skip]
    and ends with the kept candidates [kept] and the skip set [final]:
    the skip set only grows, by indices past [i] that are neighbours of a
    candidate that was not skipped; every neighbour of such a candidate
    ends up skipped; and a candidate is kept exactly when it was not
    skipped and each of its neighbours had already been skipped when the
    loop reached it. *)
Definition loop_post (cs : list candidate) (i : nat) (skip : list nat)
           (kept : list (nat * candidate)) (final : list nat) : Prop :=
  (forall j, In j skip -> In j final)
  /\ (forall j, In j final -> In j skip \/ i < j)
  /\ (forall j, In j final ->
                In j skip
                \/ exists i', i <= i' /\ ~ In i' final /\ hneighbor cs i' j)
  /\ (forall i' j, i <= i' -> ~ In i' final -> hneighbor cs i' j -> In j final)
  /\ (forall k c, In (k, c) kept ->
                  i <= k /\ nth_error cs k = Some c /\ ~ In k final)
  /\ (forall k c, i <= k -> nth_error cs k = Some c -> ~ In k final ->
                  (In (k, c) kept <->
                   forall j, hneighbor cs k j ->
                             In j skip
                             \/ exists i', i <= i' /\ i' < k /\ ~ In i' final
                                           /\ hneighbor cs i' j)).

(** Normal form of text: every whitespace character is a single space
    between two visible characters. *)
Fixpoint ws_ok (s : text) : bool :=
  match s with
  | [] => true
  | c :: r =>
      (if is_space c
       then chr_eqb c " "
            && match r with
               | [] => true
               | c' :: _ => negb (is_space c')
               end
       else true)
      && ws_ok r
  end.

Definition no_lead (s : text) : bool :=
  match s with
  | [] => true
  | c :: _ => negb (is_space c)
  end.

Definition tidy (s : text) : Prop :=
  ws_ok s = true /\ no_lead s = true /\ no_lead (rev s) = true.

(** Two texts with whitespace at the same places, and the same one. *)
Definition same_shape (s s' : text) : Prop :=
  Forall2 (fun c d => is_space c = is_space d /\ (is_space c = true -> c = d)) s s'.

(** [a] may stand before [b] in the sorted outline: the key of [a],
    (page, Y of the first candidate with its text), is not above that of [b]. *)
Definition entry_key_le (candidates : list candidate) (a b : entry) : Prop :=
  exists ka kb,
    outline_key candidates a = Some ka /\ outline_key candidates b = Some kb
    /\ key_leb ka kb = true.

(* ================================================================== *)
(** * Properties *)

(** ** Characters and text *)

Lemma chr_eqb_eq : forall a b, chr_eqb a b = true <-> a = b.
Proof. intros a b. unfold chr_eqb. apply Ascii.eqb_eq. Qed.

Lemma chr_eqb_refl : forall a, chr_eqb a a = true.
Proof. intro a. apply chr_eqb_eq. reflexivity. Qed.

Lemma text_eqb_eq : forall a b, text_eqb a b = true <-> a = b.
Proof.
  induction a as [|x a IH]; destruct b as [|y b]; simpl; split; intro H;
    try reflexivity; try discriminate.
  - apply andb_true_iff in H. destruct H as [H1 H2].
    apply chr_eqb_eq in H1. apply IH in H2. congruence.
  - inversion H; subst. rewrite chr_eqb_refl. simpl. apply IH. reflexivity.
Qed.

Lemma text_eqb_neq : forall a b, text_eqb a b = false <-> a <> b.
Proof.
  intros a b. split.
  - intros H E. apply text_eqb_eq in E. congruence.
  - intro H. destruct (text_eqb a b) eqn:E; [|reflexivity].
    apply text_eqb_eq in E. contradiction.
Qed.

Lemma mem_text_In : forall t l, mem_text t l = true <-> In t l.
Proof.
  intros t l. unfold mem_text. rewrite existsb_exists. split.
  - intros [x [Hx E]]. apply text_eqb_eq in E. subst. exact Hx.
  - intro H. exists t. split; [exact H|]. apply text_eqb_eq. reflexivity.
Qed.

(** ** The matcher decides the language *)

Lemma nullable_lang : forall r, nullable r = true <-> lang r [].
Proof.
  intro r. split.
  - induction r; simpl; intro H; try discriminate.
    + constructor.
    + apply andb_true_iff in H. destruct H as [H1 H2].
      change (@nil ascii) with (@nil ascii ++ []). constructor; auto.
    + apply orb_true_iff in H. destruct H as [H|H].
      * apply L_alt_l; auto.
      * apply L_alt_r; auto.
    + constructor.
  - intro H. remember (@nil ascii) as s eqn:E. induction H; simpl; try reflexivity.
    + discriminate.
    + apply app_eq_nil in E. destruct E as [E1 E2].
      rewrite IHlang1, IHlang2 by assumption. reflexivity.
    + rewrite IHlang by assumption. reflexivity.
    + rewrite IHlang by assumption. apply orb_true_r.
Qed.

Lemma deriv_sound : forall r c s, lang (deriv c r) s -> lang r (c :: s).
Proof.
  induction r; simpl; intros c s H.
  - inversion H.
  - inversion H.
  - destruct (b c) eqn:E; inversion H; subst. constructor. exact E.
  - destruct (nullable r1) eqn:N.
    + inversion H; subst.
      * match goal with X : lang (Cat _ _) _ |- _ => inversion X; subst end.
        change (c :: u ++ v) with ((c :: u) ++ v). constructor; auto.
      * change (c :: s) with ([] ++ c :: s). constructor; auto.
        apply nullable_lang. exact N.
    + inversion H; subst.
      change (c :: u ++ v) with ((c :: u) ++ v). constructor; auto.
  - inversion H; subst.
    + apply L_alt_l; auto.
    + apply L_alt_r; auto.
  - inversion H; subst.
    change (c :: u ++ v) with ((c :: u) ++ v). constructor; auto.
Qed.

Lemma deriv_complete : forall r w, lang r w ->
  forall c s, w = c :: s -> lang (deriv c r) s.
Proof.
  induction 1; intros c0 s E; simpl.
  - discriminate.
  - inversion E; subst. rewrite H. constructor.
  - destruct u as [|x u].
    + simpl in E. subst v.
      assert (N : nullable a = true) by (apply nullable_lang; assumption).
      rewrite N. apply L_alt_r. apply IHlang2. reflexivity.
    + simpl in E. inversion E; subst.
      assert (L : lang (Cat (deriv c0 a) b) (u ++ v)).
      { constructor; [apply IHlang1; reflexivity | assumption]. }
      destruct (nullable a); [apply L_alt_l|]; exact L.
  - apply L_alt_l. apply IHlang. exact E.
  - apply L_alt_r. apply IHlang. exact E.
  - discriminate.
  - destruct u as [|x u].
    + simpl in E. apply IHlang2 in E. simpl in E. exact E.
    + simpl in E. inversion E; subst.
      constructor; [apply IHlang1; reflexivity | assumption].
Qed.

Lemma matches_lang : forall s r, matches r s = true <-> lang r s.
Proof.
  induction s as [|c s IH]; intro r; simpl.
  - apply nullable_lang.
  - rewrite IH. split.
    + apply deriv_sound.
    + intro H. eapply deriv_complete; [exact H | reflexivity].
Qed.

Lemma lang_star_any : forall s, lang (Star any) s.
Proof.
  induction s as [|c s IH].
  - constructor.
  - change (c :: s) with ([c] ++ s). constructor; [|exact IH].
    constructor. reflexivity.
Qed.

Lemma lang_lit : forall m, lang (lit m) m.
Proof.
  induction m as [|c m IH]; simpl.
  - constructor.
  - change (c :: m) with ([c] ++ m). constructor; [|exact IH].
    constructor. apply chr_eqb_refl.
Qed.

Lemma lang_plus_class : forall p s,
  s <> [] -> Forall (fun c => p c = true) s -> lang (plus (Cls p)) s.
Proof.
  intros p s Hne Hall. destruct s as [|c s]; [contradiction|].
  inversion Hall; subst. unfold plus.
  change (c :: s) with ([c] ++ s). constructor.
  - constructor. assumption.
  - clear -H2. induction H2.
    + constructor.
    + change (x :: l) with ([x] ++ l). constructor; [|assumption].
      constructor. assumption.
Qed.

Lemma search_contains : forall r a m b,
  lang r m -> search r (a ++ m ++ b) = true.
Proof.
  intros r a m b H. unfold search. apply matches_lang.
  constructor; [apply lang_star_any|].
  constructor; [exact H | apply lang_star_any].
Qed.

(** ** Text without whitespace is already normal *)

Lemma drop_while_head : forall p s,
  match s with [] => True | c :: _ => p c = false end -> drop_while p s = s.
Proof. intros p [|c s] H; simpl; [reflexivity | rewrite H; reflexivity]. Qed.

Lemma collapse_ws_no_ws : forall s,
  Forall (fun c => is_space c = false) s -> collapse_ws s = s.
Proof.
  induction 1 as [|c s Hc Hs IH]; simpl; [reflexivity|].
  rewrite Hc, IH. reflexivity.
Qed.

Lemma strip_no_ws : forall s,
  Forall (fun c => is_space c = false) s -> strip s = s.
Proof.
  intros s H. unfold strip, lstrip, rstrip, rstrip_with.
  rewrite (drop_while_head is_space s).
  - rewrite drop_while_head; [apply rev_involutive|].
    apply Forall_rev in H. destruct (rev s); [exact I|]. inversion H; assumption.
  - destruct s; [exact I|]. inversion H; assumption.
Qed.

Lemma normalize_no_ws : forall s,
  Forall (fun c => is_space c = false) s -> normalize_text s = s.
Proof.
  intros s H. unfold normalize_text. rewrite collapse_ws_no_ws by exact H.
  apply strip_no_ws. exact H.
Qed.

Lemma roman_letter_facts : forall c,
  is_roman_letter c = true ->
  is_space c = false /\
  existsb (chr_eqb (to_lower c)) ["i"; "v"; "x"; "l"; "c"; "d"; "m"]%char = true.
Proof.
  intros c. destruct c as [[] [] [] [] [] [] [] []]; vm_compute; intro H;
    try discriminate; split; reflexivity.
Qed.

(** ** Sets of Y-coordinates *)

Lemma yset_add_keeps : forall y z s, yset_mem y s -> yset_mem y (yset_add z s).
Proof.
  intros y z s [w [Hw E]]. unfold yset_add.
  destruct (existsb (Qeq_bool z) s); exists w; split; auto.
  apply in_or_app. left. exact Hw.
Qed.

Lemma yset_add_adds : forall y s, yset_mem y (yset_add y s).
Proof.
  intros y s. unfold yset_add. destruct (existsb (Qeq_bool y) s) eqn:E.
  - apply existsb_exists in E. destruct E as [w [Hw E]].
    apply Qeq_bool_iff in E. exists w. split; [exact Hw|]. symmetry. exact E.
  - exists y. split; [|reflexivity]. apply in_or_app. right. left. reflexivity.
Qed.

Lemma fold_left_keeps : forall (S A : Type) (f : S -> A -> S) (P : S -> Prop),
  (forall s a, P s -> P (f s a)) ->
  forall l s, P s -> P (fold_left f l s).
Proof.
  intros S A f P Hf. induction l as [|a l IH]; simpl; intros s H; auto.
Qed.

Lemma serial_rows_mem : forall ls l,
  In l ls -> is_serial_number (l_text l) = true ->
  yset_mem (by0 (l_bbox l)) (serial_rows ls).
Proof.
  intros ls l Hin Hs. unfold serial_rows.
  generalize (@nil Q) as s. induction ls as [|x ls IH]; intro s; [contradiction|].
  simpl. destruct Hin as [E|Hin].
  - subst x. rewrite Hs.
    apply fold_left_keeps with (P := yset_mem (by0 (l_bbox l))).
    + intros s0 a H. destruct (is_serial_number (l_text a)); [|exact H].
      apply yset_add_keeps. exact H.
    + apply yset_add_adds.
  - apply IH. exact Hin.
Qed.

Lemma detect_table_rows_keeps_serial : forall ls y,
  yset_mem y (serial_rows ls) -> yset_mem y (detect_table_rows ls).
Proof.
  intros ls y H. unfold detect_table_rows.
  apply fold_left_keeps with (P := yset_mem y); [|exact H].
  intros s g Hs. unfold page_rows.
  apply fold_left_keeps with (P := yset_mem y); [|exact Hs].
  intros s0 g0 Hs0.
  apply fold_left_keeps with (P := yset_mem y); [|exact Hs0].
  intros s1 z Hs1. apply yset_add_keeps. exact Hs1.
Qed.

(** ** C10 *)

Lemma roman_word_serial : forall s tail,
  s <> [] -> Forall (fun c => is_roman_letter c = true) s ->
  tail = [] \/ tail = ["."%char] ->
  is_serial_number (s ++ tail) = true.
Proof.
  intros s tail Hne Hall Htail.
  assert (Hs : Forall (fun c => is_space c = false) (s ++ tail)).
  { apply Forall_app. split.
    - eapply Forall_impl; [|exact Hall]. intros c Hc.
      apply roman_letter_facts in Hc. tauto.
    - destruct Htail; subst; repeat constructor. }
  unfold is_serial_number. rewrite normalize_no_ws by exact Hs.
  apply existsb_exists. exists (cats [plus roman_lower; opt dot]). split.
  { unfold serial_patterns. do 9 right. left. reflexivity. }
  unfold anchored. apply matches_lang.
  unfold lower. rewrite map_app.
  rewrite <- (app_nil_r (map to_lower s ++ map to_lower tail)).
  constructor; [|apply L_alt_r; constructor].
  simpl cats. constructor.
  - apply lang_plus_class.
    + destruct s; [contradiction | discriminate].
    + apply Forall_map. eapply Forall_impl; [|exact Hall]. intros c Hc.
      apply roman_letter_facts in Hc. tauto.
  - rewrite <- (app_nil_r (map to_lower tail)). constructor; [|constructor].
    destruct Htail; subst; simpl.
    + apply L_alt_r. constructor.
    + apply L_alt_l. constructor. reflexivity.
Qed.

(** C10.  Every non-empty word over the letters i, v, x, l, c, d, m, in
    either case and with or without a final period, is a serial number,
    whether or not it is a well-formed Roman numeral; and a line whose
    text is such a word has its Y-coordinate in the set that
    [detect_table_rows] returns. *)
Theorem roman_words_are_serial_numbers : forall s,
  s <> [] -> Forall (fun c => is_roman_letter c = true) s ->
  is_serial_number s = true /\
  is_serial_number (s ++ ["."%char]) = true /\
  forall all_lines l,
    In l all_lines -> l_text l = s \/ l_text l = s ++ ["."%char] ->
    yset_mem (by0 (l_bbox l)) (detect_table_rows all_lines).
Proof.
  intros s Hne Hall.
  assert (H1 : is_serial_number s = true).
  { rewrite <- (app_nil_r s). apply roman_word_serial; auto. }
  assert (H2 : is_serial_number (s ++ ["."%char]) = true).
  { apply roman_word_serial; auto. }
  repeat split; try assumption.
  intros ls l Hin Ht. apply detect_table_rows_keeps_serial.
  apply serial_rows_mem; [exact Hin|]. destruct Ht as [E|E]; rewrite E; assumption.
Qed.

Lemma roman_words_are_serial_numbers_witness :
  is_serial_number (T "mix") = true /\
  is_serial_number (T "did.") = true /\
  yset_mem 120
    (detect_table_rows
       [mk_line (T "ill") 10 false (mk_bbox 72 120 90 132) 0 []]).
Proof.
  assert (Hne : T "mix" <> []) by discriminate.
  assert (Hne2 : T "did" <> []) by discriminate.
  assert (Hne3 : T "ill" <> []) by discriminate.
  assert (R1 : Forall (fun c => is_roman_letter c = true) (T "mix"))
    by (repeat constructor).
  assert (R2 : Forall (fun c => is_roman_letter c = true) (T "did"))
    by (repeat constructor).
  assert (R3 : Forall (fun c => is_roman_letter c = true) (T "ill"))
    by (repeat constructor).
  split; [exact (proj1 (roman_words_are_serial_numbers Hne R1))|].
  split; [exact (proj1 (proj2 (roman_words_are_serial_numbers Hne2 R2)))|].
  apply (proj2 (proj2 (roman_words_are_serial_numbers Hne3 R3))
               [mk_line (T "ill") 10 false (mk_bbox 72 120 90 132) 0 []]
               (mk_line (T "ill") 10 false (mk_bbox 72 120 90 132) 0 [])).
  - left. reflexivity.
  - left. reflexivity.
Defined.

(** ** C4 *)

(** C4.  A document from which no line is extracted gives exactly the
    result with the empty title and the empty outline. *)
Theorem no_lines_empty_result : forall fit_predict doc,
  extracted_lines doc = [] ->
  extract_pdf_outline fit_predict doc = mk_result [] [].
Proof.
  intros fp [pages|] H; unfold extract_pdf_outline, outline_of; [|reflexivity].
  simpl in H. rewrite H. reflexivity.
Qed.

Lemma no_lines_empty_result_witness :
  extract_pdf_outline (fun _ _ => None)
    (Some [mk_page 792
             (Some [mk_block
                      (Some [mk_raw_line
                               (Some [mk_span (Some (T "Page 3 of 10")) (Some 30%Q)
                                              (Some 16%Z)])
                               (Some (mk_bbox 72 700 200 730))])])])
  = mk_result [] [].
Proof.
  apply (@no_lines_empty_result (fun _ _ => None)). vm_compute. reflexivity.
Defined.

(** ** C5 *)

Lemma heading_score_claimed : forall size_ratio vertical_gap bold_frequency l,
  heading_score size_ratio vertical_gap bold_frequency l
  = claimed_score size_ratio vertical_gap bold_frequency l.
Proof.
  intros r g bf l. unfold heading_score, claimed_score, size_weight_points,
    bonus, word_count.
  destruct (ratio_gtb r (13 # 10)); destruct (ratio_gtb r (115 # 100));
    destruct (l_is_bold l); destruct (Qltb bf (2 # 10)); destruct (Qgtb g 20);
    destruct (rmatch numbered_marker (l_text l));
    destruct (length (split (l_text l)) <=? 6);
    destruct (Qgtb (title_ratio (split (l_text l))) (7 # 10));
    reflexivity.
Qed.

Lemma score_lines_app : forall title ty m bf pre prev l post,
  score_lines title ty m bf prev (pre ++ l :: post)
  = score_lines title ty m bf prev pre
    ++ match score_line title ty m bf
               (match last_line pre with Some p => Some p | None => prev end) l with
       | Some c => [c]
       | None => []
       end
    ++ score_lines title ty m bf (Some l) post.
Proof.
  intros title ty m bf pre. induction pre as [|x pre IH]; intros prev l post.
  - simpl. destruct (score_line title ty m bf prev l); reflexivity.
  - simpl app. simpl score_lines.
    assert (E : match last_line (x :: pre) with Some p => Some p | None => prev end
                = match last_line pre with Some p => Some p | None => Some x end).
    { unfold last_line. simpl. destruct (rev pre) as [|y r] eqn:R; reflexivity. }
    rewrite E.
    destruct (score_line title ty m bf prev x); rewrite IH; reflexivity.
Qed.

(** C5.  A line that passes the guards of the scoring loop (it is not the
    title, it is a valid heading, it is in no table row) becomes a heading
    candidate exactly when its score is at least 4, the score being the
    first applicable of the three size and weight rules plus the gap,
    numbered-marker, short-and-bold and capitalisation bonuses; the
    candidate list gains, at the place of the line, that candidate or
    nothing. *)
Theorem candidate_iff_score_at_least_4 :
  forall title table_y median_size bold_frequency pre l post,
    matches_title title l = false ->
    is_valid_heading (l_text l) = true ->
    is_in_table_row (l_bbox l) table_y = false ->
    let size_ratio := np_div (l_size l) median_size in
    let gap := vertical_gap_of (last_line pre) l in
    let score := claimed_score size_ratio gap bold_frequency l in
    (score_line title table_y median_size bold_frequency (last_line pre) l
     = Some (mk_candidate l score gap size_ratio) <-> (4 <= score)%Z)
    /\ (score_line title table_y median_size bold_frequency (last_line pre) l
        = None <-> (score < 4)%Z)
    /\ score_lines title table_y median_size bold_frequency None (pre ++ l :: post)
       = score_lines title table_y median_size bold_frequency None pre
         ++ (if (4 <=? score)%Z then [mk_candidate l score gap size_ratio] else [])
         ++ score_lines title table_y median_size bold_frequency (Some l) post.
Proof.
  intros title ty m bf pre l post Ht Hv Hr size_ratio gap score.
  assert (E : score_line title ty m bf (last_line pre) l
              = if (4 <=? score)%Z
                then Some (mk_candidate l score gap size_ratio) else None).
  { unfold score_line. rewrite Ht, Hv, Hr. simpl negb. cbv iota.
    rewrite heading_score_claimed. reflexivity. }
  split; [|split].
  - rewrite E. destruct (4 <=? score)%Z eqn:L.
    + apply Z.leb_le in L. tauto.
    + apply Z.leb_gt in L. split; [discriminate | lia].
  - rewrite E. destruct (4 <=? score)%Z eqn:L.
    + apply Z.leb_le in L. split; [discriminate | lia].
    + apply Z.leb_gt in L. tauto.
  - rewrite score_lines_app.
    replace (match last_line pre with Some p => Some p | None => None end)
      with (last_line pre) by (destruct (last_line pre); reflexivity).
    rewrite E. destruct (4 <=? score)%Z; reflexivity.
Qed.

Lemma candidate_iff_score_at_least_4_witness :
  let l := mk_line (T "1. Introduction") 14 true (mk_bbox 50 150 200 166) 0 [] in
  let p := mk_line (T "some text of the body.") 10 false (mk_bbox 50 100 500 112) 0 [] in
  score_line (T "Project Charter") [] 12 (1 # 2) (last_line [p]) l
  = Some (mk_candidate l 10 38 (Fin (14 # 12)))
  /\ (4 <= claimed_score (Fin (14 # 12)) 38 (1 # 2) l)%Z.
Proof.
  intros l p.
  assert (H1 : matches_title (T "Project Charter") l = false) by (vm_compute; reflexivity).
  assert (H2 : is_valid_heading (l_text l) = true) by (vm_compute; reflexivity).
  assert (H3 : is_in_table_row (l_bbox l) [] = false) by reflexivity.
  pose proof (@candidate_iff_score_at_least_4 (T "Project Charter") [] 12 (1 # 2)
                [p] l [] H1 H2 H3) as W.
  assert (L : (4 <= claimed_score (Fin (14 # 12)) 38 (1 # 2) l)%Z)
    by (vm_compute; discriminate).
  split; [|exact L].
  destruct W as [W _]. apply W. exact L.
Defined.

(** ** Lowercasing and normalisation commute *)

Lemma to_lower_space : forall c, is_space (to_lower c) = is_space c.
Proof. intro c. destruct c as [[] [] [] [] [] [] [] []]; reflexivity. Qed.

Lemma to_lower_space_fixed : forall c, is_space c = true -> to_lower c = c.
Proof.
  intro c. destruct c as [[] [] [] [] [] [] [] []]; vm_compute; intro H;
    try discriminate; reflexivity.
Qed.

Lemma collapse_ws_cons : forall c r,
  collapse_ws (c :: r)
  = if is_space c then
      match r with
      | [] => [" "%char]
      | c' :: _ => if is_space c' then collapse_ws r else " "%char :: collapse_ws r
      end
    else c :: collapse_ws r.
Proof. reflexivity. Qed.

Section CharMap.
Variable f : ascii -> ascii.
Hypothesis f_space : forall c, is_space (f c) = is_space c.
Hypothesis f_blank : f " "%char = " "%char.

Lemma collapse_ws_map : forall s, collapse_ws (map f s) = map f (collapse_ws s).
Proof.
  induction s as [|c s IH]; [reflexivity|].
  cbn [map]. rewrite (collapse_ws_cons (f c)), (collapse_ws_cons c), f_space.
  destruct (is_space c).
  - destruct s as [|c' s']; cbn [map] in *.
    + rewrite f_blank. reflexivity.
    + rewrite f_space. destruct (is_space c').
      * exact IH.
      * cbn [map]. rewrite f_blank. f_equal. exact IH.
  - cbn [map]. f_equal. exact IH.
Qed.

Lemma drop_while_space_map : forall s,
  drop_while is_space (map f s) = map f (drop_while is_space s).
Proof.
  induction s as [|c s IH]; [reflexivity|].
  simpl. rewrite f_space. destruct (is_space c); [exact IH | reflexivity].
Qed.

Lemma strip_map : forall s, strip (map f s) = map f (strip s).
Proof.
  intro s. unfold strip, rstrip, rstrip_with, lstrip.
  rewrite drop_while_space_map, <- map_rev, drop_while_space_map, map_rev.
  reflexivity.
Qed.

Lemma normalize_map : forall s,
  normalize_text (map f s) = map f (normalize_text s).
Proof.
  intro s. unfold normalize_text. rewrite collapse_ws_map. apply strip_map.
Qed.
End CharMap.

Lemma normalize_lower : forall s,
  normalize_text (lower s) = lower (normalize_text s).
Proof.
  intro s. unfold lower. apply normalize_map.
  - apply to_lower_space.
  - reflexivity.
Qed.

(** ** What normalisation keeps *)

Lemma collapse_ws_app_nonws : forall a c r,
  is_space c = false ->
  collapse_ws (a ++ c :: r) = collapse_ws a ++ c :: collapse_ws r.
Proof.
  intros a c r Hc. induction a as [|x a IH].
  - cbn [app]. rewrite collapse_ws_cons, Hc. reflexivity.
  - cbn [app]. rewrite (collapse_ws_cons x (a ++ c :: r)), (collapse_ws_cons x a).
    destruct (is_space x).
    + destruct a as [|y a']; cbn [app] in *.
      * rewrite Hc, collapse_ws_cons, Hc. reflexivity.
      * destruct (is_space y).
        -- exact IH.
        -- rewrite IH. reflexivity.
    + rewrite IH. reflexivity.
Qed.

Lemma collapse_ws_run : forall w c r,
  w <> [] -> Forall (fun x => is_space x = true) w -> is_space c = false ->
  collapse_ws (w ++ c :: r) = " "%char :: c :: collapse_ws r.
Proof.
  induction w as [|x w IH]; intros c r Hne Hall Hc; [contradiction|].
  inversion Hall as [|? ? Hx Hw]; subst.
  cbn [app]. rewrite collapse_ws_cons, Hx. destruct w as [|y w'].
  - cbn [app]. rewrite Hc, collapse_ws_cons, Hc. reflexivity.
  - cbn [app]. inversion Hw as [|? ? Hy Hw']; subst. rewrite Hy.
    apply (IH c r); [discriminate | exact Hw | exact Hc].
Qed.

Lemma collapse_ws_nows_app : forall m b,
  Forall (fun x => is_space x = false) m ->
  collapse_ws (m ++ b) = m ++ collapse_ws b.
Proof.
  induction 1 as [|c m Hc Hm IH]; [reflexivity|].
  cbn [app]. rewrite collapse_ws_cons, Hc. f_equal. exact IH.
Qed.

Lemma lstrip_keeps : forall x c m,
  is_space c = false -> exists x', drop_while is_space (x ++ c :: m) = x' ++ c :: m.
Proof.
  induction x as [|y x IH]; intros c m Hc.
  - exists []. simpl. rewrite Hc. reflexivity.
  - simpl. destruct (is_space y).
    + apply IH. exact Hc.
    + exists (y :: x). reflexivity.
Qed.

(** A middle part that starts and ends with a visible character
    survives [strip]. *)
Lemma strip_keeps : forall x m y c m1 c2 m2,
  m = c :: m1 -> is_space c = false ->
  rev m = c2 :: m2 -> is_space c2 = false ->
  exists x' y', strip (x ++ m ++ y) = x' ++ m ++ y'.
Proof.
  intros x m y c m1 c2 m2 Em Hc Er Hc2. subst m.
  unfold strip, rstrip, rstrip_with, lstrip.
  destruct (@lstrip_keeps x c (m1 ++ y) Hc) as [x' Hx].
  cbn [app]. rewrite Hx.
  change (x' ++ c :: m1 ++ y) with (x' ++ (c :: m1) ++ y).
  rewrite !rev_app_distr, Er, <- app_assoc. cbn [app].
  destruct (@lstrip_keeps (rev y) c2 (m2 ++ rev x') Hc2) as [y' Hy].
  rewrite Hy. exists x', (rev y').
  change (y' ++ c2 :: m2 ++ rev x') with (y' ++ (c2 :: m2) ++ rev x').
  rewrite <- Er, !rev_app_distr, !rev_involutive, <- app_assoc. reflexivity.
Qed.

Lemma marker_survives : forall a m b c m1 c2 m2,
  m = c :: m1 -> rev m = c2 :: m2 ->
  Forall (fun x => is_space x = false) m ->
  exists x y, normalize_text (a ++ m ++ b) = x ++ m ++ y.
Proof.
  intros a m b c m1 c2 m2 Em Er Hm. unfold normalize_text.
  assert (Hc : is_space c = false) by (subst m; inversion Hm; assumption).
  assert (Hc2 : is_space c2 = false).
  { apply Forall_rev in Hm. rewrite Er in Hm. inversion Hm; assumption. }
  assert (E : collapse_ws (a ++ m ++ b) = collapse_ws a ++ m ++ collapse_ws b).
  { rewrite Em at 1. cbn [app]. rewrite collapse_ws_app_nonws by exact Hc.
    assert (Hm1 : Forall (fun x => is_space x = false) m1)
      by (subst m; inversion Hm; assumption).
    rewrite collapse_ws_nows_app by exact Hm1. rewrite Em. reflexivity. }
  rewrite E. eapply strip_keeps; eassumption.
Qed.

(** ** C9 *)

Lemma noise_if_url : forall t,
  search url_pattern (lower (normalize_text t)) = true ->
  is_noise_content t = true.
Proof.
  intros t H. unfold is_noise_content.
  destruct (length (normalize_text t) <? 2); [reflexivity|].
  destruct (fullmatch (plus digit) (normalize_text t)); [reflexivity|].
  destruct (existsb _ date_patterns); [reflexivity|].
  rewrite H. reflexivity.
Qed.

Lemma noise_if_page : forall t,
  existsb (fun p => search p (lower (normalize_text t))) page_patterns = true ->
  is_noise_content t = true.
Proof.
  intros t H. unfold is_noise_content.
  destruct (length (normalize_text t) <? 2); [reflexivity|].
  destruct (fullmatch (plus digit) (normalize_text t)); [reflexivity|].
  destruct (existsb _ date_patterns); [reflexivity|].
  destruct (search url_pattern (lower (normalize_text t))); [reflexivity|].
  destruct (fullmatch paren_pattern (normalize_text t)); [reflexivity|].
  destruct (fullmatch rule_pattern (normalize_text t)); [reflexivity|].
  rewrite H. reflexivity.
Qed.

Lemma url_marker_noise : forall t, has_url_marker t -> is_noise_content t = true.
Proof.
  intros t [m [Hm [a [b E]]]]. apply noise_if_url.
  rewrite <- normalize_lower, E.
  assert (S : exists x y, normalize_text (a ++ m ++ b) = x ++ m ++ y
                          /\ lang url_pattern m).
  { unfold url_markers in Hm. simpl in Hm.
    destruct Hm as [Hm|[Hm|[Hm|[Hm|[Hm|[Hm|[]]]]]]]; subst m;
      match goal with
      | |- exists x y, normalize_text (a ++ ?m ++ b) = _ /\ _ =>
          destruct (@marker_survives a m b _ _ _ _ eq_refl eq_refl)
            as [x [y Hxy]];
          [ repeat constructor
          | exists x, y; split;
            [exact Hxy | apply matches_lang; vm_compute; reflexivity] ]
      end. }
  destruct S as [x [y [Hxy L]]]. rewrite Hxy. apply search_contains. exact L.
Qed.

Lemma digit_not_space : forall c, is_digit c = true -> is_space c = false.
Proof.
  intro c. destruct c as [[] [] [] [] [] [] [] []]; vm_compute; intro H;
    try discriminate; reflexivity.
Qed.

Lemma page_number_noise : forall t, has_page_number t -> is_noise_content t = true.
Proof.
  intros t [a [w [d [b [E [Hw [Hws [Hd Hds]]]]]]]]. apply noise_if_page.
  rewrite <- normalize_lower, E.
  destruct d as [|d0 d']; [contradiction|].
  destruct (rev (d0 :: d')) as [|c2 m2] eqn:R.
  { apply (f_equal (@length ascii)) in R. rewrite length_rev in R. discriminate. }
  assert (Hc2 : is_space c2 = false).
  { apply digit_not_space. apply Forall_rev in Hds. rewrite R in Hds.
    inversion Hds; assumption. }
  assert (Hd0 : is_space d0 = false)
    by (apply digit_not_space; inversion Hds; assumption).
  assert (Hd' : Forall (fun x => is_space x = false) d').
  { inversion Hds; subst. eapply Forall_impl; [|eassumption].
    intros; apply digit_not_space; assumption. }
  set (M := T "page" ++ " "%char :: d0 :: d').
  assert (C : collapse_ws (a ++ T "page" ++ w ++ (d0 :: d') ++ b)
              = collapse_ws a ++ M ++ collapse_ws b).
  { change (T "page") with ("p"%char :: T "age").
    cbn [app]. rewrite collapse_ws_app_nonws by reflexivity.
    rewrite (@collapse_ws_nows_app (T "age")) by (repeat constructor).
    rewrite collapse_ws_run by assumption.
    rewrite collapse_ws_nows_app by exact Hd'.
    unfold M. change (T "page") with ("p"%char :: T "age").
    cbn [app]. rewrite <- !app_assoc. reflexivity. }
  unfold normalize_text. rewrite C.
  destruct (@strip_keeps (collapse_ws a) M (collapse_ws b)
              "p"%char (T "age" ++ " "%char :: d0 :: d') c2
              (m2 ++ rev (T "page ")))
    as [x [y Hxy]].
  - reflexivity.
  - reflexivity.
  - unfold M.
    change (T "page" ++ " "%char :: d0 :: d') with (T "page " ++ d0 :: d').
    rewrite rev_app_distr, R. reflexivity.
  - exact Hc2.
  - rewrite Hxy. apply existsb_exists.
    exists (cats [lit (T "page"); plus ws; plus digit]). split.
    + left. reflexivity.
    + apply search_contains. unfold M. simpl cats.
      apply L_cat; [exact (lang_lit (T "page"))|].
      change (" "%char :: d0 :: d') with ([" "%char] ++ (d0 :: d')).
      apply L_cat.
      * apply lang_plus_class; [discriminate | repeat constructor].
      * rewrite <- (app_nil_r (d0 :: d')). apply L_cat; [|apply L_eps].
        apply lang_plus_class; [discriminate | exact Hds].
Qed.

Lemma noise_of_normal_form : forall a b,
  normalize_text a = normalize_text b -> is_noise_content a = is_noise_content b.
Proof. intros a b H. unfold is_noise_content. rewrite H. reflexivity. Qed.

(** Every collected line comes from a text that passed the noise test. *)
Lemma read_pages_lines : forall (P : line -> Prop),
  (forall t sz bd bb pn sp,
      t <> [] -> is_noise_content t = false ->
      P (mk_line (normalize_text t) sz bd bb pn sp)) ->
  forall pages n a,
    Forall P (all_lines a) -> Forall P (all_lines (read_pages n pages a)).
Proof.
  intros P HP.
  assert (HL : forall n a rl, Forall P (all_lines a) ->
                              Forall P (all_lines (read_line n a rl))).
  { intros n a rl Ha. unfold read_line.
    destruct (rl_spans rl) as [[|s0 sp]|]; try exact Ha.
    destruct (joined_text (s0 :: sp)) as [|c t] eqn:J; [exact Ha|].
    destruct (is_noise_content (c :: t)) eqn:N; [exact Ha|].
    destruct (span_sizes (s0 :: sp)); [exact Ha|].
    cbn [all_lines]. apply Forall_app. split; [exact Ha|].
    constructor; [|constructor]. apply HP; [discriminate | exact N]. }
  assert (HB : forall n a b, Forall P (all_lines a) ->
                             Forall P (all_lines (read_block n a b))).
  { intros n a b Ha. unfold read_block. destruct (blk_lines b); [|exact Ha].
    apply fold_left_keeps with (P := fun a => Forall P (all_lines a)); auto. }
  induction pages as [|p ps IH]; intros n a Ha; [exact Ha|].
  simpl. apply IH. unfold read_page. destruct (pg_blocks p); [|exact Ha].
  apply fold_left_keeps with (P := fun a => Forall P (all_lines a)); auto.
Qed.

Lemma score_line_Some : forall title ty m bf prev l c,
  score_line title ty m bf prev l = Some c ->
  c_line c = l /\ matches_title title l = false
  /\ is_valid_heading (l_text l) = true.
Proof.
  intros title ty m bf prev l c. unfold score_line.
  destruct (matches_title title l); [discriminate|].
  destruct (is_valid_heading (l_text l)); [|discriminate].
  destruct (is_in_table_row (l_bbox l) ty); [discriminate|].
  simpl. destruct (4 <=? _)%Z; [|discriminate].
  intro H. inversion H. simpl. auto.
Qed.

Lemma score_lines_In : forall title ty m bf ls prev c,
  In c (score_lines title ty m bf prev ls) ->
  In (c_line c) ls /\ matches_title title (c_line c) = false
  /\ is_valid_heading (c_text c) = true.
Proof.
  intros title ty m bf. induction ls as [|l ls IH]; intros prev c H; [contradiction|].
  simpl in H.
  destruct (score_line title ty m bf prev l) as [c0|] eqn:E.
  - destruct H as [H|H].
    + subst c0. apply score_line_Some in E. destruct E as [E1 [E2 E3]].
      unfold c_text. rewrite E1. repeat split; auto. left. reflexivity.
    + apply IH in H. destruct H as [H1 H2]. split; [right|]; assumption.
  - apply IH in H. destruct H as [H1 H2]. split; [right|]; assumption.
Qed.

(** C9.  A text that contains a URL marker, or "page" followed by a
    number (so "Page 3 of 10"), in any letter case, is noise content; and
    no line collected from a document, hence no heading candidate, whatever
    its font size and weight, carries the text of a noise line. *)
Theorem noise_lines_never_candidates : forall t,
  has_url_marker t \/ has_page_number t ->
  is_noise_content t = true
  /\ (forall doc l, In l (extracted_lines doc) -> l_text l <> normalize_text t)
  /\ (forall pages title c,
        In c (heading_candidates (read_pages 0 pages acc0) title) ->
        c_text c <> normalize_text t).
Proof.
  intros t H.
  assert (N : is_noise_content t = true).
  { destruct H; [apply url_marker_noise | apply page_number_noise]; assumption. }
  assert (A : forall pages l, In l (all_lines (read_pages 0 pages acc0)) ->
                              l_text l <> normalize_text t).
  { intros pages l Hl E.
    assert (F : Forall from_clean_text (all_lines (read_pages 0 pages acc0))).
    { apply read_pages_lines; [|constructor].
      intros t0 sz bd bb pn sp _ Hn. exists t0. split; [reflexivity | exact Hn]. }
    rewrite Forall_forall in F. destruct (F l Hl) as [raw [Hr Hn]].
    rewrite Hr in E. apply noise_of_normal_form in E. congruence. }
  split; [exact N|]. split.
  - intros [pages|] l Hl; [|contradiction]. apply A with (pages := pages). exact Hl.
  - intros pages title c Hc. unfold heading_candidates in Hc.
    apply score_lines_In in Hc. destruct Hc as [Hc _].
    apply A with (pages := pages). exact Hc.
Qed.

Lemma noise_lines_never_candidates_witness :
  is_noise_content (T "Page 3 of 10") = true
  /\ is_noise_content (T "See https://example.org/a") = true.
Proof.
  split.
  - refine (proj1 (@noise_lines_never_candidates (T "Page 3 of 10") _)).
    right. exists [], [" "%char], (T "3"), (T " of 10").
    split; [reflexivity|]. split; [discriminate|].
    split; [repeat constructor|]. split; [discriminate | repeat constructor].
  - refine (proj1 (@noise_lines_never_candidates (T "See https://example.org/a") _)).
    left. exists (T "https://"). split.
    + unfold url_markers. simpl. auto 10.
    + exists (T "see "), (T "example.org/a"). reflexivity.
Defined.

(** ** Comparisons on rationals *)

Lemma Qltb_lt : forall a b, Qltb a b = true <-> (a < b)%Q.
Proof.
  intros a b. unfold Qltb. rewrite negb_true_iff. split.
  - intro H. apply Qnot_le_lt. intro L. apply Qle_bool_iff in L. congruence.
  - intro H. destruct (Qle_bool b a) eqn:E; [|reflexivity].
    apply Qle_bool_iff in E. apply Qlt_not_le in H. contradiction.
Qed.

Lemma Qltb_ge : forall a b, Qltb a b = false <-> (b <= a)%Q.
Proof.
  intros a b. unfold Qltb. rewrite negb_false_iff. apply Qle_bool_iff.
Qed.

(** ** The stable sort *)

Section SortFacts.
Variable A : Type.
Variable leb : A -> A -> bool.

Lemma insert_sorted_perm : forall x l,
  Permutation (insert_sorted leb x l) (x :: l).
Proof.
  intros x. induction l as [|y l IH]; simpl.
  - apply Permutation_refl.
  - destruct (leb x y); [apply Permutation_refl|].
    eapply Permutation_trans; [apply perm_skip; exact IH | apply perm_swap].
Qed.

Lemma stable_sort_perm : forall l, Permutation (stable_sort leb l) l.
Proof.
  induction l as [|x l IH]; simpl; [constructor|].
  eapply Permutation_trans; [apply insert_sorted_perm|].
  apply perm_skip. exact IH.
Qed.

Lemma stable_sort_In : forall l x, In x (stable_sort leb l) <-> In x l.
Proof.
  intros l x. split; apply Permutation_in;
    [apply stable_sort_perm | apply Permutation_sym, stable_sort_perm].
Qed.

Lemma stable_sort_length : forall l, length (stable_sort leb l) = length l.
Proof. intro l. apply Permutation_length, stable_sort_perm. Qed.

Hypothesis leb_total : forall x y, leb x y = false -> leb y x = true.
Hypothesis leb_trans : forall x y z, leb x y = true -> leb y z = true -> leb x z = true.

Lemma insert_sorted_sorted : forall x l,
  StronglySorted (fun a b => leb a b = true) l ->
  StronglySorted (fun a b => leb a b = true) (insert_sorted leb x l).
Proof.
  intros x. induction l as [|y l IH]; intro H; simpl.
  - constructor; constructor.
  - inversion H as [|? ? Hs Hf]; subst. destruct (leb x y) eqn:E.
    + constructor; [exact H|]. constructor; [exact E|].
      eapply Forall_impl; [|exact Hf]. intros z Hz. eapply leb_trans; eassumption.
    + constructor; [apply IH; exact Hs|].
      apply Forall_forall. intros z Hz.
      apply (Permutation_in _ (insert_sorted_perm x l)) in Hz.
      destruct Hz as [Hz|Hz].
      * subst z. apply leb_total. exact E.
      * rewrite Forall_forall in Hf. apply Hf. exact Hz.
Qed.

Lemma stable_sort_sorted : forall l,
  StronglySorted (fun a b => leb a b = true) (stable_sort leb l).
Proof.
  induction l as [|x l IH]; simpl; [constructor|].
  apply insert_sorted_sorted. exact IH.
Qed.
End SortFacts.

Lemma StronglySorted_nth : forall (A : Type) (R : A -> A -> Prop) l,
  StronglySorted R l ->
  forall i j a b, i < j -> nth_error l i = Some a -> nth_error l j = Some b -> R a b.
Proof.
  intros A R l H. induction H as [|x l Hs IH Hf]; intros i j a b Hij Ha Hb.
  - destruct i; discriminate.
  - destruct j as [|j]; [lia|]. simpl in Hb. destruct i as [|i].
    + simpl in Ha. inversion Ha; subst. rewrite Forall_forall in Hf.
      apply Hf. eapply nth_error_In. exact Hb.
    + simpl in Ha. apply (IH i j); [lia | assumption | assumption].
Qed.

(** ** C7 *)

Lemma content_group_add : forall a k v m,
  content a (group_add Nat.eqb k v m)
  = content a m ++ (if a =? k then [v] else []).
Proof.
  intros a k v. unfold content. induction m as [|[k' vs] m IH]; simpl.
  - destruct (a =? k); reflexivity.
  - destruct (k =? k') eqn:K; simpl.
    + apply Nat.eqb_eq in K. subst k'. destruct (a =? k); [reflexivity|].
      rewrite app_nil_r. reflexivity.
    + destruct (a =? k') eqn:A'.
      * apply Nat.eqb_eq in A'. subst k'. rewrite Nat.eqb_sym, K, app_nil_r.
        reflexivity.
      * exact IH.
Qed.

Lemma cluster_sizes_content : forall labels candidates m sizes,
  cluster_sizes labels candidates m = Some sizes ->
  forall a, content a sizes = content a m ++ member_sizes labels candidates a.
Proof.
  induction labels as [|label ls IH]; intros cands m sizes H a.
  - simpl in H. inversion H. unfold member_sizes. simpl. rewrite app_nil_r.
    reflexivity.
  - simpl in H. destruct cands as [|c cs]; [discriminate|].
    rewrite (IH _ _ _ H a), content_group_add, <- app_assoc. f_equal.
    unfold member_sizes. simpl. rewrite (Nat.eqb_sym label a).
    destruct (a =? label); reflexivity.
Qed.

Lemma lookup_level_map_from : forall clusters i a la,
  lookup Nat.eqb a (level_map_from i clusters) = Some la ->
  exists k, nth_error clusters k = Some a /\ la = Nat.min (i + k + 1) 3.
Proof.
  induction clusters as [|c cl IH]; intros i a la H; [discriminate|].
  simpl in H. destruct (a =? c) eqn:E.
  - apply Nat.eqb_eq in E. subst c. inversion H. exists 0. split; [reflexivity|].
    f_equal. lia.
  - apply IH in H. destruct H as [k [Hk Hl]]. exists (S k). split; [exact Hk|].
    rewrite Hl. f_equal. lia.
Qed.

Lemma levels_of_In : forall labels lm candidates leveled c lv,
  levels_of labels lm candidates = Some leveled -> In (c, lv) leveled ->
  In c candidates /\ exists label, lookup Nat.eqb label lm = Some lv.
Proof.
  intros labels lm candidates. revert labels.
  induction candidates as [|c0 cs IH]; intros labels leveled c lv H Hin.
  - destruct labels; simpl in H; inversion H; subst; contradiction.
  - destruct labels as [|label ls]; simpl in H; [discriminate|].
    destruct (lookup Nat.eqb label lm) as [lv0|] eqn:L; [|discriminate].
    destruct (levels_of ls lm cs) as [r|] eqn:R; [|discriminate].
    inversion H; subst. destruct Hin as [Hin|Hin].
    + inversion Hin; subst. split; [left; reflexivity | exists label; exact L].
    + destruct (IH _ _ _ _ R Hin) as [H1 H2]. split; [right|]; assumption.
Qed.

(** C7.  Whatever labels the clustering gives to two or more candidates,
    the levels follow the mean font size of the clusters: a cluster with
    a smaller level number (H1 before H2 before H3) has a mean at least
    that of a cluster with a larger one; every level is H1, H2 or H3, for
    any number of clusters, and so is every level [assign_levels] hands
    out. *)
Theorem levels_follow_mean_font_size :
  forall labels candidates sizes,
    cluster_sizes labels candidates [] = Some sizes ->
    (forall a b la lb,
        lookup Nat.eqb a (level_map sizes) = Some la ->
        lookup Nat.eqb b (level_map sizes) = Some lb ->
        1 <= la <= 3
        /\ (la < lb ->
            (np_mean (member_sizes labels candidates b)
             <= np_mean (member_sizes labels candidates a))%Q))
    /\ (forall fit_predict cands leveled c lv,
           assign_levels fit_predict cands = Some leveled ->
           In (c, lv) leveled -> 1 <= lv <= 3).
Proof.
  intros labels candidates sizes Hs. split.
  - intros a b la lb Ha Hb.
    unfold level_map in Ha, Hb.
    apply lookup_level_map_from in Ha. destruct Ha as [ka [Hka Hla]].
    apply lookup_level_map_from in Hb. destruct Hb as [kb [Hkb Hlb]].
    split; [lia|]. intro Hlt.
    assert (Hk : ka < kb) by lia.
    set (geb := fun a b => negb (Qltb (cluster_mean sizes a) (cluster_mean sizes b))).
    assert (Tot : forall x y, geb x y = false -> geb y x = true).
    { intros x y E. apply negb_false_iff, Qltb_lt in E.
      apply negb_true_iff, Qltb_ge. apply Qlt_le_weak. exact E. }
    assert (Tr : forall x y z, geb x y = true -> geb y z = true -> geb x z = true).
    { intros x y z E1 E2. apply negb_true_iff, Qltb_ge in E1.
      apply negb_true_iff, Qltb_ge in E2. apply negb_true_iff, Qltb_ge.
      eapply Qle_trans; eassumption. }
    pose proof (@stable_sort_sorted nat geb Tot Tr (map fst sizes)) as S.
    assert (R : geb a b = true).
    { eapply (StronglySorted_nth S Hk); eassumption. }
    unfold geb in R.
    apply negb_true_iff, Qltb_ge in R.
    unfold cluster_mean in R. fold (content a sizes) in R. fold (content b sizes) in R.
    rewrite !(cluster_sizes_content _ _ _ Hs) in R. exact R.
  - intros fp cands leveled c lv H Hin. unfold assign_levels in H.
    destruct (2 <=? length cands).
    + destruct (fp (map features cands) (n_clusters cands)) as [lbs|]; [|discriminate].
      destruct (cluster_sizes lbs cands []) as [sz|]; [|discriminate].
      destruct (@levels_of_In _ _ _ _ _ _ H Hin) as [_ [label L]].
      unfold level_map in L. apply lookup_level_map_from in L.
      destruct L as [k [_ L]]. lia.
    + inversion H; subst. apply in_map_iff in Hin.
      destruct Hin as [x [E _]]. inversion E. lia.
Qed.

Lemma levels_follow_mean_font_size_witness :
  let cand := fun z => mk_candidate (mk_line (T "Scope") z true (mk_bbox 72 100 200 120) 0 [])
                                    4 0 (Fin z) in
  let cands := [cand 12%Q; cand 18%Q; cand 16%Q] in
  1 <= 1 <= 3
  /\ (np_mean (member_sizes [0%nat; 1%nat; 1%nat] cands 0%nat)
      <= np_mean (member_sizes [0%nat; 1%nat; 1%nat] cands 1%nat))%Q.
Proof.
  intros cand cands.
  assert (Hs : cluster_sizes [0; 1; 1] cands [] = Some [(0, [12%Q]); (1, [18%Q; 16%Q])])
    by reflexivity.
  assert (Ha : lookup Nat.eqb 1 (level_map [(0, [12%Q]); (1, [18%Q; 16%Q])]) = Some 1)
    by (vm_compute; reflexivity).
  assert (Hb : lookup Nat.eqb 0 (level_map [(0, [12%Q]); (1, [18%Q; 16%Q])]) = Some 2)
    by (vm_compute; reflexivity).
  destruct (proj1 (@levels_follow_mean_font_size [0; 1; 1] cands _ Hs) 1 0 1 2 Ha Hb)
    as [H1 H2].
  split; [exact H1 | apply H2; lia].
Defined.

(** ** C6 *)

Lemma find_seq_first : forall (f : nat -> bool) n a i,
  find f (List.seq a n) = Some i ->
  f i = true /\ a <= i < a + n /\ forall k, a <= k < i -> f k = false.
Proof.
  intros f. induction n as [|n IH]; intros a i H; [discriminate|].
  simpl in H. destruct (f a) eqn:E.
  - inversion H; subst. repeat split; try lia. exact E.
  - apply IH in H. destruct H as [H1 [H2 H3]]. repeat split; try lia; [exact H1|].
    intros k Hk. destruct (Nat.eq_dec k a) as [->|N]; [exact E|].
    apply H3. lia.
Qed.

Lemma find_seq_none : forall (f : nat -> bool) n a,
  find f (List.seq a n) = None -> forall k, a <= k < a + n -> f k = false.
Proof.
  intros f n a H k Hk. apply (find_none _ _ H). apply in_seq. exact Hk.
Qed.

Lemma run_at_true : forall numbers i,
  run_at numbers i = true <->
  exists n, nth_error numbers i = Some n
            /\ nth_error numbers (i + 1) = Some (n + 1)%Z
            /\ nth_error numbers (i + 2) = Some (n + 2)%Z.
Proof.
  intros numbers i. unfold run_at. split.
  - destruct (nth_error numbers i) as [a|]; [|discriminate].
    destruct (nth_error numbers (i + 1)) as [b|]; [|discriminate].
    destruct (nth_error numbers (i + 2)) as [c|]; [|discriminate].
    intro H. apply andb_true_iff in H. destruct H as [H1 H2].
    apply Z.eqb_eq in H1. apply Z.eqb_eq in H2. subst. exists a. auto.
  - intros [n [H1 [H2 H3]]]. rewrite H1, H2, H3, !Z.eqb_refl. reflexivity.
Qed.

Lemma firstn3_skipn : forall (A : Type) (l : list A) i a b c,
  nth_error l i = Some a -> nth_error l (i + 1) = Some b ->
  nth_error l (i + 2) = Some c ->
  firstn 3 (skipn i l) = [a; b; c].
Proof.
  intros A l. induction l as [|x l IH]; intros i a b c Ha Hb Hc.
  - destruct i; discriminate.
  - destruct i as [|i].
    + simpl in *. inversion Ha; subst.
      destruct l as [|y l]; [discriminate|]. simpl in Hb. inversion Hb; subst.
      destruct l as [|z l]; [discriminate|]. simpl in Hc. inversion Hc; subst.
      reflexivity.
    + simpl. apply IH; assumption.
Qed.

Lemma fold_left_adds : forall (S A : Type) (f : S -> A -> S) (P : S -> Prop) g,
  (forall s a, P s -> P (f s a)) -> (forall s, P (f s g)) ->
  forall l s, In g l -> P (fold_left f l s).
Proof.
  intros S A f P g Hk Hg. induction l as [|a l IH]; intros s Hin; [contradiction|].
  simpl. destruct Hin as [E|Hin].
  - subst a. apply fold_left_keeps; [exact Hk | apply Hg].
  - apply IH. exact Hin.
Qed.

Lemma bucket_rows_reach_result : forall all_lines p lines x x_lines y,
  In (p, lines) (group_by Nat.eqb l_page all_lines) ->
  In (x, x_lines) (group_by Z.eqb x_bucket lines) ->
  In y (bucket_rows x_lines) ->
  yset_mem y (detect_table_rows all_lines).
Proof.
  intros all_lines p lines x x_lines y Hp Hx Hy. unfold detect_table_rows.
  apply fold_left_adds with (P := yset_mem y) (g := (p, lines)); [| |exact Hp].
  - intros s g Hs. unfold page_rows.
    apply fold_left_keeps with (P := yset_mem y); [|exact Hs].
    intros s0 g0 Hs0. apply fold_left_keeps with (P := yset_mem y); [|exact Hs0].
    intros s1 z Hs1. apply yset_add_keeps. exact Hs1.
  - intro s. unfold page_rows. simpl snd.
    apply fold_left_adds with (P := yset_mem y) (g := (x, x_lines)); [| |exact Hx].
    + intros s0 g0 Hs0. apply fold_left_keeps with (P := yset_mem y); [|exact Hs0].
      intros s1 z Hs1. apply yset_add_keeps. exact Hs1.
    + intro s0. simpl snd.
      apply fold_left_adds with (P := yset_mem y) (g := y); [| |exact Hy].
      * intros s1 z Hs1. apply yset_add_keeps. exact Hs1.
      * intro s1. apply yset_add_adds.
Qed.

(** C6, as amended.  In an X-bucket of at least three lines, three
    Y-coordinates are added exactly when three consecutive entries of the
    list of the bucket's integer lines (the Y-sorted lines whose text is
    digits with an optional period; lines between them that are not
    integers are passed over) are n, n+1, n+2: the Ys added are those of
    the first such run, and nothing is added otherwise.  What a bucket of
    a page adds is in the set [detect_table_rows] returns. *)
Theorem bucket_rows_first_run : forall x_lines,
  3 <= length x_lines ->
  let numbers := bucket_numbers x_lines in
  let ys := bucket_ys x_lines in
  (consecutive_numbers numbers ->
   exists i y1 y2 y3,
     run_at numbers i = true
     /\ (forall k, k < i -> run_at numbers k = false)
     /\ nth_error ys i = Some y1 /\ nth_error ys (i + 1) = Some y2
     /\ nth_error ys (i + 2) = Some y3
     /\ bucket_rows x_lines = [y1; y2; y3])
  /\ (~ consecutive_numbers numbers -> bucket_rows x_lines = [])
  /\ (forall all_lines p lines x y,
         In (p, lines) (group_by Nat.eqb l_page all_lines) ->
         In (x, x_lines) (group_by Z.eqb x_bucket lines) ->
         In y (bucket_rows x_lines) ->
         yset_mem y (detect_table_rows all_lines)).
Proof.
  intros x_lines Hlen numbers ys.
  assert (Hl : length ys = length numbers).
  { unfold ys, numbers, bucket_ys, bucket_numbers. rewrite !length_map. reflexivity. }
  assert (Hb : bucket_rows x_lines
               = if 3 <=? length numbers then
                   match find (run_at numbers) (List.seq 0 (length numbers - 2)) with
                   | Some i => firstn (Nat.min (i + 3) (length ys) - i) (skipn i ys)
                   | None => []
                   end
                 else []).
  { unfold bucket_rows. apply Nat.ltb_ge in Hlen. rewrite Hlen. reflexivity. }
  split; [|split].
  - intros [i0 [n0 Hrun]].
    assert (R0 : run_at numbers i0 = true) by (apply run_at_true; exists n0; exact Hrun).
    assert (B0 : i0 + 2 < length numbers).
    { apply nth_error_Some. destruct Hrun as [_ [_ H]]. rewrite H. discriminate. }
    rewrite Hb. replace (3 <=? length numbers) with true
      by (symmetry; apply Nat.leb_le; lia).
    destruct (find (run_at numbers) (List.seq 0 (length numbers - 2))) as [i|] eqn:F.
    + apply find_seq_first in F. destruct F as [Ri [Bi Hmin]].
      assert (Y : forall k, k < length ys -> exists y, nth_error ys k = Some y).
      { intros k Hk. destruct (nth_error ys k) eqn:E; [eexists; reflexivity|].
        apply nth_error_None in E. lia. }
      destruct (Y i) as [y1 E1]; [lia|].
      destruct (Y (i + 1)) as [y2 E2]; [lia|].
      destruct (Y (i + 2)) as [y3 E3]; [lia|].
      exists i, y1, y2, y3. repeat split; try assumption.
      * intros k Hk. apply Hmin. lia.
      * replace (Nat.min (i + 3) (length ys) - i) with 3 by lia.
        eapply firstn3_skipn; eassumption.
    + exfalso. pose proof (@find_seq_none _ _ _ F i0) as N.
      rewrite N in R0; [discriminate | lia].
  - intro Hno. rewrite Hb. destruct (3 <=? length numbers); [|reflexivity].
    destruct (find (run_at numbers) (List.seq 0 (length numbers - 2))) as [i|] eqn:F;
      [|reflexivity].
    exfalso. apply Hno. apply find_seq_first in F. destruct F as [Ri _].
    apply run_at_true in Ri. destruct Ri as [n Hn]. exists i, n. exact Hn.
  - intros all_lines p lines x y. apply bucket_rows_reach_result.
Qed.

Lemma bucket_rows_first_run_witness :
  let bl := fun t y => mk_line (T t) 10 false (mk_bbox 72 y 90 (y + 10)) 0 [] in
  let b := [bl "1"%string 100%Q; bl "Item"%string 110%Q; bl "2"%string 120%Q;
            bl "3"%string 130%Q] in
  3 <= length b
  /\ exists i y1 y2 y3,
      run_at (bucket_numbers b) i = true
      /\ (forall k, k < i -> run_at (bucket_numbers b) k = false)
      /\ nth_error (bucket_ys b) i = Some y1
      /\ nth_error (bucket_ys b) (i + 1) = Some y2
      /\ nth_error (bucket_ys b) (i + 2) = Some y3
      /\ bucket_rows b = [y1; y2; y3].
Proof.
  intros bl b.
  assert (L : 3 <= length b) by (simpl; lia).
  split; [exact L|].
  apply (proj1 (@bucket_rows_first_run b L)).
  exists 0, 1%Z. vm_compute. auto.
Defined.

(** C6, as the claim words it, fails: the lines "1", "Item", "2", "3" of
    one bucket add three Y-coordinates although no three consecutive
    lines of the bucket are integers. *)
Lemma bucket_rows_pass_over_other_lines :
  let bl := fun t y => mk_line (T t) 10 false (mk_bbox 72 y 90 (y + 10)) 0 [] in
  let b := [bl "1"%string 100%Q; bl "Item"%string 110%Q; bl "2"%string 120%Q;
            bl "3"%string 130%Q] in
  3 <= length b
  /\ bucket_sorted b = b
  /\ bucket_rows b = [100%Q; 120%Q; 130%Q]
  /\ ~ consecutive_int_lines (bucket_sorted b).
Proof.
  intros bl b.
  assert (Hs : bucket_sorted b = b) by (vm_compute; reflexivity).
  split; [simpl; lia|]. split; [exact Hs|]. split; [vm_compute; reflexivity|].
  rewrite Hs. intros [i [x [y [z [n [H1 [H2 [H3 [H4 [H5 H6]]]]]]]]]].
  unfold b, bl in *. destruct i as [|i].
  - simpl in H2. injection H2 as <-. vm_compute in H5. discriminate.
  - destruct i as [|i].
    + simpl in H1. injection H1 as <-. vm_compute in H4. discriminate.
    + replace (S (S i) + 2) with (S (S (S (S i)))) in H3 by lia.
      simpl in H3. destruct i; discriminate.
Qed.

(** ** C2 *)

Lemma code_inj : forall x y, code x = code y -> x = y.
Proof.
  intros x y H. unfold code in H.
  rewrite <- (ascii_nat_embedding x), <- (ascii_nat_embedding y), H. reflexivity.
Qed.

Lemma text_ltb_irrefl : forall a, text_ltb a a = false.
Proof.
  induction a as [|x a IH]; simpl; [reflexivity|].
  rewrite Nat.ltb_irrefl. exact IH.
Qed.

Lemma text_ltb_asym : forall a b, text_ltb a b = true -> text_ltb b a = false.
Proof.
  induction a as [|x a IH]; destruct b as [|y b]; simpl; intro H;
    try reflexivity; try discriminate.
  destruct (code x <? code y) eqn:E1; destruct (code y <? code x) eqn:E2;
    try reflexivity; try discriminate.
  - apply Nat.ltb_lt in E1. apply Nat.ltb_lt in E2. lia.
  - apply IH. exact H.
Qed.

Lemma text_ltb_total : forall a b,
  text_ltb a b = false -> text_ltb b a = false -> a = b.
Proof.
  induction a as [|x a IH]; destruct b as [|y b]; simpl; intros H1 H2;
    try reflexivity; try discriminate.
  destruct (code x <? code y) eqn:E1; [discriminate|].
  destruct (code y <? code x) eqn:E2; [discriminate|].
  apply Nat.ltb_ge in E1. apply Nat.ltb_ge in E2.
  assert (E : x = y) by (apply code_inj; lia).
  subst y. f_equal. apply IH; assumption.
Qed.

Lemma text_ltb_trans : forall a b c,
  text_ltb a b = true -> text_ltb b c = true -> text_ltb a c = true.
Proof.
  induction a as [|x a IH]; destruct b as [|y b]; destruct c as [|z c]; simpl;
    intros H1 H2; try reflexivity; try discriminate.
  destruct (code x <? code y) eqn:E1; destruct (code y <? code z) eqn:E2;
    destruct (code y <? code x) eqn:E3; destruct (code z <? code y) eqn:E4;
    try discriminate;
    repeat match goal with
           | H : (_ <? _) = true |- _ => apply Nat.ltb_lt in H
           | H : (_ <? _) = false |- _ => apply Nat.ltb_ge in H
           end;
    try lia.
  - replace (code x <? code z) with true by (symmetry; apply Nat.ltb_lt; lia).
    reflexivity.
  - replace (code x <? code z) with true by (symmetry; apply Nat.ltb_lt; lia).
    reflexivity.
  - replace (code x <? code z) with true by (symmetry; apply Nat.ltb_lt; lia).
    reflexivity.
  - replace (code x <? code z) with false by (symmetry; apply Nat.ltb_ge; lia).
    replace (code z <? code x) with false by (symmetry; apply Nat.ltb_ge; lia).
    eapply IH; eassumption.
Qed.

(** [scored_geb x y]: [x] is not below [y] in the order of the tuples. *)
Lemma scored_geb_spec : forall sx tx zx sy ty zy,
  scored_geb (sx, tx, zx) (sy, ty, zy) = true <->
  (sy < sx)%Z
  \/ (sx = sy
      /\ (text_ltb ty tx = true \/ (tx = ty /\ (zy <= zx)%Q))).
Proof.
  intros sx tx zx sy ty zy. unfold scored_geb, scored_ltb.
  rewrite negb_true_iff, orb_false_iff, andb_false_iff, orb_false_iff,
    andb_false_iff.
  rewrite Z.ltb_ge, Z.eqb_neq, Qltb_ge, text_eqb_neq. split.
  - intros [L [N|[H1 H2]]]; [left; lia|].
    destruct (Z.eq_dec sx sy) as [E|E]; [|left; lia]. right. split; [exact E|].
    destruct (text_ltb ty tx) eqn:G; [left; reflexivity|]. right.
    assert (tx = ty) by (apply text_ltb_total; assumption).
    subst ty. split; [reflexivity|]. destruct H2 as [H2|H2]; [contradiction|exact H2].
  - intros [L|[E [G|[E2 Z0]]]].
    + split; [lia | left; lia].
    + subst sy. split; [lia|]. right. split.
      * apply text_ltb_asym. exact G.
      * left. intro X. subst ty. rewrite text_ltb_irrefl in G. discriminate.
    + subst sy ty. split; [lia|]. right. split; [apply text_ltb_irrefl|].
      right. exact Z0.
Qed.

Lemma scored_geb_total : forall x y, scored_geb x y = false -> scored_geb y x = true.
Proof.
  intros [[sx tx] zx] [[sy ty] zy] H.
  destruct (scored_geb (sy, ty, zy) (sx, tx, zx)) eqn:G; [reflexivity|].
  exfalso.
  assert (A : ~ ((sy < sx)%Z \/ (sx = sy /\ (text_ltb ty tx = true
                                            \/ (tx = ty /\ (zy <= zx)%Q)))))
    by (rewrite <- scored_geb_spec; congruence).
  assert (B : ~ ((sx < sy)%Z \/ (sy = sx /\ (text_ltb tx ty = true
                                            \/ (ty = tx /\ (zx <= zy)%Q)))))
    by (rewrite <- scored_geb_spec; congruence).
  destruct (Z.lt_trichotomy sx sy) as [L|[E|L]]; [tauto | | tauto].
  destruct (text_ltb ty tx) eqn:T1; [tauto|].
  destruct (text_ltb tx ty) eqn:T2; [apply B; right; split; [lia | tauto]|].
  assert (tx = ty) by (apply text_ltb_total; assumption).
  destruct (Qlt_le_dec zx zy) as [Q1|Q1].
  - apply B. right. split; [lia|]. right. split; [congruence|].
    apply Qlt_le_weak. exact Q1.
  - apply A. right. tauto.
Qed.

Lemma scored_geb_trans : forall x y z,
  scored_geb x y = true -> scored_geb y z = true -> scored_geb x z = true.
Proof.
  intros [[sx tx] zx] [[sy ty] zy] [[sz tz] zz] H1 H2.
  apply scored_geb_spec in H1. apply scored_geb_spec in H2. apply scored_geb_spec.
  destruct H1 as [L1|[E1 H1]]; destruct H2 as [L2|[E2 H2]];
    try (left; lia).
  right. split; [lia|].
  destruct H1 as [G1|[X1 Q1]]; destruct H2 as [G2|[X2 Q2]].
  - left. eapply text_ltb_trans; eassumption.
  - subst tz. left. exact G1.
  - subst ty. left. exact G2.
  - right. split; [congruence|]. eapply Qle_trans; eassumption.
Qed.

Lemma traverse_In : forall (A B : Type) (f : A -> option B) l r y,
  traverse f l = Some r -> In y r -> exists x, In x l /\ f x = Some y.
Proof.
  intros A B f. induction l as [|a l IH]; intros r y H Hy.
  - simpl in H. inversion H; subst. contradiction.
  - simpl in H. destruct (f a) as [b|] eqn:E; [|discriminate].
    destruct (traverse f l) as [bs|] eqn:R; [|discriminate].
    inversion H; subst. destruct Hy as [Hy|Hy].
    + subst. exists a. split; [left; reflexivity | exact E].
    + destruct (IH _ _ eq_refl Hy) as [x [Hx Fx]]. exists x. split; [right|]; assumption.
Qed.

Lemma traverse_length : forall (A B : Type) (f : A -> option B) l r,
  traverse f l = Some r -> length r = length l.
Proof.
  intros A B f. induction l as [|a l IH]; intros r H.
  - simpl in H. inversion H. reflexivity.
  - simpl in H. destruct (f a); [|discriminate].
    destruct (traverse f l) as [bs|]; [|discriminate].
    inversion H. simpl. f_equal. apply IH. reflexivity.
Qed.

(** The first element of a sorted list is above every element. *)
Lemma sorted_head_max : forall (A : Type) (leb : A -> A -> bool),
  (forall x, leb x x = true) ->
  (forall x y, leb x y = false -> leb y x = true) ->
  (forall x y z, leb x y = true -> leb y z = true -> leb x z = true) ->
  forall l h r, stable_sort leb l = h :: r -> forall y, In y l -> leb h y = true.
Proof.
  intros A leb Hr Ht Htr l h r E y Hy.
  pose proof (stable_sort_sorted leb Ht Htr l) as S. rewrite E in S.
  apply (stable_sort_In leb) in Hy. rewrite E in Hy.
  inversion S as [|? ? _ F]; subst. destruct Hy as [Hy|Hy].
  - subst. apply Hr.
  - rewrite Forall_forall in F. apply F. exact Hy.
Qed.

Lemma scored_geb_refl : forall x, scored_geb x x = true.
Proof.
  intros [[s t] z]. apply scored_geb_spec. right. split; [reflexivity|].
  right. split; [reflexivity | apply Qle_refl].
Qed.

(** C2, as amended.  When two or more title candidates survive the size
    test, the title is the text of a scored candidate that no other one
    beats: every other candidate has a lower score, or the same score and
    a normalised text that is not greater in the order of strings.  So
    among candidates of equal top score the greatest text wins, wherever
    it stood on the page. *)
Theorem title_tie_broken_by_text :
  forall first_page median_size page_height e1 e2 rest scored_candidates,
    largest_candidates (title_candidates first_page page_height)
    = e1 :: e2 :: rest ->
    traverse (title_score median_size (sixty_percent page_height))
             (e1 :: e2 :: rest) = Some scored_candidates ->
    exists s t z,
      In (s, t, z) scored_candidates
      /\ extract_title first_page median_size page_height
         = Some (capitalize_first_letter t)
      /\ forall s' t' z',
          In (s', t', z') scored_candidates ->
          (s' < s)%Z \/ (s' = s /\ text_ltb t t' = false).
Proof.
  intros fpe m ph e1 e2 rest sc HL HT.
  assert (Hlen : length sc = length (e1 :: e2 :: rest))
    by (eapply traverse_length; exact HT).
  destruct (stable_sort scored_geb sc) as [|[[s t] z] r] eqn:E.
  { apply (f_equal (@length scored)) in E. rewrite stable_sort_length in E.
    rewrite Hlen in E. discriminate. }
  exists s, t, z. split; [|split].
  - apply (stable_sort_In scored_geb). rewrite E. left. reflexivity.
  - unfold extract_title.
    destruct fpe as [|f0 fpe']; [discriminate|].
    destruct (top_section_elements (f0 :: fpe') ph) as [|t0 top] eqn:Etop.
    { unfold title_candidates in HL. rewrite Etop in HL. discriminate. }
    destruct (title_candidates (f0 :: fpe') ph) as [|c0 cs] eqn:Ec; [discriminate|].
    rewrite HL. unfold best_scored. rewrite HT, E. reflexivity.
  - intros s' t' z' Hin.
    assert (G : scored_geb (s, t, z) (s', t', z') = true).
    { eapply sorted_head_max; [apply scored_geb_refl | apply scored_geb_total
                               | apply scored_geb_trans | exact E | exact Hin]. }
    apply scored_geb_spec in G. destruct G as [L|[Es [G|[Et _]]]].
    + left. exact L.
    + right. split; [congruence | apply text_ltb_asym; exact G].
    + right. subst t'. split; [congruence | apply text_ltb_irrefl].
Qed.

Lemma title_tie_broken_by_text_witness :
  let ln := fun t y => mk_line (T t) 20 false (mk_bbox 200 y 400 (y + 20)) 0 [] in
  let page := [ln "Alpha"%string 100%Q; ln "Beta"%string 130%Q] in
  exists s t z,
    In (s, t, z) [(18%Z, T "Alpha", 20%Q); (18%Z, T "Beta", 20%Q)]
    /\ extract_title page 12 792 = Some (capitalize_first_letter t)
    /\ forall s' t' z',
        In (s', t', z') [(18%Z, T "Alpha", 20%Q); (18%Z, T "Beta", 20%Q)] ->
        (s' < s)%Z \/ (s' = s /\ text_ltb t t' = false).
Proof.
  intros ln page.
  apply (@title_tie_broken_by_text page 12 792
           (ln "Alpha"%string 100%Q) (ln "Beta"%string 130%Q) []).
  - vm_compute. reflexivity.
  - vm_compute. reflexivity.
Defined.

(** C2, as the claim words it, fails: "Alpha" stands before "Beta" on the
    first page, both survive with the score 18, and the title is "Beta". *)
Lemma title_tie_not_first_encountered :
  let ln := fun t y => mk_line (T t) 20 false (mk_bbox 200 y 400 (y + 20)) 0 [] in
  let page := [ln "Alpha"%string 100%Q; ln "Beta"%string 130%Q] in
  largest_candidates (title_candidates page 792) = page
  /\ traverse (title_score 12 (sixty_percent 792)) page
     = Some [(18%Z, T "Alpha", 20%Q); (18%Z, T "Beta", 20%Q)]
  /\ extract_title page 12 792 = Some (T "Beta").
Proof.
  intros ln page. repeat split; vm_compute; reflexivity.
Qed.

(** ** C1 *)

Lemma Qeq_bool_false : forall a b, Qeq_bool a b = false <-> ~ (a == b)%Q.
Proof.
  intros a b. split.
  - intros H E. apply Qeq_bool_iff in E. congruence.
  - intro H. destruct (Qeq_bool a b) eqn:E; [|reflexivity].
    apply Qeq_bool_iff in E. contradiction.
Qed.

Lemma pos_leb_spec : forall a b,
  pos_leb a b = true <->
  c_page a < c_page b
  \/ (c_page a = c_page b
      /\ ((by0 (c_bbox a) < by0 (c_bbox b))%Q
          \/ ((by0 (c_bbox a) == by0 (c_bbox b))%Q
              /\ (bx0 (c_bbox a) <= bx0 (c_bbox b))%Q))).
Proof.
  intros a b. unfold pos_leb, pos_ltb.
  rewrite negb_true_iff, orb_false_iff, andb_false_iff, orb_false_iff,
    andb_false_iff.
  rewrite Nat.ltb_ge, Nat.eqb_neq, !Qltb_ge, Qeq_bool_false.
  set (ya := by0 (c_bbox a)). set (yb := by0 (c_bbox b)).
  set (xa := bx0 (c_bbox a)). set (xb := bx0 (c_bbox b)).
  split.
  - intros [L [N|[Y X]]].
    + left. lia.
    + destruct (Nat.eq_dec (c_page a) (c_page b)) as [E|E]; [|left; lia].
      right. split; [exact E|].
      destruct (Qlt_le_dec ya yb) as [Q1|Q1]; [left; exact Q1|].
      right. split; [lra|]. destruct X as [X|X]; [|exact X].
      exfalso. apply X. lra.
  - intros [L|[E [Y|[Y X]]]].
    + split; [lia | left; lia].
    + split; [lia|]. right. split; [lra | left; lra].
    + split; [lia|]. right. split; [lra | right; exact X].
Qed.

Lemma pos_leb_total : forall a b, pos_leb a b = false -> pos_leb b a = true.
Proof.
  intros a b H. apply pos_leb_spec.
  assert (N : ~ (c_page a < c_page b
                 \/ (c_page a = c_page b
                     /\ ((by0 (c_bbox a) < by0 (c_bbox b))%Q
                         \/ ((by0 (c_bbox a) == by0 (c_bbox b))%Q
                             /\ (bx0 (c_bbox a) <= bx0 (c_bbox b))%Q)))))
    by (rewrite <- pos_leb_spec; congruence).
  destruct (Nat.lt_trichotomy (c_page a) (c_page b)) as [L|[E|L]];
    [tauto | | left; exact L].
  right. split; [congruence|].
  destruct (Qlt_le_dec (by0 (c_bbox b)) (by0 (c_bbox a))) as [Q1|Q1];
    [left; exact Q1|].
  destruct (Qlt_le_dec (by0 (c_bbox a)) (by0 (c_bbox b))) as [Q2|Q2];
    [exfalso; apply N; right; tauto|].
  right. split; [lra|].
  destruct (Qlt_le_dec (bx0 (c_bbox a)) (bx0 (c_bbox b))) as [Q3|Q3]; [|exact Q3].
  exfalso. apply N. right. split; [exact E|]. right. split; lra.
Qed.

Lemma pos_leb_trans : forall a b c,
  pos_leb a b = true -> pos_leb b c = true -> pos_leb a c = true.
Proof.
  intros a b c H1 H2. apply pos_leb_spec in H1. apply pos_leb_spec in H2.
  apply pos_leb_spec.
  destruct H1 as [L1|[E1 H1]]; destruct H2 as [L2|[E2 H2]]; try (left; lia).
  right. split; [lia|].
  destruct H1 as [Y1|[Y1 X1]]; destruct H2 as [Y2|[Y2 X2]].
  - left. lra.
  - left. lra.
  - left. lra.
  - right. split; lra.
Qed.

Lemma candidates_sorted_sorted : forall cands,
  StronglySorted pos_le (candidates_sorted cands).
Proof.
  intro cands. unfold candidates_sorted, pos_le.
  apply stable_sort_sorted; [apply pos_leb_total | apply pos_leb_trans].
Qed.

Lemma pos_le_page : forall a b, pos_le a b -> c_page a <= c_page b.
Proof.
  intros a b H. apply pos_leb_spec in H. destruct H as [L|[E _]]; lia.
Qed.

Lemma pos_le_y : forall a b,
  pos_le a b -> c_page a = c_page b ->
  (by0 (c_bbox a) <= by0 (c_bbox b))%Q.
Proof.
  intros a b H E. apply pos_leb_spec in H.
  destruct H as [L|[_ [Y|[Y _]]]]; [lia | lra | lra].
Qed.

Lemma mem_nat_In : forall n l, mem_nat n l = true <-> In n l.
Proof.
  intros n l. unfold mem_nat. rewrite existsb_exists. split.
  - intros [x [Hx E]]. apply Nat.eqb_eq in E. subst. exact Hx.
  - intro H. exists n. split; [exact H | apply Nat.eqb_refl].
Qed.

Lemma mem_nat_not_In : forall n l, mem_nat n l = false <-> ~ In n l.
Proof.
  intros n l. rewrite <- mem_nat_In. destruct (mem_nat n l); split; intro H;
    try reflexivity; try discriminate; try congruence.
Qed.

Lemma scan_neighbors_cons : forall skip current j other rest,
  scan_neighbors skip current j (other :: rest)
  = if mem_nat j skip then scan_neighbors skip current (S j) rest
    else if negb (c_page other =? c_page current) then []
    else if Qle_bool (Qabs (by0 (c_bbox other) - by0 (c_bbox current))) 10 then
      if Qgeb (bx0 (c_bbox other) - bx1 (c_bbox current)) 50
      then j :: scan_neighbors skip current (S j) rest
      else scan_neighbors skip current (S j) rest
    else if Qgtb (by0 (c_bbox other)) (by0 (c_bbox current) + 10) then []
    else scan_neighbors skip current (S j) rest.
Proof. reflexivity. Qed.

(** The inner loop finds exactly the unskipped candidates of [rest]
    that sit beside [current], when the list is sorted. *)
Lemma scan_neighbors_In : forall rest skip current j0,
  StronglySorted pos_le (current :: rest) ->
  forall j,
    In j (scan_neighbors skip current j0 rest) <->
    j0 <= j /\ ~ In j skip
    /\ exists b, nth_error rest (j - j0) = Some b /\ side_by_side current b.
Proof.
  induction rest as [|other rest IH]; intros skip current j0 HS j.
  - simpl. split; [contradiction|]. intros [_ [_ [b [Hb _]]]].
    destruct (j - j0); discriminate.
  - inversion HS as [|? ? HS1 HF]; subst.
    inversion HF as [|? ? Hco HFr]; subst.
    inversion HS1 as [|? ? HS2 HFo]; subst.
    assert (HS' : StronglySorted pos_le (current :: rest)) by (constructor; assumption).
    assert (Later : forall b, j0 <= j -> nth_error (other :: rest) (j - j0) = Some b ->
                              pos_le other b \/ b = other).
    { intros b Hj Hb. destruct (j - j0) as [|k]; simpl in Hb.
      - right. congruence.
      - left. rewrite Forall_forall in HFo. apply HFo.
        eapply nth_error_In. exact Hb. }
    assert (Step : (j0 <= j /\ ~ In j skip
                    /\ exists b, nth_error (other :: rest) (j - j0) = Some b
                                 /\ side_by_side current b)
                   <-> ((j = j0 /\ ~ In j0 skip /\ side_by_side current other)
                        \/ (S j0 <= j /\ ~ In j skip
                            /\ exists b, nth_error rest (j - S j0) = Some b
                                         /\ side_by_side current b))).
    { split.
      - intros [Hj [Hn [b [Hb Hsb]]]].
        destruct (Nat.eq_dec j j0) as [E|E].
        + left. subst j. rewrite Nat.sub_diag in Hb. simpl in Hb.
          inversion Hb; subst. auto.
        + right. split; [lia|]. split; [exact Hn|]. exists b. split; [|exact Hsb].
          replace (j - j0) with (S (j - S j0)) in Hb by lia. exact Hb.
      - intros [[E [Hn Hsb]]|[Hj [Hn [b [Hb Hsb]]]]].
        + subst j. split; [lia|]. split; [exact Hn|]. exists other.
          rewrite Nat.sub_diag. split; [reflexivity | exact Hsb].
        + split; [lia|]. split; [exact Hn|]. exists b. split; [|exact Hsb].
          replace (j - j0) with (S (j - S j0)) by lia. exact Hb. }
    rewrite Step. clear Step. rewrite scan_neighbors_cons.
    destruct (mem_nat j0 skip) eqn:M.
    { rewrite (IH skip current (S j0) HS'). apply mem_nat_In in M.
      split; [intro H; right; exact H|].
      intros [[_ [Hn _]]|H]; [contradiction | exact H]. }
    apply mem_nat_not_In in M.
    destruct (c_page other =? c_page current) eqn:P; cbn [negb].
    2:{ apply Nat.eqb_neq in P. split; [contradiction|].
        pose proof (pos_le_page Hco) as Pco.
        intros [[_ [_ [Hp _]]]|[Hj [_ [b [Hb [Hp _]]]]]]; [congruence|].
        assert (Hob : pos_le other b).
        { rewrite Forall_forall in HFo. apply HFo. eapply nth_error_In. exact Hb. }
        apply pos_le_page in Hob. lia. }
    apply Nat.eqb_eq in P.
    destruct (Qle_bool (Qabs (by0 (c_bbox other) - by0 (c_bbox current))) 10) eqn:Y.
    { apply Qle_bool_iff in Y.
      destruct (Qgeb (bx0 (c_bbox other) - bx1 (c_bbox current)) 50) eqn:G.
      - unfold Qgeb in G. apply Qle_bool_iff in G. cbn [In].
        rewrite (IH skip current (S j0) HS'). split.
        + intros [E|H]; [left | right; exact H].
          subst j. repeat split; assumption.
        + intros [[E _]|H]; [left; congruence | right; exact H].
      - rewrite (IH skip current (S j0) HS'). split; [intro H; right; exact H|].
        intros [[_ [_ [_ [_ Hg]]]]|H]; [|exact H].
        apply Qle_bool_iff in Hg. unfold Qgeb in G. congruence. }
    assert (Yn : ~ (Qabs (by0 (c_bbox other) - by0 (c_bbox current)) <= 10)%Q).
    { intro H. apply Qle_bool_iff in H. congruence. }
    destruct (Qgtb (by0 (c_bbox other)) (by0 (c_bbox current) + 10)) eqn:B.
    { unfold Qgtb in B. apply Qltb_lt in B. split; [contradiction|].
      intros [[_ [_ [_ [Hy _]]]]|[Hj [_ [b [Hb [Hp [Hy _]]]]]]]; [contradiction|].
      assert (Hob : pos_le other b).
      { rewrite Forall_forall in HFo. apply HFo. eapply nth_error_In. exact Hb. }
      apply pos_le_y in Hob; [|congruence].
      apply Qabs_Qle_condition in Hy. lra. }
    rewrite (IH skip current (S j0) HS'). split; [intro H; right; exact H|].
    intros [[_ [_ [_ [Hy _]]]]|H]; [contradiction | exact H].
Qed.

Lemma StronglySorted_app_r : forall (A : Type) (R : A -> A -> Prop) l1 l2,
  StronglySorted R (l1 ++ l2) -> StronglySorted R l2.
Proof.
  intros A R. induction l1 as [|x l1 IH]; intros l2 H; [exact H|].
  simpl in H. inversion H; subst. apply IH. assumption.
Qed.

Lemma nth_error_middle : forall (A : Type) (pre : list A) x rest,
  nth_error (pre ++ x :: rest) (length pre) = Some x.
Proof.
  intros A pre x rest. rewrite nth_error_app2 by lia.
  rewrite Nat.sub_diag. reflexivity.
Qed.

Lemma nth_error_after : forall (A : Type) (pre : list A) x rest j,
  length pre < j ->
  nth_error (pre ++ x :: rest) j = nth_error rest (j - S (length pre)).
Proof.
  intros A pre x rest j H. rewrite nth_error_app2 by lia.
  replace (j - length pre) with (S (j - S (length pre))) by lia. reflexivity.
Qed.

Lemma scan_hneighbor : forall pre current rest skip,
  StronglySorted pos_le (pre ++ current :: rest) ->
  forall j,
    In j (scan_neighbors skip current (S (length pre)) rest) <->
    hneighbor (pre ++ current :: rest) (length pre) j /\ ~ In j skip.
Proof.
  intros pre current rest skip HS j.
  rewrite (@scan_neighbors_In rest skip current (S (length pre))
             (StronglySorted_app_r _ _ HS)).
  unfold hneighbor. split.
  - intros [Hj [Hn [b [Hb Hsb]]]]. split; [|exact Hn]. split; [lia|].
    exists current, b. split; [apply nth_error_middle|].
    split; [|exact Hsb]. rewrite nth_error_after by lia. exact Hb.
  - intros [[Hj [a [b [Ha [Hb Hsb]]]]] Hn]. split; [lia|]. split; [exact Hn|].
    rewrite nth_error_middle in Ha. inversion Ha; subst a.
    exists b. split; [|exact Hsb]. rewrite nth_error_after in Hb by lia. exact Hb.
Qed.

Ltac split_post := split; [|split; [|split; [|split; [|split]]]].

Lemma loop_post_skip : forall cs i skip kept final,
  In i skip -> loop_post cs (S i) skip kept final -> loop_post cs i skip kept final.
Proof.
  intros cs i skip kept final Hi [P1 [P5 [P2 [P3 [P4 P6]]]]].
  assert (Hf : In i final) by (apply P1; exact Hi).
  assert (Hne : forall k, i <= k -> ~ In k final -> S i <= k).
  { intros k Hk Hn. destruct (Nat.eq_dec k i) as [->|N]; [contradiction | lia]. }
  split_post.
  - exact P1.
  - intros j Hj. destruct (P5 j Hj); [left; assumption | right; lia].
  - intros j Hj. destruct (P2 j Hj) as [H|[i' [H1 [H2 H3]]]]; [left; exact H|].
    right. exists i'. split; [lia|]. split; assumption.
  - intros i' j Hle Hn Hh. apply (P3 i' j); try assumption. apply Hne; assumption.
  - intros k c H. destruct (P4 k c H) as [H1 [H2 H3]].
    split; [lia|]. split; assumption.
  - intros k c Hk Hc Hn. rewrite (P6 k c (Hne k Hk Hn) Hc Hn). split.
    + intros Hall j Hh.
      destruct (Hall j Hh) as [Hs|[i' [A [B [C D]]]]]; [left; exact Hs|].
      right. exists i'. split; [lia|]. split; [assumption | split; assumption].
    + intros Hall j Hh.
      destruct (Hall j Hh) as [Hs|[i' [A [B [C D]]]]]; [left; exact Hs|].
      right. exists i'. split; [apply Hne; assumption|]. split; [assumption | split; assumption].
Qed.

Lemma loop_post_keep : forall cs i skip kept final current,
  ~ In i skip -> nth_error cs i = Some current ->
  (forall j, hneighbor cs i j -> In j skip) ->
  loop_post cs (S i) skip kept final ->
  loop_post cs i skip ((i, current) :: kept) final.
Proof.
  intros cs i skip kept final current Hi Hcur Hnb [P1 [P5 [P2 [P3 [P4 P6]]]]].
  assert (Hf : ~ In i final).
  { intro H. destruct (P5 i H); [contradiction | lia]. }
  split_post.
  - exact P1.
  - intros j Hj. destruct (P5 j Hj); [left; assumption | right; lia].
  - intros j Hj. destruct (P2 j Hj) as [H|[i' [H1 [H2 H3]]]]; [left; exact H|].
    right. exists i'. split; [lia|]. split; assumption.
  - intros i' j Hle Hn Hh. destruct (Nat.eq_dec i' i) as [->|N].
    + apply P1. apply Hnb. exact Hh.
    + apply (P3 i' j); try assumption. lia.
  - intros k c H. destruct H as [E|H].
    + inversion E; subst. split; [lia|]. split; assumption.
    + destruct (P4 k c H) as [H1 [H2 H3]]. split; [lia|]. split; assumption.
  - intros k c Hk Hc Hn. destruct (Nat.eq_dec k i) as [->|N].
    + split.
      * intros _ j Hh. left. apply Hnb. exact Hh.
      * intros _. left. rewrite Hcur in Hc. inversion Hc. reflexivity.
    + assert (Hk' : S i <= k) by lia.
      assert (E : In (k, c) ((i, current) :: kept) <-> In (k, c) kept).
      { split; [|intro H; right; exact H].
        intros [X|X]; [inversion X; lia | exact X]. }
      rewrite E, (P6 k c Hk' Hc Hn). split.
      * intros Hall j Hh.
        destruct (Hall j Hh) as [Hs|[i' [A [B [C D]]]]]; [left; exact Hs|].
        right. exists i'. split; [lia|]. split; [assumption | split; assumption].
      * intros Hall j Hh.
        destruct (Hall j Hh) as [Hs|[i' [A [B [C D]]]]]; [left; exact Hs|].
        destruct (Nat.eq_dec i' i) as [->|N'].
        -- left. apply Hnb. exact D.
        -- right. exists i'. split; [lia|]. split; [assumption | split; assumption].
Qed.

Lemma loop_post_drop : forall cs i skip kept final current found,
  ~ In i skip -> nth_error cs i = Some current -> found <> [] ->
  (forall j, In j found <-> hneighbor cs i j /\ ~ In j skip) ->
  loop_post cs (S i) (skip ++ found) kept final ->
  loop_post cs i skip kept final.
Proof.
  intros cs i skip kept final current found Hi Hcur Hne Hfound
         [P1 [P5 [P2 [P3 [P4 P6]]]]].
  assert (Hgt : forall j, In j found -> i < j).
  { intros j Hj. apply Hfound in Hj. destruct Hj as [[H _] _]. exact H. }
  assert (Hf : ~ In i final).
  { intro H. destruct (P5 i H) as [H'|H']; [|lia].
    apply in_app_or in H'. destruct H' as [H'|H']; [contradiction|].
    apply Hgt in H'. lia. }
  assert (Hnb : forall j, hneighbor cs i j -> In j (skip ++ found)).
  { intros j Hh. apply in_or_app.
    destruct (in_dec Nat.eq_dec j skip) as [Y|N]; [left; exact Y|].
    right. apply Hfound. split; assumption. }
  split_post.
  - intros j Hj. apply P1. apply in_or_app. left. exact Hj.
  - intros j Hj. destruct (P5 j Hj) as [H|H]; [|right; lia].
    apply in_app_or in H. destruct H as [H|H]; [left; exact H|].
    right. apply Hgt. exact H.
  - intros j Hj. destruct (P2 j Hj) as [H|[i' [H1 [H2 H3]]]].
    + apply in_app_or in H. destruct H as [H|H]; [left; exact H|].
      right. exists i. split; [lia|]. split; [exact Hf|].
      apply Hfound in H. tauto.
    + right. exists i'. split; [lia|]. split; assumption.
  - intros i' j Hle Hn Hh. destruct (Nat.eq_dec i' i) as [->|N].
    + apply P1. apply Hnb. exact Hh.
    + apply (P3 i' j); try assumption. lia.
  - intros k c H. destruct (P4 k c H) as [H1 [H2 H3]].
    split; [lia|]. split; assumption.
  - intros k c Hk Hc Hn. destruct (Nat.eq_dec k i) as [->|N].
    + split.
      * intro H. destruct (P4 i c H) as [H1 _]. lia.
      * intros Hall. exfalso. destruct found as [|j0 found']; [contradiction|].
        assert (Hj0 : In j0 (j0 :: found')) by (left; reflexivity).
        apply Hfound in Hj0. destruct Hj0 as [Hh Hns].
        destruct (Hall j0 Hh) as [Hs|[i' [A [B _]]]]; [contradiction | lia].
    + assert (Hk' : S i <= k) by lia.
      rewrite (P6 k c Hk' Hc Hn). split.
      * intros Hall j Hh.
        destruct (Hall j Hh) as [Hs|[i' [A [B [C D]]]]].
        -- apply in_app_or in Hs. destruct Hs as [Hs|Hs]; [left; exact Hs|].
           right. exists i. split; [lia|]. split; [lia|]. split; [exact Hf|].
           apply Hfound in Hs. tauto.
        -- right. exists i'. split; [lia|]. split; [assumption | split; assumption].
      * intros Hall j Hh.
        destruct (Hall j Hh) as [Hs|[i' [A [B [C D]]]]].
        -- left. apply in_or_app. left. exact Hs.
        -- destruct (Nat.eq_dec i' i) as [->|N'].
           ++ left. apply Hnb. exact D.
           ++ right. exists i'. split; [lia|]. split; [assumption | split; assumption].
Qed.

Lemma hfilter_loop_cons : forall i current rest skip,
  hfilter_loop i (current :: rest) skip
  = if mem_nat i skip then hfilter_loop (S i) rest skip
    else
      match scan_neighbors skip current (S i) rest with
      | [] =>
          let (kept, sk) := hfilter_loop (S i) rest skip in
          ((i, current) :: kept, sk)
      | j :: js => hfilter_loop (S i) rest (skip ++ j :: js)
      end.
Proof.
  intros i current rest skip. simpl.
  destruct (mem_nat i skip); [reflexivity|].
  destruct (scan_neighbors skip current (S i) rest); reflexivity.
Qed.

Lemma hfilter_loop_post : forall rest pre skip kept final,
  StronglySorted pos_le (pre ++ rest) ->
  hfilter_loop (length pre) rest skip = (kept, final) ->
  loop_post (pre ++ rest) (length pre) skip kept final.
Proof.
  induction rest as [|current rest IH]; intros pre skip kept final HS HL.
  - simpl in HL. inversion HL; subst. rewrite app_nil_r.
    assert (Out : forall k c, length pre <= k -> nth_error pre k = Some c -> False).
    { intros k c Hk Hc. assert (k < length pre); [|lia].
      apply nth_error_Some. rewrite Hc. discriminate. }
    split_post.
    + auto.
    + auto.
    + auto.
    + intros i' j Hle _ [_ [a [b [Ha _]]]]. exfalso. eapply Out; eassumption.
    + intros k c H. contradiction.
    + intros k c Hk Hc _. exfalso. eapply Out; eassumption.
  - assert (IH' : forall skip0 kept0 final0,
               hfilter_loop (S (length pre)) rest skip0 = (kept0, final0) ->
               loop_post (pre ++ current :: rest) (S (length pre)) skip0 kept0 final0).
    { intros skip0 kept0 final0 H0.
      specialize (IH (pre ++ [current]) skip0 kept0 final0).
      rewrite <- app_assoc, length_app, Nat.add_1_r in IH. simpl in IH.
      apply IH; assumption. }
    rewrite hfilter_loop_cons in HL.
    pose proof (nth_error_middle pre current rest) as Hcur.
    pose proof (scan_hneighbor pre current rest skip HS) as Hscan.
    destruct (mem_nat (length pre) skip) eqn:M.
    + apply mem_nat_In in M. apply loop_post_skip; [exact M|].
      apply IH'. exact HL.
    + apply mem_nat_not_In in M.
      destruct (scan_neighbors skip current (S (length pre)) rest) as [|j0 js] eqn:N.
      * destruct (hfilter_loop (S (length pre)) rest skip) as [kept0 final0] eqn:L.
        inversion HL; subst. apply loop_post_keep; try assumption.
        -- intros j Hh. destruct (in_dec Nat.eq_dec j skip) as [Y|No]; [exact Y|].
           exfalso. apply (proj2 (Hscan j)). split; assumption.
        -- apply IH'. exact L.
      * eapply loop_post_drop with (found := j0 :: js); try eassumption.
        -- discriminate.
        -- apply IH'. exact HL.
Qed.

(** C1, as amended.  After sorting, for every candidate the loop reaches
    unskipped: all of its horizontal neighbours (later candidates on the
    same page, Y within 10pt, left edge at least 50pt past its right edge)
    are removed from the output; the candidate itself is kept only if
    every one of those neighbours had already been removed by an earlier
    unskipped candidate (so also when it has none), and is removed along
    with them as soon as one of its neighbours was still there.  The
    candidates skipped are exactly the neighbours of unskipped ones. *)
Theorem horizontal_neighbors_removed_with_current :
  forall candidates kept final,
    2 <= length candidates ->
    hfilter_loop 0 (candidates_sorted candidates) [] = (kept, final) ->
    let cs := candidates_sorted candidates in
    filter_horizontal_table_headers candidates = map snd kept
    /\ (forall j, In j final <-> exists i, ~ In i final /\ hneighbor cs i j)
    /\ forall i current,
        nth_error cs i = Some current -> ~ In i final ->
        (forall j, hneighbor cs i j -> In j final /\ ~ In j (map fst kept))
        /\ (In (i, current) kept <->
            forall j, hneighbor cs i j ->
                      exists i', i' < i /\ ~ In i' final /\ hneighbor cs i' j)
        /\ (forall j, hneighbor cs i j ->
                      (forall i', i' < i -> ~ In i' final -> ~ hneighbor cs i' j) ->
                      ~ In (i, current) kept).
Proof.
  intros candidates kept final Hlen HL cs.
  pose proof (@hfilter_loop_post cs [] [] kept final
                (candidates_sorted_sorted candidates) HL) as P.
  simpl in P. destruct P as [P1 [P5 [P2 [P3 [P4 P6]]]]].
  assert (Hkept : forall j, In j final -> ~ In j (map fst kept)).
  { intros j Hj Hin. apply in_map_iff in Hin. destruct Hin as [[k c] [E Hin]].
    simpl in E. subst k. destruct (P4 j c Hin) as [_ [_ H]]. contradiction. }
  split; [|split].
  - unfold filter_horizontal_table_headers.
    replace (length candidates <? 2) with false
      by (symmetry; apply Nat.ltb_ge; exact Hlen).
    rewrite HL. reflexivity.
  - intro j. split.
    + intro Hj. destruct (P2 j Hj) as [[]|[i [_ [Hn Hh]]]]. exists i. tauto.
    + intros [i [Hn Hh]]. apply (P3 i j); [lia | exact Hn | exact Hh].
  - intros i current Hc Hn.
    assert (Q : In (i, current) kept <->
                forall j, hneighbor cs i j ->
                          exists i', i' < i /\ ~ In i' final /\ hneighbor cs i' j).
    { rewrite (P6 i current (Nat.le_0_l i) Hc Hn). split.
      - intros Hall j Hh. destruct (Hall j Hh) as [[]|[i' [_ H]]]. exists i'. exact H.
      - intros Hall j Hh. destruct (Hall j Hh) as [i' H]. right. exists i'.
        split; [lia | exact H]. }
    split; [|split].
    + intros j Hh. assert (Hj : In j final) by (apply (P3 i j); [lia | exact Hn | exact Hh]).
      split; [exact Hj | apply Hkept; exact Hj].
    + exact Q.
    + intros j Hh Hfirst Hin. destruct (proj1 Q Hin j Hh) as [i' [A [B C]]].
      apply (Hfirst i' A B C).
Qed.

Lemma horizontal_neighbors_removed_with_current_witness :
  let cd := fun t x0 x1 =>
              mk_candidate (mk_line (T t) 12 true (mk_bbox x0 100 x1 112) 0 [])
                           5 0 (Fin 1) in
  let cands := [cd "Name"%string 72%Q 120%Q; cd "Amount"%string 300%Q 360%Q] in
  filter_horizontal_table_headers cands = []
  /\ (In 1 [1] /\ ~ In 1 (map fst (@nil (nat * candidate)))).
Proof.
  intros cd cands.
  assert (Hlen : 2 <= length cands) by (simpl; lia).
  assert (HL : hfilter_loop 0 (candidates_sorted cands) [] = ([], [1]))
    by (vm_compute; reflexivity).
  destruct (@horizontal_neighbors_removed_with_current cands [] [1] Hlen HL)
    as [H1 [_ H3]].
  split; [exact H1|].
  assert (Hc : nth_error (candidates_sorted cands) 0
               = Some (cd "Name"%string 72%Q 120%Q)) by (vm_compute; reflexivity).
  assert (Hn : ~ In 0 [1]) by (simpl; intros [H|[]]; discriminate).
  destruct (H3 0 _ Hc Hn) as [H4 _]. apply H4.
  split; [lia|].
  exists (cd "Name"%string 72%Q 120%Q), (cd "Amount"%string 300%Q 360%Q).
  split; [exact Hc|]. split; [vm_compute; reflexivity|].
  split; [reflexivity|]. split; vm_compute; discriminate.
Defined.

(** C1, as the claim words it, fails: "Amount" sits beside "Name", it is
    removed, and "Name", the current candidate, is not kept either. *)
Lemma current_candidate_not_kept :
  let cd := fun t x0 x1 =>
              mk_candidate (mk_line (T t) 12 true (mk_bbox x0 100 x1 112) 0 [])
                           5 0 (Fin 1) in
  let cands := [cd "Name"%string 72%Q 120%Q; cd "Amount"%string 300%Q 360%Q] in
  candidates_sorted cands = cands
  /\ hneighbor (candidates_sorted cands) 0 1
  /\ filter_horizontal_table_headers cands = [].
Proof.
  intros cd cands.
  assert (Hs : candidates_sorted cands = cands) by (vm_compute; reflexivity).
  split; [exact Hs|]. split; [|vm_compute; reflexivity].
  rewrite Hs. split; [lia|].
  exists (cd "Name"%string 72%Q 120%Q), (cd "Amount"%string 300%Q 360%Q).
  split; [reflexivity|]. split; [reflexivity|].
  split; [reflexivity|]. split; vm_compute; discriminate.
Qed.

(** ** Normalised text *)

Lemma ws_ok_cons : forall c r,
  ws_ok (c :: r)
  = (if is_space c
     then chr_eqb c " "
          && match r with [] => true | c' :: _ => negb (is_space c') end
     else true)
    && ws_ok r.
Proof. reflexivity. Qed.

Lemma ws_ok_collapse : forall s, ws_ok (collapse_ws s) = true.
Proof.
  induction s as [|c s IH]; [reflexivity|].
  rewrite collapse_ws_cons. destruct (is_space c) eqn:C.
  - destruct s as [|c' s']; [reflexivity|].
    destruct (is_space c') eqn:C'; [exact IH|].
    rewrite ws_ok_cons. change (is_space " "%char) with true. cbv iota.
    rewrite IH. rewrite collapse_ws_cons, C'. cbn [negb]. rewrite C'. reflexivity.
  - rewrite ws_ok_cons, C, IH. reflexivity.
Qed.

Lemma collapse_ws_fixed : forall s, ws_ok s = true -> collapse_ws s = s.
Proof.
  induction s as [|c s IH]; intro H; [reflexivity|].
  rewrite ws_ok_cons in H. apply andb_true_iff in H. destruct H as [H1 H2].
  rewrite collapse_ws_cons. destruct (is_space c) eqn:C.
  - apply andb_true_iff in H1. destruct H1 as [E N]. apply chr_eqb_eq in E. subst c.
    destruct s as [|c' s']; [reflexivity|].
    apply negb_true_iff in N. rewrite N. f_equal. apply IH. exact H2.
  - f_equal. apply IH. exact H2.
Qed.

Lemma ws_ok_drop_while : forall p s, ws_ok s = true -> ws_ok (drop_while p s) = true.
Proof.
  intros p. induction s as [|c s IH]; intro H; [reflexivity|].
  simpl drop_while. destruct (p c); [|exact H].
  apply IH. rewrite ws_ok_cons in H. apply andb_true_iff in H. tauto.
Qed.

Lemma ws_ok_app_l : forall a b, ws_ok (a ++ b) = true -> ws_ok a = true.
Proof.
  induction a as [|c a IH]; intros b H; [reflexivity|].
  cbn [app] in H. rewrite ws_ok_cons in *. apply andb_true_iff in H.
  destruct H as [H1 H2]. rewrite (IH b H2), andb_true_r.
  destruct (is_space c); [|reflexivity].
  apply andb_true_iff in H1. destruct H1 as [E N]. rewrite E. cbn [andb].
  destruct a as [|c' a']; [reflexivity | exact N].
Qed.

Lemma drop_while_suffix : forall p s, exists w, s = w ++ drop_while p s.
Proof.
  intros p. induction s as [|c s [w IH]]; [exists []; reflexivity|].
  simpl. destruct (p c).
  - exists (c :: w). simpl. f_equal. exact IH.
  - exists []. reflexivity.
Qed.

Lemma rstrip_prefix : forall p s, exists w, s = rstrip_with p s ++ w.
Proof.
  intros p s. unfold rstrip_with.
  destruct (drop_while_suffix p (rev s)) as [w E].
  exists (rev w). rewrite <- rev_app_distr, <- E, rev_involutive. reflexivity.
Qed.

Lemma no_lead_drop_while : forall s, no_lead (drop_while is_space s) = true.
Proof.
  induction s as [|c s IH]; [reflexivity|].
  simpl. destruct (is_space c) eqn:C; [exact IH|]. simpl. rewrite C. reflexivity.
Qed.

Lemma tidy_normalize : forall s, tidy (normalize_text s).
Proof.
  intro s. unfold normalize_text, strip, rstrip, lstrip.
  set (x := drop_while is_space (collapse_ws s)).
  assert (Wx : ws_ok x = true) by (apply ws_ok_drop_while, ws_ok_collapse).
  assert (Lx : no_lead x = true) by apply no_lead_drop_while.
  destruct (rstrip_prefix is_space x) as [w E].
  split; [|split].
  - apply ws_ok_app_l with (b := w). rewrite <- E. exact Wx.
  - destruct (rstrip_with is_space x) as [|c r] eqn:R; [reflexivity|].
    rewrite E in Lx. exact Lx.
  - unfold rstrip_with. rewrite rev_involutive. apply no_lead_drop_while.
Qed.

Lemma tidy_fixed : forall s, tidy s -> normalize_text s = s /\ strip s = s.
Proof.
  intros s [W [L T']].
  assert (St : strip s = s).
  { unfold strip, rstrip, rstrip_with, lstrip.
    rewrite (drop_while_head is_space s).
    - rewrite drop_while_head; [apply rev_involutive|].
      destruct (rev s); [exact I|]. simpl in T'. apply negb_true_iff. exact T'.
    - destruct s; [exact I|]. simpl in L. apply negb_true_iff. exact L. }
  split; [|exact St]. unfold normalize_text. rewrite collapse_ws_fixed by exact W.
  exact St.
Qed.

Lemma same_shape_rev : forall s s', same_shape s s' -> same_shape (rev s) (rev s').
Proof.
  unfold same_shape. induction 1 as [|c d s s' H HF IH]; [constructor|].
  simpl. apply Forall2_app; [exact IH|]. constructor; [exact H | constructor].
Qed.

Lemma same_shape_no_lead : forall s s', same_shape s s' -> no_lead s = no_lead s'.
Proof.
  intros s s' H. destruct H as [|c d s s' [E _] _]; [reflexivity|].
  simpl. rewrite E. reflexivity.
Qed.

Lemma same_shape_ws_ok : forall s s', same_shape s s' -> ws_ok s = ws_ok s'.
Proof.
  unfold same_shape. induction 1 as [|c d s s' [E F] HF IH]; [reflexivity|].
  rewrite !ws_ok_cons, IH, <- E. destruct (is_space c) eqn:C; [|reflexivity].
  rewrite <- (F eq_refl). f_equal. f_equal.
  destruct HF as [|c' d' ? ? [E' _] _]; [reflexivity|]. rewrite E'. reflexivity.
Qed.

Lemma same_shape_tidy : forall s s', same_shape s s' -> tidy s -> tidy s'.
Proof.
  intros s s' H [W [L T']]. unfold tidy.
  rewrite <- (same_shape_ws_ok H), <- (same_shape_no_lead H),
    <- (same_shape_no_lead (same_shape_rev H)). auto.
Qed.

Lemma alpha_upper_visible : forall c,
  is_alpha c = true -> is_space c = false /\ is_space (to_upper c) = false.
Proof.
  intro c. destruct c as [[] [] [] [] [] [] [] []]; vm_compute; intro H;
    try discriminate; split; reflexivity.
Qed.

Lemma same_shape_refl : forall s, same_shape s s.
Proof. induction s; constructor; auto. Qed.

Lemma same_shape_capitalize : forall s, same_shape s (capitalize_first_letter s).
Proof.
  induction s as [|c s IH]; [constructor|].
  simpl. destruct (is_alpha c) eqn:A.
  - apply alpha_upper_visible in A. destruct A as [A1 A2].
    constructor; [|apply same_shape_refl]. split; [congruence|].
    intro X. congruence.
  - constructor; [auto | exact IH].
Qed.

Lemma lower_upper : forall c, is_alpha c = true -> to_lower (to_upper c) = to_lower c.
Proof.
  intro c. destruct c as [[] [] [] [] [] [] [] []]; vm_compute; intro H;
    try discriminate; reflexivity.
Qed.

Lemma lower_capitalize : forall s, lower (capitalize_first_letter s) = lower s.
Proof.
  induction s as [|c s IH]; [reflexivity|].
  simpl. destruct (is_alpha c) eqn:A; simpl.
  - rewrite lower_upper by exact A. reflexivity.
  - f_equal. exact IH.
Qed.

Lemma ci_text_capitalize : forall t,
  ci_text (capitalize_first_letter t) = ci_text t.
Proof.
  intro t. unfold ci_text. rewrite <- !normalize_lower, lower_capitalize.
  reflexivity.
Qed.

(** On a capitalised normal text the key of the deduplication is the
    case-insensitive normal form. *)
Lemma seen_key_ci_text : forall t e,
  tidy t -> e_text e = capitalize_first_letter t ->
  seen_key e = ci_text (e_text e).
Proof.
  intros t e Ht E. unfold seen_key, ci_text. rewrite E.
  assert (Hc : tidy (capitalize_first_letter t))
    by (eapply same_shape_tidy; [apply same_shape_capitalize | exact Ht]).
  destruct (tidy_fixed Hc) as [N St]. rewrite N.
  unfold lower. rewrite strip_map; [rewrite St; reflexivity | apply to_lower_space].
Qed.

(** ** From the outline back to the candidates *)

Lemma hfilter_loop_In : forall rest i skip kept final,
  hfilter_loop i rest skip = (kept, final) ->
  forall k c, In (k, c) kept -> In c rest.
Proof.
  induction rest as [|current rest IH]; intros i skip kept final H k c Hin.
  - simpl in H. inversion H; subst. contradiction.
  - rewrite hfilter_loop_cons in H. destruct (mem_nat i skip).
    + right. eapply IH; eassumption.
    + destruct (scan_neighbors skip current (S i) rest) as [|j js].
      * destruct (hfilter_loop (S i) rest skip) as [kept0 final0] eqn:L.
        inversion H; subst. destruct Hin as [E|Hin].
        -- inversion E; subst. left. reflexivity.
        -- right. eapply IH; eassumption.
      * right. eapply IH; eassumption.
Qed.

Lemma filter_horizontal_In : forall candidates c,
  In c (filter_horizontal_table_headers candidates) -> In c candidates.
Proof.
  intros candidates c H. unfold filter_horizontal_table_headers in H.
  destruct (length candidates <? 2); [exact H|].
  apply in_map_iff in H. destruct H as [[k c0] [E Hin]]. simpl in E. subst c0.
  destruct (hfilter_loop 0 (candidates_sorted candidates) []) as [kept final] eqn:L.
  simpl in Hin. apply (hfilter_loop_In _ _ _ L) in Hin.
  apply (stable_sort_In pos_leb). exact Hin.
Qed.

Lemma refine_In : forall candidates lines c,
  In c (refine candidates lines) -> In c candidates.
Proof.
  intros candidates lines c H. unfold refine in H.
  destruct candidates as [|c0 cs]; [contradiction|].
  unfold filter_headings_with_content in H. apply filter_In in H.
  destruct H as [H _]. apply filter_horizontal_In in H.
  unfold filter_inconsistent_formatting in H. apply filter_In in H. tauto.
Qed.

Lemma assign_levels_In : forall fit_predict candidates leveled c lv,
  assign_levels fit_predict candidates = Some leveled ->
  In (c, lv) leveled -> In c candidates.
Proof.
  intros fp cands leveled c lv H Hin. unfold assign_levels in H.
  destruct (2 <=? length cands).
  - destruct (fp (map features cands) (n_clusters cands)) as [lbs|]; [|discriminate].
    destruct (cluster_sizes lbs cands []) as [sz|]; [|discriminate].
    destruct (@levels_of_In _ _ _ _ _ _ H Hin) as [Hc _]. exact Hc.
  - inversion H; subst. apply in_map_iff in Hin.
    destruct Hin as [x [E Hx]]. inversion E; subst. exact Hx.
Qed.

Lemma outline_key_snd : forall candidates x k,
  outline_key candidates x = Some k -> snd k = x.
Proof.
  intros candidates x k H. unfold outline_key in H.
  destruct (find _ candidates); [|discriminate]. inversion H. reflexivity.
Qed.

Lemma traverse_outline_key : forall candidates o keyed,
  traverse (outline_key candidates) o = Some keyed ->
  map snd keyed = o
  /\ forall k, In k keyed -> outline_key candidates (snd k) = Some k.
Proof.
  intros candidates. induction o as [|x o IH]; intros keyed H.
  - simpl in H. inversion H; subst. split; [reflexivity | contradiction].
  - simpl in H. destruct (outline_key candidates x) as [k0|] eqn:K; [|discriminate].
    destruct (traverse (outline_key candidates) o) as [ks|] eqn:R; [|discriminate].
    inversion H; subst. destruct (IH ks eq_refl) as [E F].
    pose proof (outline_key_snd _ _ K) as S0. split.
    + simpl. rewrite S0, E. reflexivity.
    + intros k [Hk|Hk]; [subst k; rewrite S0; exact K | apply F; exact Hk].
Qed.

Lemma key_leb_spec : forall pa ya a pb yb b,
  key_leb (pa, ya, a) (pb, yb, b) = true <->
  pa < pb \/ (pa = pb /\ (ya <= yb)%Q).
Proof.
  intros pa ya a pb yb b. unfold key_leb.
  rewrite negb_true_iff, orb_false_iff, andb_false_iff, Nat.ltb_ge, Nat.eqb_neq,
    Qltb_ge.
  split.
  - intros [L [N|Y]]; [left; lia|].
    destruct (Nat.eq_dec pa pb) as [E|E]; [right; tauto | left; lia].
  - intros [L|[E Y]]; [split; [lia | left; lia] | split; [lia | right; exact Y]].
Qed.

Lemma key_leb_total : forall x y, key_leb x y = false -> key_leb y x = true.
Proof.
  intros [[pa ya] a] [[pb yb] b] H. apply key_leb_spec.
  assert (N : ~ (pa < pb \/ (pa = pb /\ (ya <= yb)%Q)))
    by (rewrite <- (key_leb_spec pa ya a pb yb b); congruence).
  destruct (Nat.lt_trichotomy pa pb) as [L|[E|L]]; [tauto | | left; exact L].
  right. split; [congruence|].
  destruct (Qlt_le_dec yb ya) as [Q1|Q1]; [apply Qlt_le_weak; exact Q1|].
  exfalso. apply N. right. split; [exact E | exact Q1].
Qed.

Lemma key_leb_trans : forall x y z,
  key_leb x y = true -> key_leb y z = true -> key_leb x z = true.
Proof.
  intros [[pa ya] a] [[pb yb] b] [[pc yc] c] H1 H2.
  apply key_leb_spec in H1. apply key_leb_spec in H2. apply key_leb_spec.
  destruct H1 as [L1|[E1 Y1]]; destruct H2 as [L2|[E2 Y2]]; try (left; lia).
  right. split; [lia|]. eapply Qle_trans; eassumption.
Qed.

Lemma StronglySorted_map_in : forall (A B : Type) (R : A -> A -> Prop)
    (R' : B -> B -> Prop) (f : A -> B) l,
  (forall x y, In x l -> In y l -> R x y -> R' (f x) (f y)) ->
  StronglySorted R l -> StronglySorted R' (map f l).
Proof.
  intros A B R R' f l H HS. induction HS as [|x l HS IH HF]; simpl; [constructor|].
  constructor.
  - apply IH. intros a b Ha Hb. apply H; right; assumption.
  - apply Forall_forall. intros y Hy. apply in_map_iff in Hy.
    destruct Hy as [z [E Hz]]. subst y. rewrite Forall_forall in HF.
    apply H; [left; reflexivity | right; exact Hz | apply HF; exact Hz].
Qed.

Lemma sort_outline_sorted : forall candidates o sorted,
  sort_outline candidates o = Some sorted ->
  Permutation sorted o /\ StronglySorted (entry_key_le candidates) sorted.
Proof.
  intros candidates o sorted H. unfold sort_outline in H.
  destruct (traverse (outline_key candidates) o) as [keyed|] eqn:Tr; [|discriminate].
  inversion H; subst. destruct (traverse_outline_key _ _ Tr) as [E F]. split.
  - rewrite <- E. apply Permutation_map, stable_sort_perm.
  - apply StronglySorted_map_in with (R := fun a b => key_leb a b = true).
    + intros x y Hx Hy Hxy. exists x, y.
      apply (proj1 (stable_sort_In key_leb _ _)) in Hx.
      apply (proj1 (stable_sort_In key_leb _ _)) in Hy.
      split; [apply F; exact Hx|]. split; [apply F; exact Hy | exact Hxy].
    + apply stable_sort_sorted; [apply key_leb_total | apply key_leb_trans].
Qed.

(** ** Deduplication *)

Lemma dedupe_In_iff : forall l seen e,
  In e (dedupe seen l) <->
  exists pre post,
    l = pre ++ e :: post
    /\ ~ In (seen_key e) (map seen_key pre)
    /\ ~ In (seen_key e) seen.
Proof.
  induction l as [|x l IH]; intros seen e.
  - simpl. split; [contradiction|]. intros [pre [post [E _]]].
    destruct pre; discriminate.
  - simpl dedupe. destruct (mem_text (seen_key x) seen) eqn:M.
    + apply mem_text_In in M. rewrite IH. split.
      * intros [pre [post [E [H1 H2]]]]. exists (x :: pre), post.
        split; [simpl; f_equal; exact E|]. split; [|exact H2].
        simpl. intros [X|X]; [|contradiction]. apply H2. rewrite <- X. exact M.
      * intros [pre [post [E [H1 H2]]]]. destruct pre as [|y pre].
        -- simpl in E. inversion E; subst. contradiction.
        -- simpl in E. inversion E; subst. exists pre, post.
           split; [reflexivity|]. split; [|exact H2].
           intro X. apply H1. right. exact X.
    + assert (Mn : ~ In (seen_key x) seen).
      { intro X. apply mem_text_In in X. congruence. }
      cbn [In]. rewrite IH. split.
      * intros [E|[pre [post [E [H1 H2]]]]].
        -- subst e. exists [], l. split; [reflexivity|]. split; [simpl; tauto | exact Mn].
        -- exists (x :: pre), post. split; [simpl; f_equal; exact E|].
           split.
           ++ simpl. intros [X|X]; [|contradiction]. apply H2. left. exact X.
           ++ intro X. apply H2. right. exact X.
      * intros [pre [post [E [H1 H2]]]]. destruct pre as [|y pre].
        -- simpl in E. inversion E; subst. left. reflexivity.
        -- simpl in E. inversion E; subst. right. exists pre, post.
           split; [reflexivity|]. split.
           ++ intro X. apply H1. right. exact X.
           ++ intros [X|X]; [apply H1; left; exact X | contradiction].
Qed.

Lemma dedupe_NoDup : forall l seen, NoDup (map seen_key (dedupe seen l)).
Proof.
  induction l as [|x l IH]; intro seen; [constructor|].
  simpl dedupe. destruct (mem_text (seen_key x) seen); [apply IH|].
  simpl. constructor; [|apply IH].
  intro X. apply in_map_iff in X. destruct X as [e [E He]].
  apply dedupe_In_iff in He. destruct He as [_ [_ [_ [_ H]]]].
  apply H. left. symmetry. exact E.
Qed.

Lemma dedupe_sub : forall l seen e, In e (dedupe seen l) -> In e l.
Proof.
  intros l seen e H. apply dedupe_In_iff in H.
  destruct H as [pre [post [E _]]]. subst l. apply in_or_app. right. left. reflexivity.
Qed.

(** ** The document routine, case by case *)

Lemma assemble_cases : forall fit_predict t candidates r,
  assemble fit_predict t candidates = Some r ->
  title r = t
  /\ ((candidates = [] /\ outline r = [])
      \/ exists leveled sorted,
          assign_levels fit_predict candidates = Some leveled
          /\ sort_outline candidates (map make_entry leveled) = Some sorted
          /\ outline r = dedupe [] sorted).
Proof.
  intros fp t cands r H. unfold assemble in H.
  destruct cands as [|c0 cs].
  - inversion H; subst. simpl. auto.
  - destruct (assign_levels fp (c0 :: cs)) as [leveled|]; [|discriminate].
    destruct (sort_outline (c0 :: cs) (map make_entry leveled)) as [sorted|] eqn:So;
      [|discriminate].
    inversion H; subst. simpl. split; [reflexivity|]. right.
    exists leveled, sorted. auto.
Qed.

Lemma extract_cases : forall fit_predict doc,
  let r := extract_pdf_outline fit_predict doc in
  outline r = []
  \/ exists pages leveled sorted,
      let a := read_pages 0 pages acc0 in
      let candidates := refine (heading_candidates a (title r)) (all_lines a) in
      doc = Some pages
      /\ assemble fit_predict (title r) candidates = Some r
      /\ assign_levels fit_predict candidates = Some leveled
      /\ sort_outline candidates (map make_entry leveled) = Some sorted
      /\ outline r = dedupe [] sorted.
Proof.
  intros fp doc. unfold extract_pdf_outline.
  destruct (outline_of fp doc) as [r|] eqn:O; [|left; reflexivity].
  cbv zeta. unfold outline_of in O.
  destruct doc as [pages|]; [|discriminate].
  destruct (all_lines (read_pages 0 pages acc0)) as [|l0 ls] eqn:AL.
  { inversion O; subst. left. reflexivity. }
  rewrite <- AL in O.
  destruct (extract_title (first_page_elements (read_pages 0 pages acc0)) _ _)
    as [t|]; [|discriminate].
  destruct (font_sizes (read_pages 0 pages acc0)) as [|f0 fs] eqn:FS.
  { inversion O; subst. left. reflexivity. }
  destruct (assemble_cases _ _ _ O) as [Ht [[_ E]|[leveled [sorted [A [So E]]]]]].
  - left. exact E.
  - right. exists pages, leveled, sorted. rewrite Ht. auto.
Qed.

Lemma heading_candidate_facts : forall pages t c,
  In c (heading_candidates (read_pages 0 pages acc0) t) ->
  tidy (c_text c)
  /\ matches_title t (c_line c) = false
  /\ is_valid_heading (c_text c) = true.
Proof.
  intros pages t c H. unfold heading_candidates in H.
  apply score_lines_In in H. destruct H as [Hin [Hm Hv]].
  split; [|split; assumption].
  assert (F : Forall (fun l => tidy (l_text l)) (all_lines (read_pages 0 pages acc0))).
  { apply read_pages_lines; [|constructor].
    intros t0 sz bd bb pn sp _ _. simpl. apply tidy_normalize. }
  rewrite Forall_forall in F. apply (F _ Hin).
Qed.

Lemma sorted_entry_origin : forall fit_predict pages t leveled sorted e,
  let a := read_pages 0 pages acc0 in
  let candidates := refine (heading_candidates a t) (all_lines a) in
  assign_levels fit_predict candidates = Some leveled ->
  sort_outline candidates (map make_entry leveled) = Some sorted ->
  In e sorted ->
  exists c, In c (heading_candidates a t)
            /\ e_text e = capitalize_first_letter (c_text c).
Proof.
  intros fp pages t leveled sorted e a candidates A So He.
  destruct (sort_outline_sorted _ _ So) as [P _].
  apply (Permutation_in _ P) in He. apply in_map_iff in He.
  destruct He as [[c lv] [E Hin]]. exists c. split.
  - eapply refine_In. eapply assign_levels_In; eassumption.
  - subst e. reflexivity.
Qed.

Lemma valid_heading_not_empty : forall t,
  is_valid_heading t = true -> ci_text t <> [].
Proof.
  intros t H X. unfold is_valid_heading in H.
  destruct (existsb is_alpha (normalize_text t)) eqn:A; [|discriminate].
  unfold ci_text in X. apply map_eq_nil in X. rewrite X in A. discriminate.
Qed.

(** ** C3 *)

(** C3.  In the result for any document, no entry of the outline has the
    case-insensitive normalised text of the title; and a line whose
    case-insensitive normalised text is that of a non-empty title is
    never a heading candidate. *)
Theorem title_never_in_outline : forall fit_predict doc,
  let r := extract_pdf_outline fit_predict doc in
  Forall (fun e => ci_text (e_text e) <> ci_text (title r)) (outline r)
  /\ forall pages t,
      t <> [] ->
      Forall (fun c => ci_text (c_text c) <> ci_text t)
             (heading_candidates (read_pages 0 pages acc0) t).
Proof.
  intros fp doc r.
  assert (K : forall pages t c,
             In c (heading_candidates (read_pages 0 pages acc0) t) ->
             ci_text (capitalize_first_letter (c_text c)) <> ci_text t).
  { intros pages t c Hc. rewrite ci_text_capitalize.
    destruct (heading_candidate_facts _ _ _ Hc) as [_ [Hm Hv]].
    unfold matches_title in Hm. destruct t as [|x t].
    - apply valid_heading_not_empty. exact Hv.
    - apply text_eqb_neq. exact Hm. }
  split.
  - apply Forall_forall. intros e He.
    destruct (extract_cases fp doc) as [E|[pages [leveled [sorted H]]]].
    + fold r in E. rewrite E in He. contradiction.
    + cbv zeta in H. fold r in H. destruct H as [_ [_ [A [So E]]]].
      rewrite E in He. apply dedupe_sub in He.
      destruct (@sorted_entry_origin _ _ _ _ _ _ A So He) as [c [Hc Et]].
      rewrite Et. eapply K. exact Hc.
  - intros pages t Ht. apply Forall_forall. intros c Hc.
    rewrite <- (ci_text_capitalize (c_text c)). eapply K. exact Hc.
Qed.

(** ** C8 *)

(** C8.  In the result for any document the entries of the outline have
    pairwise different case-insensitive normalised texts; deduplication
    keeps an entry exactly when no entry before it in the sorted outline
    has its key, so of several duplicates the first in sorted order
    stays; and the sorted outline is the leveled entries in the order of
    (page, Y of the first candidate with the entry's text). *)
Theorem outline_deduplicated : forall fit_predict doc,
  NoDup (map (fun e => ci_text (e_text e))
             (outline (extract_pdf_outline fit_predict doc)))
  /\ (forall sorted e,
         In e (dedupe [] sorted) <->
         exists pre post,
           sorted = pre ++ e :: post
           /\ ~ In (seen_key e) (map seen_key pre))
  /\ (forall t candidates r,
         candidates <> [] ->
         assemble fit_predict t candidates = Some r ->
         exists leveled sorted,
           assign_levels fit_predict candidates = Some leveled
           /\ Permutation sorted (map make_entry leveled)
           /\ StronglySorted (entry_key_le candidates) sorted
           /\ outline r = dedupe [] sorted).
Proof.
  intros fp doc. split; [|split].
  - destruct (extract_cases fp doc) as [E|[pages [leveled [sorted H]]]].
    + rewrite E. constructor.
    + cbv zeta in H. destruct H as [_ [_ [A [So E]]]]. rewrite E.
      rewrite <- (map_ext_in seen_key).
      * apply dedupe_NoDup.
      * intros e He. apply dedupe_sub in He.
        destruct (@sorted_entry_origin _ _ _ _ _ _ A So He) as [c [Hc Et]].
        destruct (heading_candidate_facts _ _ _ Hc) as [Ht _].
        eapply seen_key_ci_text; eassumption.
  - intros sorted e. rewrite dedupe_In_iff. split.
    + intros [pre [post [E [H _]]]]. exists pre, post. auto.
    + intros [pre [post [E H]]]. exists pre, post. simpl. tauto.
  - intros t cands r Hne H.
    destruct (assemble_cases _ _ _ H) as [_ [[X _]|[leveled [sorted [A [So E]]]]]];
      [contradiction|].
    destruct (sort_outline_sorted _ _ So) as [P St].
    exists leveled, sorted. auto.
Qed.

(** ** The end-to-end scenario of the specification

    A one-page document: a 24pt bold "Project Charter", a paragraph, a
    14pt bold "1. Introduction" and a paragraph below it. *)
Example project_charter_outline :
  let sp := fun t sz b =>
              mk_span (Some (T t)) (Some sz) (Some (if b : bool then 16 else 0)%Z) in
  let rl := fun t sz b x0 y0 x1 y1 =>
              mk_raw_line (Some [sp t sz b]) (Some (mk_bbox x0 y0 x1 y1)) in
  let doc :=
    Some [mk_page 792
            (Some [mk_block
                     (Some [rl "Project Charter"%string 24%Q true 200 50 400 80;
                            rl "this is the body of the project and it goes on."%string
                               10%Q false 50 100 500 112;
                            rl "1. Introduction"%string 14%Q true 50 150 200 166;
                            rl "here we introduce the project in five words."%string
                               10%Q false 50 180 500 192])])]%Q in
  extract_pdf_outline (fun rows _ => Some (map (fun _ => 0) rows)) doc
  = mk_result (T "Project Charter") [mk_entry 1 (T "1. Introduction") 0].
Proof. vm_compute. reflexivity. Qed.

(* ================================================================== *)
(** * Further properties of the code *)

(** ** Text helpers (lines 22-36) *)

(** X1.  [normalize_text] is idempotent, and its result is a fixed point
    of both of its steps: stripping it or collapsing its whitespace again
    changes nothing. *)
Theorem normalize_text_idempotent : forall s,
  normalize_text (normalize_text s) = normalize_text s
  /\ strip (normalize_text s) = normalize_text s
  /\ collapse_ws (normalize_text s) = normalize_text s.
Proof.
  intro s. pose proof (tidy_normalize s) as Ht.
  destruct (tidy_fixed Ht) as [N St]. split; [exact N|]. split; [exact St|].
  destruct Ht as [W _]. apply collapse_ws_fixed. exact W.
Qed.






(** ** Classifiers (lines 39-179) *)

Lemma noise_normalized : forall t,
  is_noise_content (normalize_text t) = is_noise_content t.
Proof.
  intro t. apply noise_of_normal_form.
  apply (proj1 (tidy_fixed (tidy_normalize t))).
Qed.

Lemma clean_label_normalized : forall t,
  clean_label (normalize_text t) = clean_label t.
Proof.
  intro t. unfold clean_label.
  rewrite (proj1 (tidy_fixed (tidy_normalize t))). reflexivity.
Qed.

Ltac next_guard H E :=
  match type of H with
  | (if ?b then false else _) = true => destruct b eqn:E; [discriminate H|]
  end.

(** X3.  A text accepted by [is_valid_title] is never noise content, a
    form label or a signature field, contains a letter and has between 1
    and 10 words; a text accepted by [is_valid_heading] is never a
    signature field, contains a letter and has between 1 and 12 words. *)
Theorem valid_texts_are_not_labels : forall t,
  (is_valid_title t = true ->
   is_noise_content t = false /\ is_form_label t = false
   /\ is_signature_field t = false
   /\ existsb is_alpha (normalize_text t) = true
   /\ 1 <= word_count (normalize_text t) <= 10)
  /\ (is_valid_heading t = true ->
      is_signature_field t = false
      /\ existsb is_alpha (normalize_text t) = true
      /\ 1 <= word_count (normalize_text t) <= 12).
Proof.
  intro t. split.
  - unfold is_valid_title. intro H.
    destruct (existsb is_alpha (normalize_text t)) eqn:A; cbn [negb] in H;
      [|discriminate].
    next_guard H G1. next_guard H G2. next_guard H G3.
    apply orb_false_iff in G1. destruct G1 as [G1 N].
    apply orb_false_iff in G1. destruct G1 as [F Sg].
    apply orb_false_iff in G3. destruct G3 as [W1 W2].
    apply Nat.ltb_ge in W1. apply Nat.ltb_ge in W2.
    rewrite noise_normalized in N.
    unfold is_form_label in *. unfold is_signature_field in *.
    rewrite clean_label_normalized in F, Sg. repeat split; assumption.
  - unfold is_valid_heading. intro H.
    destruct (existsb is_alpha (normalize_text t)) eqn:A; cbn [negb] in H;
      [|discriminate].
    next_guard H G1. next_guard H G2. next_guard H G3. next_guard H Sg.
    apply orb_false_iff in G2. destruct G2 as [W1 W2].
    apply Nat.ltb_ge in W1. apply Nat.ltb_ge in W2.
    unfold is_signature_field in *. rewrite clean_label_normalized in Sg.
    repeat split; assumption.
Qed.

(** ** Formatting of a line (lines 108-122) *)

Lemma fold_max_spec : forall r x,
  let m := fold_left (fun m y => if Qltb m y then y else m) r x in
  (x <= m)%Q /\ (forall y, In y r -> (y <= m)%Q) /\ In m (x :: r).
Proof.
  induction r as [|y r IH]; intro x; cbv zeta.
  - simpl. split; [apply Qle_refl|]. split; [contradiction | left; reflexivity].
  - cbn [fold_left]. specialize (IH (if Qltb x y then y else x)). cbv zeta in IH.
    destruct IH as [H1 [H2 H3]].
    assert (Hx : (x <= (if Qltb x y then y else x))%Q
                 /\ (y <= (if Qltb x y then y else x))%Q).
    { destruct (Qltb x y) eqn:E.
      - apply Qltb_lt in E. split; [apply Qlt_le_weak; exact E | apply Qle_refl].
      - apply Qltb_ge in E. split; [apply Qle_refl | exact E]. }
    destruct Hx as [Hx Hy]. split; [eapply Qle_trans; eassumption|]. split.
    + intros z [Hz|Hz]; [subst z; eapply Qle_trans; eassumption | apply H2; exact Hz].
    + destruct H3 as [H3|H3]; [|right; right; exact H3].
      rewrite <- H3. destruct (Qltb x y); [right; left | left]; reflexivity.
Qed.


Lemma Qmax_list_spec : forall d l,
  l <> [] ->
  In (Qmax_list d l) l /\ forall y, In y l -> (y <= Qmax_list d l)%Q.
Proof.
  intros d [|x r] Hne; [contradiction|]. unfold Qmax_list.
  destruct (fold_max_spec r x) as [H1 [H2 H3]]. split; [exact H3|].
  intros y [Hy|Hy]; [subst y; exact H1 | apply H2; exact Hy].
Qed.




(** ** Table rows (lines 169-239) *)

Lemma drop_while_split : forall p s,
  exists w, s = w ++ drop_while p s /\ Forall (fun c => p c = true) w.
Proof.
  intros p. induction s as [|c s [w [E F]]]; [exists []; split; [reflexivity | constructor]|].
  simpl. destruct (p c) eqn:C.
  - exists (c :: w). split; [simpl; f_equal; exact E | constructor; assumption].
  - exists []. split; [reflexivity | constructor].
Qed.

Lemma strip_decompose : forall t,
  exists w1 w2,
    t = w1 ++ strip t ++ w2
    /\ Forall (fun c => is_space c = true) w1
    /\ Forall (fun c => is_space c = true) w2.
Proof.
  intro t. unfold strip, rstrip, rstrip_with, lstrip.
  destruct (drop_while_split is_space t) as [w1 [E1 F1]].
  destruct (drop_while_split is_space (rev (drop_while is_space t))) as [w2 [E2 F2]].
  exists w1, (rev w2). split; [|split; [exact F1 | apply Forall_rev; exact F2]].
  rewrite <- rev_app_distr, <- E2, rev_involutive. exact E1.
Qed.

Lemma strip_ends : forall t,
  no_lead (strip t) = true /\ no_lead (rev (strip t)) = true.
Proof.
  intro t. unfold strip, rstrip, rstrip_with, lstrip. split.
  - destruct (rstrip_prefix is_space (drop_while is_space t)) as [w E].
    unfold rstrip_with in E.
    destruct (rev (drop_while is_space (rev (drop_while is_space t)))) as [|c r] eqn:R;
      [reflexivity|].
    pose proof (no_lead_drop_while t) as L. rewrite E in L. exact L.
  - rewrite rev_involutive. apply no_lead_drop_while.
Qed.

Lemma drop_while_all : forall p x r,
  Forall (fun c => p c = true) x -> drop_while p (x ++ r) = drop_while p r.
Proof.
  intros p x r H. induction H as [|c x Hc Hx IH]; [reflexivity|].
  simpl. rewrite Hc. exact IH.
Qed.

(** Whitespace around a text that starts and ends with a visible
    character is what [strip] removes. *)
Lemma strip_pad : forall x m y,
  Forall (fun c => is_space c = true) x ->
  Forall (fun c => is_space c = true) y ->
  m <> [] -> no_lead m = true -> no_lead (rev m) = true ->
  strip (x ++ m ++ y) = m.
Proof.
  intros x m y Hx Hy Hne Hl Ht. unfold strip, rstrip, rstrip_with, lstrip.
  rewrite drop_while_all by exact Hx.
  rewrite (drop_while_head is_space (m ++ y)).
  - rewrite rev_app_distr, drop_while_all by (apply Forall_rev; exact Hy).
    rewrite drop_while_head; [apply rev_involutive|].
    destruct (rev m); [exact I|]. simpl in Ht. apply negb_true_iff. exact Ht.
  - destruct m as [|c m']; [contradiction|]. simpl in *. apply negb_true_iff. exact Hl.
Qed.

Lemma collapse_all_ws : forall w,
  Forall (fun c => is_space c = true) w ->
  collapse_ws w = match w with [] => [] | _ => [" "%char] end.
Proof.
  induction 1 as [|c w Hc Hw IH]; [reflexivity|].
  rewrite collapse_ws_cons, Hc. destruct w as [|c' w']; [reflexivity|].
  inversion Hw; subst. rewrite H1. exact IH.
Qed.

Lemma normalize_pad : forall w1 m w2,
  Forall (fun c => is_space c = true) w1 ->
  Forall (fun c => is_space c = true) w2 ->
  m <> [] -> Forall (fun c => is_space c = false) m ->
  normalize_text (w1 ++ m ++ w2) = m.
Proof.
  intros w1 m w2 H1 H2 Hne Hm. unfold normalize_text.
  destruct m as [|c m']; [contradiction|].
  inversion Hm as [|? ? Hc Hm']; subst.
  assert (E : exists x y,
             collapse_ws (w1 ++ (c :: m') ++ w2) = x ++ (c :: m') ++ y
             /\ Forall (fun c => is_space c = true) x
             /\ Forall (fun c => is_space c = true) y).
  { exists (match w1 with [] => [] | _ => [" "%char] end),
           (match w2 with [] => [] | _ => [" "%char] end).
    split; [|split; [destruct w1 | destruct w2]; repeat constructor].
    cbn [app]. destruct w1 as [|a w1'].
    - cbn [app]. rewrite collapse_ws_cons, Hc, collapse_ws_nows_app by exact Hm'.
      rewrite collapse_all_ws by exact H2. reflexivity.
    - rewrite collapse_ws_run by (assumption || discriminate).
      rewrite collapse_ws_nows_app by exact Hm'.
      rewrite collapse_all_ws by exact H2. reflexivity. }
  destruct E as [x [y [E [Fx Fy]]]]. rewrite E.
  apply strip_pad;
    [exact Fx | exact Fy | discriminate | simpl; rewrite Hc; reflexivity |].
  apply Forall_rev in Hm. destruct (rev (c :: m')) as [|z r]; [reflexivity|].
  inversion Hm; subst. simpl. rewrite H3. reflexivity.
Qed.

Lemma lang_star_class_inv : forall p r u,
  lang r u -> r = Star (Cls p) -> Forall (fun c => p c = true) u.
Proof.
  intros p r u H. induction H; intro E; try discriminate.
  - constructor.
  - inversion E; subst. apply Forall_app. split; [|apply IHlang2; reflexivity].
    inversion H; subst. constructor; [assumption | constructor].
Qed.

Lemma lang_plus_class_inv : forall p u,
  lang (plus (Cls p)) u -> u <> [] /\ Forall (fun c => p c = true) u.
Proof.
  intros p u H. unfold plus in H. inversion H; subst.
  match goal with X : lang (Cls p) _ |- _ => inversion X; subst end.
  split; [discriminate|]. simpl. constructor; [assumption|].
  eapply lang_star_class_inv; [eassumption | reflexivity].
Qed.

Lemma lang_opt_chr_inv : forall c u, lang (opt (chr c)) u -> u = [] \/ u = [c].
Proof.
  intros c u H. unfold opt in H. inversion H; subst.
  - match goal with X : lang (chr c) _ |- _ => inversion X; subst end.
    right. f_equal. symmetry. apply chr_eqb_eq. assumption.
  - match goal with X : lang Eps _ |- _ => inversion X; subst end. left. reflexivity.
Qed.

Lemma digit_facts : forall c,
  is_digit c = true -> is_space c = false /\ to_lower c = c.
Proof.
  intro c. destruct c as [[] [] [] [] [] [] [] []]; vm_compute; intro H;
    try discriminate; split; reflexivity.
Qed.

(** A text whose stripped form passes the integer test of the scan is a
    serial number. *)
Lemma int_line_is_serial : forall t,
  anchored int_line_pattern (strip t) = true -> is_serial_number t = true.
Proof.
  intros t H. pose proof H as H0. unfold anchored in H. apply matches_lang in H.
  inversion H as [| |a b u v Hu Hv| | | |]; subst.
  unfold int_line_pattern in Hu. simpl cats in Hu.
  inversion Hu as [| |a b d v' Hd Hv'| | | |]; subst.
  inversion Hv' as [| |a b tl e Ht He| | | |]; subst.
  inversion He; subst. rewrite app_nil_r in *.
  apply lang_plus_class_inv in Hd. destruct Hd as [Hne Hd].
  apply lang_opt_chr_inv in Ht. apply lang_opt_chr_inv in Hv.
  destruct (strip_ends t) as [_ Tr].
  assert (Ev : v = []).
  { destruct Hv as [Ev|Ev]; [exact Ev|]. exfalso. subst v.
    match goal with X : _ = strip t |- _ => rewrite <- X in Tr end.
    rewrite rev_app_distr in Tr. simpl in Tr. discriminate. }
  subst v. rewrite app_nil_r in *.
  assert (Hvis : Forall (fun c => is_space c = false) (d ++ tl)).
  { apply Forall_app. split.
    - eapply Forall_impl; [|exact Hd]. intros c Hc. apply digit_facts in Hc. tauto.
    - destruct Ht; subst; repeat constructor. }
  assert (Hlow : lower (d ++ tl) = d ++ tl).
  { unfold lower. rewrite map_app. f_equal.
    - clear -Hd. induction Hd as [|c d Hc Hd IH]; [reflexivity|].
      simpl. rewrite IH. f_equal. apply digit_facts in Hc. tauto.
    - destruct Ht; subst; reflexivity. }
  destruct (strip_decompose t) as [w1 [w2 [E [F1 F2]]]].
  match goal with X : _ = strip t |- _ => rename X into Es end.
  unfold is_serial_number. rewrite E, <- Es.
  rewrite normalize_pad; try assumption.
  - rewrite Hlow. apply existsb_exists. exists int_line_pattern. split.
    + unfold serial_patterns, int_line_pattern. do 7 right. left. reflexivity.
    + rewrite Es. exact H0.
  - destruct d; [contradiction | discriminate].
Qed.

Lemma yset_mem_eq : forall y y' s, yset_mem y s -> (y == y')%Q -> yset_mem y' s.
Proof.
  intros y y' s [z [Hz E]] E'. exists z. split; [exact Hz|].
  rewrite E. exact E'.
Qed.

Lemma yset_add_inv : forall y z s,
  yset_mem y (yset_add z s) -> yset_mem y s \/ (z == y)%Q.
Proof.
  intros y z s [w [Hw E]]. unfold yset_add in Hw.
  destruct (existsb (Qeq_bool z) s).
  - left. exists w. auto.
  - apply in_app_or in Hw. destruct Hw as [Hw|[Hw|[]]].
    + left. exists w. auto.
    + right. subst w. exact E.
Qed.

Lemma fold_left_inv : forall (St A : Type) (f : St -> A -> St)
    (P : St -> Prop) (Q : A -> Prop),
  (forall s a, P (f s a) -> P s \/ Q a) ->
  forall l s, P (fold_left f l s) -> P s \/ exists a, In a l /\ Q a.
Proof.
  intros St A f P Q Hf. induction l as [|a l IH]; intros s H; [left; exact H|].
  simpl in H. destruct (IH _ H) as [H1|[b [Hb Qb]]].
  - destruct (Hf _ _ H1) as [H2|H2]; [left; exact H2|].
    right. exists a. split; [left; reflexivity | exact H2].
  - right. exists b. split; [right; exact Hb | exact Qb].
Qed.

Lemma In_firstn : forall (A : Type) n (l : list A) x, In x (firstn n l) -> In x l.
Proof.
  intros A n l x H. rewrite <- (firstn_skipn n l). apply in_or_app. left. exact H.
Qed.

Lemma In_skipn : forall (A : Type) n (l : list A) x, In x (skipn n l) -> In x l.
Proof.
  intros A n l x H. rewrite <- (firstn_skipn n l). apply in_or_app. right. exact H.
Qed.

Lemma group_add_In : forall (A K : Type) (keq : K -> K -> bool) k a
    (m : list (K * list A)) k' g x,
  In (k', g) (group_add keq k a m) -> In x g ->
  x = a \/ exists g0, In (k', g0) m /\ In x g0.
Proof.
  intros A K keq k a. induction m as [|[k0 vs] m IH]; intros k' g x H Hx.
  - simpl in H. destruct H as [H|[]]. inversion H; subst.
    destruct Hx as [Hx|[]]. left. symmetry. exact Hx.
  - simpl in H. destruct (keq k k0).
    + destruct H as [H|H].
      * inversion H; subst. apply in_app_or in Hx. destruct Hx as [Hx|[Hx|[]]].
        -- right. exists vs. split; [left; reflexivity | exact Hx].
        -- left. symmetry. exact Hx.
      * right. exists g. split; [right; exact H | exact Hx].
    + destruct H as [H|H].
      * right. exists g. split; [left; exact H | exact Hx].
      * destruct (IH _ _ _ H Hx) as [E|[g0 [H0 Hx0]]]; [left; exact E|].
        right. exists g0. split; [right; exact H0 | exact Hx0].
Qed.

(** The groups of [group_by] hold elements of the list only. *)
Lemma group_by_In : forall (A K : Type) (keq : K -> K -> bool) (key : A -> K)
    l k g x,
  In (k, g) (group_by keq key l) -> In x g -> In x l.
Proof.
  intros A K keq key l k g x. unfold group_by.
  assert (G : forall l m k g x,
             In (k, g) (fold_left (fun m a => group_add keq (key a) a m) l m) ->
             In x g -> In x l \/ exists g0, In (k, g0) m /\ In x g0).
  { clear. induction l as [|a l IH]; intros m k g x H Hx.
    - right. exists g. auto.
    - simpl in H. destruct (IH _ _ _ _ H Hx) as [H1|[g0 [H0 Hx0]]].
      + left. right. exact H1.
      + destruct (@group_add_In _ _ _ _ _ _ _ _ _ H0 Hx0) as [E|H2].
        * left. left. symmetry. exact E.
        * right. exact H2. }
  intros H Hx. destruct (G l [] k g x H Hx) as [H1|[g0 [[] _]]]. exact H1.
Qed.

Lemma numbered_line_In : forall l n y,
  In (n, y) (numbered_line l) ->
  y = by0 (l_bbox l) /\ anchored int_line_pattern (strip (l_text l)) = true.
Proof.
  intros l n y H. unfold numbered_line in H.
  destruct (anchored int_line_pattern (strip (l_text l))); [|contradiction].
  destruct (parse_int _); [|contradiction].
  destruct H as [H|[]]. inversion H. auto.
Qed.

Lemma bucket_rows_In : forall x_lines y,
  In y (bucket_rows x_lines) ->
  exists l, In l x_lines /\ y = by0 (l_bbox l)
            /\ is_serial_number (l_text l) = true.
Proof.
  intros x_lines y H. unfold bucket_rows in H.
  destruct (length x_lines <? 3); [contradiction|].
  cbv zeta in H. destruct (3 <=? _); [|contradiction].
  destruct (find _ _) as [i|]; [|contradiction].
  apply In_firstn, In_skipn in H. apply in_map_iff in H.
  destruct H as [[n y0] [E H]]. simpl in E. subst y0.
  apply in_flat_map in H. destruct H as [l [Hl Hn]].
  apply (proj1 (stable_sort_In y_leb _ _)) in Hl. apply numbered_line_In in Hn.
  destruct Hn as [E Ha]. exists l. split; [exact Hl|]. split; [exact E|].
  apply int_line_is_serial. exact Ha.
Qed.

Lemma serial_rows_inv : forall ls y,
  yset_mem y (serial_rows ls) ->
  exists l, In l ls /\ is_serial_number (l_text l) = true
            /\ (by0 (l_bbox l) == y)%Q.
Proof.
  intros ls y H. unfold serial_rows in H.
  apply fold_left_inv
    with (P := yset_mem y)
         (Q := fun l => is_serial_number (l_text l) = true
                        /\ (by0 (l_bbox l) == y)%Q) in H.
  - destruct H as [[z [[] _]]|[l [Hl [H1 H2]]]]. exists l. auto.
  - intros s l Hs. destruct (is_serial_number (l_text l)) eqn:E; [|left; exact Hs].
    apply yset_add_inv in Hs. destruct Hs as [Hs|Hs]; [left; exact Hs | right; auto].
Qed.

Lemma page_rows_inv : forall lines s y,
  yset_mem y (page_rows lines s) ->
  yset_mem y s
  \/ exists l, In l lines /\ is_serial_number (l_text l) = true
               /\ (by0 (l_bbox l) == y)%Q.
Proof.
  intros lines s y H. unfold page_rows in H.
  apply fold_left_inv
    with (P := yset_mem y)
         (Q := fun g : Z * list line =>
                 exists l, In l (snd g) /\ is_serial_number (l_text l) = true
                           /\ (by0 (l_bbox l) == y)%Q) in H.
  - destruct H as [H|[[x x_lines] [Hx [l [Hl Hr]]]]]; [left; exact H|].
    right. exists l. split; [|exact Hr]. simpl in Hl.
    eapply group_by_In; eassumption.
  - intros s0 g Hs0.
    apply fold_left_inv
      with (P := yset_mem y)
           (Q := fun z => (z == y)%Q) in Hs0.
    + destruct Hs0 as [Hs0|[z [Hz E]]]; [left; exact Hs0|].
      right. apply bucket_rows_In in Hz. destruct Hz as [l [Hl [Ez Hser]]].
      exists l. subst z. auto.
    + intros s1 z Hs1. apply yset_add_inv in Hs1. exact Hs1.
Qed.

(** Membership in the set [detect_table_rows] returns. *)
Lemma detect_table_rows_mem : forall all_lines y,
  yset_mem y (detect_table_rows all_lines) <->
  exists l, In l all_lines /\ is_serial_number (l_text l) = true
            /\ (by0 (l_bbox l) == y)%Q.
Proof.
  intros ls y. split.
  - intro H. unfold detect_table_rows in H.
    apply fold_left_inv
      with (P := yset_mem y)
           (Q := fun pg : nat * list line =>
                   exists l, In l (snd pg) /\ is_serial_number (l_text l) = true
                             /\ (by0 (l_bbox l) == y)%Q) in H.
    + destruct H as [H|[[p lines] [Hp [l [Hl Hr]]]]]; [apply serial_rows_inv; exact H|].
      exists l. split; [|exact Hr]. simpl in Hl. eapply group_by_In; eassumption.
    + intros s pg Hs. apply page_rows_inv in Hs. exact Hs.
  - intros [l [Hl [Hs E]]]. apply detect_table_rows_keeps_serial.
    eapply yset_mem_eq; [apply serial_rows_mem; eassumption | exact E].
Qed.

(** X5.  The set [detect_table_rows] returns holds exactly the
    Y-coordinates of the lines whose text is a serial number: every line
    the consecutive-integer scan can pick is itself a serial number, so
    the scan over X-buckets never adds a coordinate that the first pass
    has not added. *)
Theorem table_rows_are_serial_rows : forall all_lines y,
  (yset_mem y (detect_table_rows all_lines) <->
   exists l, In l all_lines /\ is_serial_number (l_text l) = true
             /\ (by0 (l_bbox l) == y)%Q)
  /\ (yset_mem y (detect_table_rows all_lines) <->
      yset_mem y (serial_rows all_lines)).
Proof.
  intros ls y. split; [apply detect_table_rows_mem|].
  rewrite detect_table_rows_mem. split.
  - intros [l [Hl [Hs E]]].
    eapply yset_mem_eq; [apply serial_rows_mem; eassumption | exact E].
  - apply serial_rows_inv.
Qed.

Lemma in_table_row_iff : forall all_lines bb,
  is_in_table_row bb (detect_table_rows all_lines) = true <->
  exists l, In l all_lines /\ is_serial_number (l_text l) = true
            /\ (Qabs (by0 bb - by0 (l_bbox l)) <= 8)%Q.
Proof.
  intros ls bb.
  assert (E : is_in_table_row bb (detect_table_rows ls)
              = existsb (fun table_y => Qle_bool (Qabs (by0 bb - table_y)) 8)
                        (detect_table_rows ls)).
  { unfold is_in_table_row. destruct (detect_table_rows ls); reflexivity. }
  rewrite E, existsb_exists. split.
  - intros [z [Hz Hq]]. apply Qle_bool_iff in Hq.
    assert (M : yset_mem z (detect_table_rows ls)) by (exists z; split; [exact Hz | reflexivity]).
    apply detect_table_rows_mem in M. destruct M as [l [Hl [Hs Ey]]].
    exists l. split; [exact Hl|]. split; [exact Hs|].
    apply Qabs_Qle_condition. apply Qabs_Qle_condition in Hq. lra.
  - intros [l [Hl [Hs Hq]]].
    assert (M : yset_mem (by0 (l_bbox l)) (detect_table_rows ls)).
    { apply detect_table_rows_mem. exists l. repeat split; [exact Hl | exact Hs]. }
    destruct M as [z [Hz Ez]]. exists z. split; [exact Hz|].
    apply Qle_bool_iff. apply Qabs_Qle_condition. apply Qabs_Qle_condition in Hq. lra.
Qed.

(** X6.  A bounding box counts as lying in a table row of the document
    exactly when its top is within 8 units of the top of some line whose
    text is a serial number; the page of that line plays no part. *)
Theorem in_table_row_of_document : forall all_lines bb,
  is_in_table_row bb (detect_table_rows all_lines) = true <->
  exists l, In l all_lines /\ is_serial_number (l_text l) = true
            /\ (Qabs (by0 bb - by0 (l_bbox l)) <= 8)%Q.
Proof. exact in_table_row_iff. Qed.

Lemma score_lines_guard : forall title ty m bf ls prev c,
  In c (score_lines title ty m bf prev ls) ->
  is_in_table_row (c_bbox c) ty = false.
Proof.
  intros title ty m bf. induction ls as [|l ls IH]; intros prev c H; [contradiction|].
  simpl in H.
  destruct (score_line title ty m bf prev l) as [c0|] eqn:E.
  - destruct H as [H|H]; [|eapply IH; exact H].
    subst c0. unfold score_line in E.
    destruct (matches_title title l); [discriminate|].
    destruct (negb (is_valid_heading (l_text l))); [discriminate|].
    destruct (is_in_table_row (l_bbox l) ty) eqn:R; [discriminate|].
    cbv zeta in E. destruct (4 <=? _)%Z; [|discriminate].
    inversion E. unfold c_bbox. simpl. exact R.
  - eapply IH. exact H.
Qed.

(** X7.  No heading candidate is a serial-number line, and none lies
    within 8 units (measured on the top coordinate, whatever the pages)
    of a line of the document whose text is a serial number. *)
Theorem candidates_avoid_serial_lines : forall a t c,
  In c (heading_candidates a t) ->
  is_serial_number (c_text c) = false
  /\ forall l, In l (all_lines a) -> is_serial_number (l_text l) = true ->
               (8 < Qabs (by0 (c_bbox c) - by0 (l_bbox l)))%Q.
Proof.
  intros a t c H. unfold heading_candidates in H.
  pose proof (score_lines_guard _ _ _ _ _ _ _ H) as G.
  apply score_lines_In in H. destruct H as [Hin _].
  assert (Far : forall l, In l (all_lines a) -> is_serial_number (l_text l) = true ->
                          (8 < Qabs (by0 (c_bbox c) - by0 (l_bbox l)))%Q).
  { intros l Hl Hs. apply Qnot_le_lt. intro Hq.
    assert (X : is_in_table_row (c_bbox c) (detect_table_rows (all_lines a)) = true).
    { apply in_table_row_iff. exists l. auto. }
    congruence. }
  split; [|exact Far].
  destruct (is_serial_number (c_text c)) eqn:Sn; [|reflexivity].
  exfalso. specialize (Far (c_line c) Hin Sn).
  unfold c_bbox in Far.
  assert (Z0 : (Qabs (by0 (l_bbox (c_line c)) - by0 (l_bbox (c_line c))) == 0)%Q).
  { setoid_replace (by0 (l_bbox (c_line c)) - by0 (l_bbox (c_line c)))%Q with 0%Q
      by ring. reflexivity. }
  rewrite Z0 in Far. apply Qlt_not_le in Far. apply Far. discriminate.
Qed.

Lemma candidates_avoid_serial_lines_witness :
  let sp := fun t sz b =>
              mk_span (Some (T t)) (Some sz) (Some (if b : bool then 16 else 0)%Z) in
  let rl := fun t sz b x0 y0 x1 y1 =>
              mk_raw_line (Some [sp t sz b]) (Some (mk_bbox x0 y0 x1 y1)) in
  let pages :=
    [mk_page 792
       (Some [mk_block
                (Some [rl "Scope of Work"%string 18%Q true 50 100 300 120;
                       rl "the work covers the following items in detail."%string
                          10%Q false 50 140 500 152;
                       rl "Sr. No."%string 10%Q true 50 300 90 312])])]%Q in
  let a := read_pages 0 pages acc0 in
  length (heading_candidates a []) = 1
  /\ is_serial_number (T "Scope of Work") = false.
Proof.
  intros sp rl pages a. split; [vm_compute; reflexivity|].
  assert (E : exists c0, heading_candidates a [] = [c0]
                         /\ c_text c0 = T "Scope of Work")
    by (eexists; split; vm_compute; reflexivity).
  destruct E as [c0 [E Et]]. rewrite <- Et.
  assert (Hin : In c0 (heading_candidates a [])) by (rewrite E; left; reflexivity).
  exact (proj1 (@candidates_avoid_serial_lines a [] c0 Hin)).
Defined.

(** ** Candidate filters (lines 242-383) *)

Lemma hfilter_loop_keys : forall rest i skip kept final,
  hfilter_loop i rest skip = (kept, final) ->
  StronglySorted (fun a b : nat * candidate => fst a < fst b) kept
  /\ forall a, In a kept -> i <= fst a.
Proof.
  induction rest as [|current rest IH]; intros i skip kept final H.
  - simpl in H. inversion H; subst. split; [constructor | contradiction].
  - rewrite hfilter_loop_cons in H. destruct (mem_nat i skip).
    + destruct (IH _ _ _ _ H) as [H1 H2]. split; [exact H1|].
      intros a Ha. specialize (H2 a Ha). lia.
    + destruct (scan_neighbors skip current (S i) rest) as [|j js].
      * destruct (hfilter_loop (S i) rest skip) as [kept0 final0] eqn:L.
        inversion H; subst. destruct (IH _ _ _ _ L) as [H1 H2]. split.
        -- constructor; [exact H1|]. apply Forall_forall. intros a Ha.
           specialize (H2 a Ha). simpl. lia.
        -- intros a [Ha|Ha]; [subst a; simpl; lia | specialize (H2 a Ha); lia].
      * destruct (IH _ _ _ _ H) as [H1 H2]. split; [exact H1|].
        intros a Ha. specialize (H2 a Ha). lia.
Qed.

(** X8.  [filter_horizontal_table_headers] returns fewer than two
    candidates unchanged; otherwise its output consists of input
    candidates, is in the order of (page, Y, X), and no candidate of the
    output sits beside an earlier one (same page, Y within 10, left edge
    at least 50 past the other's right edge). *)
Theorem horizontal_filter_output : forall candidates,
  (length candidates < 2 ->
   filter_horizontal_table_headers candidates = candidates)
  /\ (forall c, In c (filter_horizontal_table_headers candidates) -> In c candidates)
  /\ (2 <= length candidates ->
      StronglySorted (fun a b => pos_le a b /\ ~ side_by_side a b)
                     (filter_horizontal_table_headers candidates)).
Proof.
  intro cands. split; [|split].
  - intro H. unfold filter_horizontal_table_headers.
    replace (length cands <? 2) with true by (symmetry; apply Nat.ltb_lt; exact H).
    reflexivity.
  - apply filter_horizontal_In.
  - intro H. unfold filter_horizontal_table_headers.
    replace (length cands <? 2) with false by (symmetry; apply Nat.ltb_ge; exact H).
    destruct (hfilter_loop 0 (candidates_sorted cands) []) as [kept final] eqn:L.
    simpl fst.
    pose proof (candidates_sorted_sorted cands) as Hs.
    pose proof (@hfilter_loop_post (candidates_sorted cands) [] [] kept final Hs L) as P.
    simpl in P. destruct P as [_ [_ [_ [P3 [P4 _]]]]].
    destruct (hfilter_loop_keys _ _ _ L) as [K _].
    apply StronglySorted_map_in with (R := fun a b : nat * candidate => fst a < fst b);
      [|exact K].
    intros [k1 c1] [k2 c2] H1 H2 Hlt. simpl in Hlt. simpl snd.
    destruct (P4 _ _ H1) as [_ [N1 F1]]. destruct (P4 _ _ H2) as [_ [N2 F2]].
    split.
    + eapply (StronglySorted_nth Hs Hlt); eassumption.
    + intro Sb. apply F2. apply (P3 k1 k2); [lia | exact F1|].
      split; [exact Hlt|]. exists c1, c2. auto.
Qed.

Lemma text_to_index_spec : forall ls t i,
  match text_to_index t i ls with
  | Some k =>
      i <= k
      /\ (exists l, nth_error ls (k - i) = Some l /\ l_text l = t)
      /\ (forall j l, k - i < j -> nth_error ls j = Some l -> l_text l <> t)
  | None => forall l, In l ls -> l_text l <> t
  end.
Proof.
  induction ls as [|x r IH]; intros t i; [simpl; intros l []|].
  simpl. specialize (IH t (S i)).
  destruct (text_to_index t (S i) r) as [k|].
  - destruct IH as [H1 [[l [H2 H3]] H4]]. split; [lia|]. split.
    + exists l. split; [|exact H3].
      replace (k - i) with (S (k - S i)) by lia. exact H2.
    + intros j l0 Hj Hl. destruct j as [|j]; [lia|]. simpl in Hl.
      apply (H4 j l0); [lia | exact Hl].
  - destruct (text_eqb (l_text x) t) eqn:E.
    + apply text_eqb_eq in E. split; [lia|]. split.
      * exists x. rewrite Nat.sub_diag. auto.
      * intros j l Hj Hl. rewrite Nat.sub_diag in Hj.
        destruct j as [|j]; [lia|]. simpl in Hl.
        apply IH. eapply nth_error_In. exact Hl.
    + apply text_eqb_neq in E. intros l [Hl|Hl]; [subst l; exact E | apply IH; exact Hl].
Qed.

(** X9.  The index that [filter_headings_with_content] looks a heading
    text up with is that of the last line carrying the text: the line at
    the index has the text and no later line has it; and a text is
    missing from the index exactly when no line has it. *)
Theorem text_to_index_is_last : forall all_lines t,
  match text_to_index t 0 all_lines with
  | Some k =>
      (exists l, nth_error all_lines k = Some l /\ l_text l = t)
      /\ (forall j l, k < j -> nth_error all_lines j = Some l -> l_text l <> t)
  | None => forall l, In l all_lines -> l_text l <> t
  end.
Proof.
  intros ls t. pose proof (text_to_index_spec ls t 0) as H.
  destruct (text_to_index t 0 ls) as [k|]; [|exact H].
  rewrite Nat.sub_0_r in H. tauto.
Qed.

Lemma paragraph_scan_cons : forall hp ct k x r,
  paragraph_scan hp ct k (x :: r)
  = if 15 <=? k then false
    else if hp + 2 <? l_page x then false
    else if mem_text (l_text x) ct then paragraph_scan hp ct (S k) r
    else if is_paragraph_content (l_text x) then true
    else paragraph_scan hp ct (S k) r.
Proof. reflexivity. Qed.

Lemma paragraph_scan_true : forall rest hp ct k,
  paragraph_scan hp ct k rest = true <->
  exists j l,
    k + j < 15 /\ nth_error rest j = Some l
    /\ is_paragraph_content (l_text l) = true
    /\ mem_text (l_text l) ct = false
    /\ forall j' l', j' <= j -> nth_error rest j' = Some l' -> l_page l' <= hp + 2.
Proof.
  induction rest as [|x r IH]; intros hp ct k.
  - simpl. split; [discriminate|]. intros [j [l [_ [H _]]]]. destruct j; discriminate.
  - rewrite paragraph_scan_cons.
    assert (Shift : (exists j l,
                        S k + j < 15 /\ nth_error r j = Some l
                        /\ is_paragraph_content (l_text l) = true
                        /\ mem_text (l_text l) ct = false
                        /\ forall j' l', j' <= j -> nth_error r j' = Some l' ->
                                         l_page l' <= hp + 2)
                    -> l_page x <= hp + 2 ->
                    exists j l,
                      k + j < 15 /\ nth_error (x :: r) j = Some l
                      /\ is_paragraph_content (l_text l) = true
                      /\ mem_text (l_text l) ct = false
                      /\ forall j' l', j' <= j -> nth_error (x :: r) j' = Some l' ->
                                       l_page l' <= hp + 2).
    { intros [j [l [H1 [H2 [H3 [H4 H5]]]]]] Hx. exists (S j), l.
      split; [lia|]. split; [exact H2|]. split; [exact H3|]. split; [exact H4|].
      intros j' l' Hj' Hl'. destruct j' as [|j'].
      - simpl in Hl'. inversion Hl'; subst. exact Hx.
      - simpl in Hl'. apply (H5 j' l'); [lia | exact Hl']. }
    assert (Unshift : forall j l,
               k + S j < 15 -> nth_error (x :: r) (S j) = Some l ->
               is_paragraph_content (l_text l) = true ->
               mem_text (l_text l) ct = false ->
               (forall j' l', j' <= S j -> nth_error (x :: r) j' = Some l' ->
                              l_page l' <= hp + 2) ->
               exists j l,
                 S k + j < 15 /\ nth_error r j = Some l
                 /\ is_paragraph_content (l_text l) = true
                 /\ mem_text (l_text l) ct = false
                 /\ forall j' l', j' <= j -> nth_error r j' = Some l' ->
                                  l_page l' <= hp + 2).
    { intros j l H1 H2 H3 H4 H5. exists j, l.
      split; [lia|]. split; [exact H2|]. split; [exact H3|]. split; [exact H4|].
      intros j' l' Hj' Hl'. apply (H5 (S j') l'); [lia | exact Hl']. }
    destruct (15 <=? k) eqn:K.
    { apply Nat.leb_le in K. split; [discriminate|].
      intros [j [l [H _]]]. lia. }
    apply Nat.leb_gt in K.
    destruct (hp + 2 <? l_page x) eqn:Pg.
    { apply Nat.ltb_lt in Pg. split; [discriminate|].
      intros [j [l [_ [_ [_ [_ H]]]]]].
      specialize (H 0 x (Nat.le_0_l j) eq_refl). lia. }
    apply Nat.ltb_ge in Pg.
    destruct (mem_text (l_text x) ct) eqn:M.
    { rewrite IH. split.
      - intro H. apply Shift; assumption.
      - intros [j [l [H1 [H2 [H3 [H4 H5]]]]]]. destruct j as [|j].
        + simpl in H2. inversion H2; subst. congruence.
        + eapply Unshift; eassumption. }
    destruct (is_paragraph_content (l_text x)) eqn:Pc.
    { split; [|reflexivity]. intros _. exists 0, x.
      split; [lia|]. split; [reflexivity|]. split; [exact Pc|]. split; [exact M|].
      intros j' l' Hj' Hl'. destruct j'; [|lia].
      simpl in Hl'. inversion Hl'; subst. exact Pg. }
    rewrite IH. split.
    + intro H. apply Shift; assumption.
    + intros [j [l [H1 [H2 [H3 [H4 H5]]]]]]. destruct j as [|j].
      * simpl in H2. inversion H2; subst. congruence.
      * eapply Unshift; eassumption.
Qed.

(** X10.  [has_paragraph_below] answers true exactly when the heading
    index is in range and one of the 15 lines that follow it is
    paragraph content whose text is not the text of a candidate, every
    line from the heading up to that one lying at most 2 pages past the
    heading's page. *)
Theorem has_paragraph_below_iff : forall heading_idx all_lines candidates,
  has_paragraph_below heading_idx all_lines candidates = true <->
  exists heading j l,
    nth_error all_lines heading_idx = Some heading
    /\ j < 15
    /\ nth_error all_lines (heading_idx + 1 + j) = Some l
    /\ is_paragraph_content (l_text l) = true
    /\ ~ In (l_text l) (map c_text candidates)
    /\ forall j' l', j' <= j ->
                     nth_error all_lines (heading_idx + 1 + j') = Some l' ->
                     l_page l' <= l_page heading + 2.
Proof.
  intros idx ls cands. unfold has_paragraph_below.
  assert (Nth : forall j, nth_error (skipn (S idx) ls) j = nth_error ls (idx + 1 + j)).
  { intro j. rewrite nth_error_skipn. f_equal. lia. }
  destruct (nth_error ls idx) as [heading|].
  - rewrite paragraph_scan_true. split.
    + intros [j [l [H1 [H2 [H3 [H4 H5]]]]]]. exists heading, j, l.
      split; [reflexivity|]. split; [lia|]. split; [rewrite <- Nth; exact H2|].
      split; [exact H3|]. split.
      * intro X. apply mem_text_In in X. congruence.
      * intros j' l' Hj' Hl'. apply (H5 j' l'); [exact Hj' | rewrite Nth; exact Hl'].
    + intros [h [j [l [E [H1 [H2 [H3 [H4 H5]]]]]]]]. inversion E; subst h.
      exists j, l. split; [lia|]. split; [rewrite Nth; exact H2|].
      split; [exact H3|]. split.
      * destruct (mem_text (l_text l) (map c_text cands)) eqn:M; [|reflexivity].
        apply mem_text_In in M. contradiction.
      * intros j' l' Hj' Hl'. apply (H5 j' l'); [exact Hj' | rewrite <- Nth; exact Hl'].
  - split; [discriminate|]. intros [h [_ [_ [E _]]]]. discriminate.
Qed.

(** ** Title extraction (lines 386-468) *)

Lemma traverse_none : forall (A B : Type) (f : A -> option B) l,
  traverse f l = None <-> exists x, In x l /\ f x = None.
Proof.
  induction l as [|a r IH]; simpl.
  - split; [discriminate | intros [x [[] _]]].
  - destruct (f a) eqn:E.
    + destruct (traverse f r) as [bs|].
      * split; [discriminate|]. intros [x [[Hx|Hx] Hn]]; [subst; congruence|].
        assert (X : Some bs = None) by (apply IH; exists x; auto). discriminate X.
      * split; [intros _ | reflexivity].
        destruct (proj1 IH eq_refl) as [x [Hx Hn]]. exists x. auto.
    + split; [intros _; exists a; auto | reflexivity].
Qed.

Lemma title_score_none : forall m s e,
  title_score m s e = None <-> Qeq_bool s 0 = true.
Proof.
  intros m s e. unfold title_score. cbv zeta.
  destruct (Qeq_bool s 0); split; try discriminate; reflexivity.
Qed.

Lemma title_score_text : forall m s e sc t z,
  title_score m s e = Some (sc, t, z) ->
  t = normalize_text (l_text e) /\ z = l_size e.
Proof.
  intros m s e sc t z. unfold title_score. cbv zeta.
  destruct (Qeq_bool s 0); [discriminate|]. intro H. inversion H. auto.
Qed.

Lemma best_scored_none : forall m h largest,
  best_scored m h largest = None <->
  largest <> [] /\ Qeq_bool (sixty_percent h) 0 = true.
Proof.
  intros m h largest. unfold best_scored.
  destruct (traverse (title_score m (sixty_percent h)) largest) as [sc|] eqn:Tr.
  - split.
    + destruct (stable_sort scored_geb sc) as [|[[? ?] ?] ?]; discriminate.
    + intros [Hne Hz]. exfalso. destruct largest as [|x r]; [congruence|].
      simpl in Tr. rewrite (proj2 (title_score_none m (sixty_percent h) x) Hz) in Tr.
      discriminate Tr.
  - split; [intros _ | reflexivity].
    apply traverse_none in Tr. destruct Tr as [x [Hx Hn]].
    apply title_score_none in Hn. split; [|exact Hn].
    intro E. subst largest. contradiction.
Qed.

Lemma largest_candidates_In : forall fpe h e,
  In e (largest_candidates (title_candidates fpe h)) ->
  In e fpe
  /\ (by0 (l_bbox e) <= sixty_percent h)%Q
  /\ title_ok e = true
  /\ (Qmax_list 0 (map l_size (title_candidates fpe h)) - 1 <= l_size e)%Q.
Proof.
  intros fpe h e H. unfold largest_candidates in H.
  apply filter_In in H. destruct H as [H1 H2].
  unfold Qgeb in H2. apply Qle_bool_iff in H2.
  unfold title_candidates in H1. apply filter_In in H1. destruct H1 as [H1 H3].
  unfold top_section_elements in H1. apply filter_In in H1. destruct H1 as [H1 H4].
  apply Qle_bool_iff in H4. auto.
Qed.

Lemma extract_title_unfold : forall fpe m h,
  extract_title fpe m h
  = match largest_candidates (title_candidates fpe h) with
    | [] => Some []
    | [e] => Some (capitalize_first_letter (l_text e))
    | largest => best_scored m h largest
    end.
Proof.
  intros fpe m h. unfold extract_title.
  destruct fpe as [|e0 r0]; [reflexivity|].
  unfold title_candidates.
  destruct (top_section_elements (e0 :: r0) h) as [|t1 tr]; [reflexivity|].
  destruct (filter title_ok (t1 :: tr)) as [|c1 cr]; [reflexivity|].
  destruct (largest_candidates (c1 :: cr)) as [|a [|b l]]; reflexivity.
Qed.

Lemma extract_title_origin : forall fpe m h t,
  extract_title fpe m h = Some t ->
  t = []
  \/ exists e,
      In e (largest_candidates (title_candidates fpe h))
      /\ (t = capitalize_first_letter (l_text e)
          \/ t = capitalize_first_letter (normalize_text (l_text e))).
Proof.
  intros fpe m h t. rewrite extract_title_unfold.
  destruct (largest_candidates (title_candidates fpe h)) as [|a [|b l]] eqn:Lg.
  - intro H. inversion H. left. reflexivity.
  - intro H. inversion H. right. exists a. split; [left; reflexivity | left; reflexivity].
  - unfold best_scored.
    destruct (traverse (title_score m (sixty_percent h)) (a :: b :: l)) as [sc|] eqn:Tr;
      [|discriminate].
    destruct (stable_sort scored_geb sc) as [|[[s0 t0] z0] rest] eqn:St.
    + intro H. inversion H. left. reflexivity.
    + intro H. inversion H. right.
      assert (Hin : In (s0, t0, z0) sc).
      { apply (stable_sort_In scored_geb sc). rewrite St. left. reflexivity. }
      destruct (@traverse_In _ _ _ _ _ _ Tr Hin) as [e [He Hs]].
      apply title_score_text in Hs. destruct Hs as [Ht _].
      exists e. split; [exact He|]. right. rewrite Ht. reflexivity.
Qed.

(** X11.  [extract_title] raises (the division of line 437) exactly when
    60% of the page height is zero and at least two title candidates are
    within one point of the largest size; in every other case it returns
    a text. *)
Theorem extract_title_raises_iff : forall first_page_elements median_size page_height,
  extract_title first_page_elements median_size page_height = None <->
  (sixty_percent page_height == 0)%Q
  /\ 2 <= length (largest_candidates
                    (title_candidates first_page_elements page_height)).
Proof.
  intros fpe m h. rewrite extract_title_unfold.
  destruct (largest_candidates (title_candidates fpe h)) as [|a [|b l]].
  - split; [discriminate|]. intros [_ H]. simpl in H. lia.
  - split; [discriminate|]. intros [_ H]. simpl in H. lia.
  - rewrite best_scored_none. rewrite Qeq_bool_iff. split.
    + intros [_ H]. split; [exact H | simpl; lia].
    + intros [H _]. split; [discriminate | exact H].
Qed.

(** ** Reading the document (lines 474-531) *)

Lemma read_line_cases : forall pn a rl,
  read_line pn a rl = a
  \/ exists t bb spans,
      t <> [] /\ is_noise_content t = false
      /\ read_line pn a rl
         = let ld := mk_line (normalize_text t) (Qmax_list 0 (span_sizes spans))
                             (existsb span_bold spans) bb pn spans in
           mk_acc (all_lines a ++ [ld])
                  (if pn =? 0 then first_page_elements a ++ [ld]
                   else first_page_elements a)
                  (font_sizes a ++ [l_size ld])
                  (if l_is_bold ld then S (bold_count a) else bold_count a).
Proof.
  intros pn a rl. unfold read_line.
  destruct (rl_spans rl) as [[|s sp]|]; [left; reflexivity | | left; reflexivity].
  destruct (joined_text (s :: sp)) as [|c t] eqn:J; [left; reflexivity|].
  destruct (is_noise_content (c :: t)) eqn:N; [left; reflexivity|].
  destruct (span_sizes (s :: sp)) as [|z zs] eqn:Sz; [left; reflexivity|].
  right. exists (c :: t).
  exists (match rl_bbox rl with Some b => b | None => mk_bbox 0 0 0 0 end).
  exists (s :: sp). split; [discriminate|]. split; [exact N|].
  cbv zeta. rewrite Sz. reflexivity.
Qed.

Lemma read_pages_inv : forall (I : nat -> acc -> Prop),
  (forall pn a, I pn a -> I (S pn) a) ->
  (forall pn a rl, I (S pn) a -> I (S pn) (read_line pn a rl)) ->
  forall pages n a, I n a -> I (n + length pages) (read_pages n pages a).
Proof.
  intros I Up Step. induction pages as [|p ps IH]; intros n a Ha; simpl.
  - rewrite Nat.add_0_r. exact Ha.
  - rewrite Nat.add_succ_r. apply (IH (S n)).
    assert (L : forall ls b, I (S n) b -> I (S n) (fold_left (read_line n) ls b)).
    { induction ls as [|x ls IHl]; intros b Hb; simpl; [exact Hb|].
      apply IHl. apply Step. exact Hb. }
    assert (B : forall bs b, I (S n) b -> I (S n) (fold_left (read_block n) bs b)).
    { induction bs as [|x bs IHb]; intros b Hb; simpl; [exact Hb|].
      apply IHb. unfold read_block. destruct (blk_lines x); [apply L|]; exact Hb. }
    unfold read_page. destruct (pg_blocks p); [apply B|]; apply Up; exact Ha.
Qed.

Lemma StronglySorted_snoc : forall (A : Type) (R : A -> A -> Prop) l y,
  StronglySorted R l -> Forall (fun x => R x y) l -> StronglySorted R (l ++ [y]).
Proof.
  intros A R l y Hs. induction Hs as [|a l Hs IH Ha]; intro Hf; simpl.
  - constructor; constructor.
  - inversion Hf; subst. constructor; [apply IH; assumption|].
    apply Forall_app. split; [exact Ha | constructor; [assumption | constructor]].
Qed.

Lemma read_font_sizes : forall pages,
  font_sizes (read_pages 0 pages acc0)
  = map l_size (all_lines (read_pages 0 pages acc0)).
Proof.
  intro pages.
  apply (read_pages_inv (fun _ a => font_sizes a = map l_size (all_lines a)));
    [auto | | reflexivity].
  intros pn a rl H.
  destruct (read_line_cases pn a rl) as [E|[t [bb [sp [_ [_ E]]]]]];
    rewrite E; [exact H|].
  cbv zeta. cbn [all_lines font_sizes]. rewrite map_app, H. reflexivity.
Qed.

Lemma read_first_page : forall pages,
  first_page_elements (read_pages 0 pages acc0)
  = filter (fun l => l_page l =? 0) (all_lines (read_pages 0 pages acc0)).
Proof.
  intro pages.
  apply (read_pages_inv
           (fun _ a => first_page_elements a
                       = filter (fun l => l_page l =? 0) (all_lines a)));
    [auto | | reflexivity].
  intros pn a rl H.
  destruct (read_line_cases pn a rl) as [E|[t [bb [sp [_ [_ E]]]]]];
    rewrite E; [exact H|].
  cbv zeta. cbn [all_lines first_page_elements]. rewrite filter_app.
  cbn [filter l_page]. rewrite <- H. destruct (pn =? 0); [reflexivity|].
  rewrite app_nil_r. reflexivity.
Qed.

Lemma read_lines_shape : forall pages,
  Forall (fun l => l_page l < length pages
                   /\ l_size l = Qmax_list 0 (span_sizes (l_spans l))
                   /\ l_is_bold l = existsb span_bold (l_spans l)
                   /\ normalize_text (l_text l) = l_text l
                   /\ is_noise_content (l_text l) = false)
         (all_lines (read_pages 0 pages acc0)).
Proof.
  intro pages.
  apply (read_pages_inv
           (fun k a =>
              Forall (fun l => l_page l < k
                               /\ l_size l = Qmax_list 0 (span_sizes (l_spans l))
                               /\ l_is_bold l = existsb span_bold (l_spans l)
                               /\ normalize_text (l_text l) = l_text l
                               /\ is_noise_content (l_text l) = false)
                     (all_lines a)) ) with (n := 0) (a := acc0); [| |constructor].
  - intros pn a H. eapply Forall_impl; [|exact H].
    intros l [H1 H2]. split; [lia | exact H2].
  - intros pn a rl H.
    destruct (read_line_cases pn a rl) as [E|[t [bb [sp [_ [N E]]]]]];
      rewrite E; [exact H|].
    cbv zeta. cbn [all_lines]. apply Forall_app. split; [exact H|].
    constructor; [|constructor]. cbn [l_page l_size l_is_bold l_spans l_text].
    split; [lia|]. split; [reflexivity|]. split; [reflexivity|]. split.
    + apply (proj1 (tidy_fixed (tidy_normalize t))).
    + rewrite noise_normalized. exact N.
Qed.

(** X12.  After the pages are read: [font_sizes] holds the sizes of
    [all_lines] in the same order, [first_page_elements] is the lines of
    page 0 in the order of [all_lines], [bold_count] counts the bold
    lines, the lines are in the order of their pages, and every line has
    a page number below the number of pages, the largest size of its
    spans as size, is bold when one of its spans is, and carries a
    normalized text that is not noise. *)
Theorem read_document_invariants : forall pages,
  let a := read_pages 0 pages acc0 in
  font_sizes a = map l_size (all_lines a)
  /\ first_page_elements a = filter (fun l => l_page l =? 0) (all_lines a)
  /\ bold_count a = length (filter l_is_bold (all_lines a))
  /\ StronglySorted (fun x y => l_page x <= l_page y) (all_lines a)
  /\ Forall (fun l => l_page l < length pages
                      /\ l_size l = Qmax_list 0 (span_sizes (l_spans l))
                      /\ l_is_bold l = existsb span_bold (l_spans l)
                      /\ normalize_text (l_text l) = l_text l
                      /\ is_noise_content (l_text l) = false)
            (all_lines a).
Proof.
  intro pages. cbv zeta. split; [|split; [|split; [|split]]].
  - apply read_font_sizes.
  - apply read_first_page.
  - apply (read_pages_inv
             (fun _ a => bold_count a = length (filter l_is_bold (all_lines a))));
      [auto | | reflexivity].
    intros pn a rl H.
    destruct (read_line_cases pn a rl) as [E|[t [bb [sp [_ [_ E]]]]]];
      rewrite E; [exact H|].
    cbv zeta. cbn [all_lines bold_count l_is_bold]. rewrite filter_app, length_app.
    cbn [filter l_is_bold]. destruct (existsb span_bold sp); simpl; lia.
  - assert (X : StronglySorted (fun x y => l_page x <= l_page y)
                               (all_lines (read_pages 0 pages acc0))
                /\ Forall (fun l => l_page l < 0 + length pages)
                          (all_lines (read_pages 0 pages acc0))).
    { apply (read_pages_inv
               (fun k a =>
                  StronglySorted (fun x y => l_page x <= l_page y) (all_lines a)
                  /\ Forall (fun l => l_page l < k) (all_lines a)));
        [| | split; constructor].
      - intros pn a [H1 H2]. split; [exact H1|].
        eapply Forall_impl; [|exact H2]. intros l Hl. simpl in Hl. lia.
      - intros pn a rl [H1 H2].
        destruct (read_line_cases pn a rl) as [E|[t [bb [sp [_ [_ E]]]]]];
          rewrite E; [split; assumption|].
        cbv zeta. cbn [all_lines]. split.
        + apply StronglySorted_snoc; [exact H1|].
          eapply Forall_impl; [|exact H2]. intros l Hl. simpl in *. lia.
        + apply Forall_app. split; [exact H2|].
          constructor; [simpl; lia | constructor]. }
    exact (proj1 X).
  - apply read_lines_shape.
Qed.

(** X13.  The title that [extract_pdf_outline] returns is empty or the
    text, with its first letter capitalised, of a line of page 0 whose
    top Y is at most 60% of the height of the first page, whose text is
    a valid title, and whose size is within one point of the largest
    size among such lines. *)
Theorem document_title_origin : forall fit_predict doc,
  let r := extract_pdf_outline fit_predict doc in
  title r = []
  \/ exists pages l,
      doc = Some pages
      /\ In l (extracted_lines doc)
      /\ l_page l = 0
      /\ (by0 (l_bbox l) <= sixty_percent (first_page_height pages))%Q
      /\ is_valid_title (l_text l) = true
      /\ (forall l', In l' (extracted_lines doc) -> l_page l' = 0 ->
                     (by0 (l_bbox l') <= sixty_percent (first_page_height pages))%Q ->
                     title_ok l' = true -> (l_size l' - 1 <= l_size l)%Q)
      /\ title r = capitalize_first_letter (l_text l).
Proof.
  intros fp doc. cbv zeta. unfold extract_pdf_outline.
  destruct (outline_of fp doc) as [r|] eqn:O; [|left; reflexivity].
  unfold outline_of in O. destruct doc as [pages|]; [|discriminate].
  cbv zeta in O.
  pose proof (read_first_page pages) as Fp.
  pose proof (read_lines_shape pages) as Sh.
  set (a := read_pages 0 pages acc0) in *.
  destruct (all_lines a) as [|l0 ls] eqn:Al.
  { inversion O. left. reflexivity. }
  rewrite <- Al in *.
  match type of O with
  | match ?e with _ => _ end = _ => destruct e as [t|] eqn:Et; [|discriminate]
  end.
  assert (Tr : title r = t).
  { destruct (font_sizes a); [inversion O; reflexivity|].
    apply assemble_cases in O. exact (proj1 O). }
  rewrite Tr.
  destruct (extract_title_origin _ _ _ Et) as [E|[e [He Hc]]]; [left; exact E|].
  right. exists pages, e.
  destruct (largest_candidates_In _ _ _ He) as [H1 [H2 [H3 H4]]].
  rewrite Fp in H1. apply filter_In in H1. destruct H1 as [H1 H5].
  apply Nat.eqb_eq in H5.
  pose proof (proj1 (Forall_forall _ _) Sh e H1) as [_ [_ [_ [Nm _]]]].
  split; [reflexivity|]. split; [exact H1|]. split; [exact H5|]. split; [exact H2|].
  split; [|split].
  - unfold title_ok in H3. apply andb_true_iff in H3. rewrite Nm in H3. exact (proj1 H3).
  - intros l' Hl' Pg Hy Ok.
    assert (In l' (title_candidates (first_page_elements a) (first_page_height pages))).
    { unfold title_candidates. apply filter_In. split; [|exact Ok].
      unfold top_section_elements. apply filter_In. split.
      - rewrite Fp. apply filter_In. split; [exact Hl' | apply Nat.eqb_eq; exact Pg].
      - apply Qle_bool_iff. exact Hy. }
    assert (Hm : (l_size l' <= Qmax_list 0 (map l_size
                    (title_candidates (first_page_elements a)
                                      (first_page_height pages))))%Q).
    { apply Qmax_list_spec; [|apply in_map; assumption].
      intro X. apply (in_map l_size) in H. rewrite X in H. contradiction. }
    lra.
  - destruct Hc as [Hc|Hc]; [exact Hc | rewrite Nm in Hc; exact Hc].
Qed.

(** ** Levels and the outline (lines 605-661) *)

Lemma group_add_keys : forall (A : Type) k (a : A) m,
  map fst (group_add Nat.eqb k a m)
  = if existsb (Nat.eqb k) (map fst m) then map fst m else map fst m ++ [k].
Proof.
  intros A k a. induction m as [|[k' vs] m IH]; simpl; [reflexivity|].
  destruct (k =? k') eqn:E; simpl; [reflexivity|].
  rewrite IH. destruct (existsb (Nat.eqb k) (map fst m)); reflexivity.
Qed.

Lemma group_add_keys_spec : forall (A : Type) k (a : A) m,
  (forall x, In x (map fst (group_add Nat.eqb k a m)) <-> In x (map fst m) \/ x = k)
  /\ (NoDup (map fst m) -> NoDup (map fst (group_add Nat.eqb k a m))).
Proof.
  intros A k a m. rewrite group_add_keys.
  destruct (existsb (Nat.eqb k) (map fst m)) eqn:E.
  - apply existsb_exists in E. destruct E as [y [Hy E]].
    apply Nat.eqb_eq in E. subst y. split; [|auto].
    intro x. split; [auto|]. intros [H|H]; [exact H | subst x; exact Hy].
  - assert (Hn : ~ In k (map fst m)).
    { intro Hk. assert (X : existsb (Nat.eqb k) (map fst m) = true).
      { apply existsb_exists. exists k. split; [exact Hk | apply Nat.eqb_refl]. }
      congruence. }
    split.
    + intro x. rewrite in_app_iff. simpl. intuition.
    + intro Nd. apply (Permutation_NoDup (l := k :: map fst m)).
      * apply Permutation_cons_append.
      * constructor; assumption.
Qed.

Lemma cluster_sizes_keys : forall labels candidates m sizes,
  cluster_sizes labels candidates m = Some sizes ->
  (forall x, In x (map fst sizes) <-> In x (map fst m) \/ In x labels)
  /\ (NoDup (map fst m) -> NoDup (map fst sizes))
  /\ length labels <= length candidates.
Proof.
  induction labels as [|label ls IH]; intros cands m sizes H; simpl in H.
  - inversion H; subst. split; [|split; [auto | simpl; lia]].
    intro x. simpl. tauto.
  - destruct cands as [|c cs]; [discriminate|].
    destruct (IH _ _ _ H) as [H1 [H2 H3]].
    destruct (group_add_keys_spec label (c_size c) m) as [G1 G2].
    split; [|split; [auto | simpl; lia]].
    intro x. rewrite H1, G1. simpl. intuition.
Qed.


Lemma lookup_level_map_nth : forall clusters i k a,
  NoDup clusters -> nth_error clusters k = Some a ->
  lookup Nat.eqb a (level_map_from i clusters) = Some (Nat.min (i + k + 1) 3).
Proof.
  induction clusters as [|c cl IH]; intros i k a Nd Hk; [destruct k; discriminate|].
  inversion Nd; subst. destruct k as [|k]; simpl in Hk.
  - inversion Hk; subst. simpl. rewrite Nat.eqb_refl. do 2 f_equal. lia.
  - simpl. destruct (a =? c) eqn:E.
    + apply Nat.eqb_eq in E. subst c. exfalso. apply H1.
      eapply nth_error_In. exact Hk.
    + rewrite (@IH (S i) k a H2 Hk). do 2 f_equal. lia.
Qed.

Lemma sorted_clusters_spec : forall labels candidates sizes,
  cluster_sizes labels candidates [] = Some sizes ->
  NoDup (sorted_clusters sizes)
  /\ forall x, In x (sorted_clusters sizes) <-> In x labels.
Proof.
  intros labels cands sizes H.
  destruct (@cluster_sizes_keys _ _ _ _ H) as [H1 [H2 _]]. split.
  - apply (Permutation_NoDup (l := map fst sizes)).
    + apply Permutation_sym. apply stable_sort_perm.
    + apply H2. constructor.
  - intro x. unfold sorted_clusters. rewrite stable_sort_In. rewrite H1.
    simpl. tauto.
Qed.

Lemma levels_of_none : forall lm candidates labels,
  (forall label, In label labels -> exists lv, lookup Nat.eqb label lm = Some lv) ->
  (levels_of labels lm candidates = None <-> length labels < length candidates).
Proof.
  intros lm. induction candidates as [|c cs IH]; intros labels Hl.
  - destruct labels; simpl; split; try discriminate; lia.
  - destruct labels as [|label ls]; simpl; [split; [lia | reflexivity]|].
    destruct (Hl label (or_introl eq_refl)) as [lv L]. rewrite L.
    assert (Hl' : forall label, In label ls ->
                                exists lv, lookup Nat.eqb label lm = Some lv)
      by (intros x Hx; apply Hl; right; exact Hx).
    specialize (IH ls Hl').
    destruct (levels_of ls lm cs).
    + split; [discriminate|]. intro X.
      assert (Y : Some l = None) by (apply IH; lia). discriminate Y.
    + split; [intros _ | reflexivity]. pose proof (proj1 IH eq_refl). lia.
Qed.

Lemma levels_of_labels : forall lm candidates labels leveled,
  levels_of labels lm candidates = Some leveled ->
  map fst leveled = candidates
  /\ (length labels = length candidates ->
      forall label, In label labels ->
                    exists c lv, In (c, lv) leveled
                                 /\ lookup Nat.eqb label lm = Some lv).
Proof.
  intros lm. induction candidates as [|c cs IH]; intros labels leveled H.
  - destruct labels; simpl in H; inversion H; subst.
    + split; [reflexivity|]. intros _ label [].
    + split; [reflexivity|]. simpl. discriminate.
  - destruct labels as [|label ls]; simpl in H; [discriminate|].
    destruct (lookup Nat.eqb label lm) as [lv0|] eqn:L; [|discriminate].
    destruct (levels_of ls lm cs) as [r|] eqn:R; [|discriminate].
    inversion H; subst. destruct (@IH _ _ R) as [H1 H2]. split.
    + simpl. rewrite H1. reflexivity.
    + intros Hlen x [Hx|Hx].
      * subst x. exists c, lv0. split; [left; reflexivity | exact L].
      * simpl in Hlen. destruct (H2 (eq_add_S _ _ Hlen) x Hx) as [c' [lv [Hc Hlv]]].
        exists c', lv. split; [right; exact Hc | exact Hlv].
Qed.

Lemma labels_have_levels : forall labels candidates sizes,
  cluster_sizes labels candidates [] = Some sizes ->
  forall label, In label labels ->
                exists lv, lookup Nat.eqb label (level_map sizes) = Some lv.
Proof.
  intros labels cands sizes H label Hl.
  destruct (@sorted_clusters_spec _ _ _ H) as [Nd Hin].
  apply Hin in Hl. apply In_nth_error in Hl. destruct Hl as [k Hk].
  exists (Nat.min (0 + k + 1) 3). unfold level_map.
  apply lookup_level_map_nth; assumption.
Qed.


(** X14.  When [assign_levels] succeeds it gives one level to every
    candidate, in the order of the candidates, and skips no level: if a
    candidate has level [lv], every level from 1 to [lv] is the level of
    some candidate; so a non-empty list of candidates always has an H1. *)
Theorem assigned_levels_skip_none : forall fit_predict candidates leveled,
  assign_levels fit_predict candidates = Some leveled ->
  map fst leveled = candidates
  /\ (forall c lv lv', In (c, lv) leveled -> 1 <= lv' <= lv ->
                       exists c', In (c', lv') leveled)
  /\ (candidates <> [] -> exists c, In (c, 1) leveled).
Proof.
  intros fp cands leveled H.
  assert (Core : map fst leveled = cands
                 /\ forall c lv lv', In (c, lv) leveled -> 1 <= lv' <= lv ->
                                     exists c', In (c', lv') leveled).
  { unfold assign_levels in H. destruct (2 <=? length cands).
    - destruct (fp (map features cands) (n_clusters cands)) as [labels|];
        [|discriminate].
      destruct (cluster_sizes labels cands []) as [sizes|] eqn:Cs; [|discriminate].
      destruct (@levels_of_labels _ _ _ _ H) as [H1 H2]. split; [exact H1|].
      assert (Hlen : length labels = length cands).
      { destruct (@cluster_sizes_keys _ _ _ _ Cs) as [_ [_ Hle]].
        destruct (Nat.lt_ge_cases (length labels) (length cands)) as [Hlt|Hge];
          [|lia].
        apply (proj2 (@levels_of_none _ cands _ (@labels_have_levels _ _ _ Cs))) in Hlt.
        congruence. }
      destruct (@sorted_clusters_spec _ _ _ Cs) as [Nd Hin].
      intros c lv lv' Hc Hlv.
      destruct (@levels_of_In _ _ _ _ _ _ H Hc) as [_ [label L]].
      unfold level_map in L. apply lookup_level_map_from in L.
      destruct L as [k [Hk Elv]].
      assert (Hk' : lv' - 1 < length (sorted_clusters sizes)).
      { assert (k < length (sorted_clusters sizes))
          by (apply nth_error_Some; congruence). lia. }
      destruct (nth_error (sorted_clusters sizes) (lv' - 1)) as [a'|] eqn:Na;
        [|apply nth_error_None in Na; lia].
      assert (Ha : In a' labels) by (apply Hin; eapply nth_error_In; exact Na).
      destruct (H2 Hlen a' Ha) as [c' [lv'' [Hc' L']]].
      unfold level_map in L'. rewrite (@lookup_level_map_nth _ 0 _ _ Nd Na) in L'.
      injection L' as E'. exists c'.
      assert (E'' : lv'' = lv') by lia. rewrite <- E''. exact Hc'.
    - inversion H; subst. split.
      + rewrite map_map. simpl. apply map_id.
      + intros c lv lv' Hc Hlv. apply in_map_iff in Hc.
        destruct Hc as [x [E Hx]]. inversion E; subst.
        exists c. replace lv' with 1 by lia. apply in_map_iff. exists c. auto. }
  destruct Core as [C1 C2]. split; [exact C1|]. split; [exact C2|].
  intro Hne. destruct leveled as [|[c lv] r].
  - simpl in C1. congruence.
  - assert (Hlv : 1 <= lv).
    { unfold assign_levels in H. destruct (2 <=? length cands).
      - destruct (fp (map features cands) (n_clusters cands)) as [labels|];
          [|discriminate].
        destruct (cluster_sizes labels cands []) as [sizes|]; [|discriminate].
        destruct (@levels_of_In _ _ _ _ c lv H (or_introl eq_refl)) as [_ [label L]].
        unfold level_map in L. apply lookup_level_map_from in L.
        destruct L as [k [_ L]]. lia.
      - destruct cands as [|c0 cs]; [discriminate|]. simpl in H. inversion H. lia. }
    apply (C2 c lv 1); [left; reflexivity | lia].
Qed.

Lemma assigned_levels_skip_none_witness :
  let cand := fun z => mk_candidate (mk_line (T "Scope") z true (mk_bbox 72 100 200 120) 0 [])
                                    4 0 (Fin z) in
  let candidates := [cand 12%Q; cand 18%Q; cand 16%Q] in
  let fit_predict := fun (_ : list (list Q)) (_ : nat) => Some [0; 1; 1] in
  let leveled := [(cand 12%Q, 2); (cand 18%Q, 1); (cand 16%Q, 1)] in
  assign_levels fit_predict candidates = Some leveled
  /\ map fst leveled = candidates.
Proof.
  intros cand candidates fit_predict leveled.
  assert (H : assign_levels fit_predict candidates = Some leveled)
    by (vm_compute; reflexivity).
  split; [exact H|].
  exact (proj1 (@assigned_levels_skip_none fit_predict candidates leveled H)).
Defined.






Lemma dedupe_sorted : forall (R : entry -> entry -> Prop) l seen,
  StronglySorted R l -> StronglySorted R (dedupe seen l).
Proof.
  intros R l. induction l as [|e l IH]; intros seen H; simpl; [constructor|].
  inversion H; subst. destruct (mem_text (seen_key e) seen); [apply IH; assumption|].
  constructor; [apply IH; assumption|].
  apply Forall_forall. intros x Hx. apply dedupe_sub in Hx.
  exact (proj1 (Forall_forall _ _) H3 x Hx).
Qed.

Lemma entry_key_le_page : forall candidates a b,
  entry_key_le candidates a b -> e_page a <= e_page b.
Proof.
  intros cands a b [ka [kb [Ha [Hb H]]]]. unfold outline_key in Ha, Hb.
  destruct (find _ cands); [|discriminate]. inversion Ha; subst ka.
  destruct (find _ cands); [|discriminate]. inversion Hb; subst kb.
  simpl in H. apply negb_true_iff, orb_false_iff in H. destruct H as [H _].
  apply Nat.ltb_ge in H. exact H.
Qed.

(** X16.  The outline that [extract_pdf_outline] returns is in the order
    of the pages, and every entry of it is made from a line of the
    document that is a valid heading: the entry has the line's text with
    the first letter capitalised, the line's page, and a level from 1
    to 3. *)
Theorem outline_in_page_order : forall fit_predict doc,
  let r := extract_pdf_outline fit_predict doc in
  StronglySorted (fun a b => e_page a <= e_page b) (outline r)
  /\ forall e, In e (outline r) ->
               exists l, In l (extracted_lines doc)
                         /\ e_text e = capitalize_first_letter (l_text l)
                         /\ e_page e = l_page l
                         /\ 1 <= e_level e <= 3
                         /\ is_valid_heading (l_text l) = true.
Proof.
  intros fp doc. cbv zeta.
  destruct (extract_cases fp doc) as [E|[pages [leveled [sorted H]]]].
  - rewrite E. split; [constructor | intros e []].
  - cbv zeta in H. destruct H as [Hd [_ [Al [So Ou]]]]. rewrite Ou.
    destruct (@sort_outline_sorted _ _ _ So) as [Pm St]. split.
    + apply dedupe_sorted. eapply StronglySorted_map_in with (f := fun x => x) in St.
      * rewrite map_id in St. exact St.
      * intros x y _ _ Hxy. eapply entry_key_le_page. exact Hxy.
    + intros e He. apply dedupe_sub in He.
      apply (Permutation_in _ Pm) in He. apply in_map_iff in He.
      destruct He as [[c lv] [Ee Hc]].
      pose proof (@assign_levels_In _ _ _ _ _ Al Hc) as Hr.
      apply refine_In in Hr. unfold heading_candidates in Hr.
      apply score_lines_In in Hr. destruct Hr as [Hl [_ Hv]].
      exists (c_line c). subst doc. simpl. split; [exact Hl|]. subst e.
      unfold make_entry. simpl. split; [reflexivity|]. split; [reflexivity|].
      split; [|exact Hv].
      unfold assign_levels in Al.
      destruct (2 <=? length _).
      * destruct (fp _ _) as [labels|]; [|discriminate].
        destruct (cluster_sizes labels _ []) as [sizes|]; [|discriminate].
        destruct (@levels_of_In _ _ _ _ _ _ Al Hc) as [_ [label L]].
        unfold level_map in L. apply lookup_level_map_from in L.
        destruct L as [k [_ L]]. lia.
      * injection Al as Al. rewrite <- Al in Hc. apply in_map_iff in Hc.
        destruct Hc as [x [Ex _]]. inversion Ex. lia.
Qed.

(** ** The whole of [extract_pdf_outline] (lines 471-664) *)



(** X18.  Every candidate that [extract_pdf_outline] keeps after its three
    filters has consistent formatting and paragraph content below it: its
    text is always found in the index of line texts (the branch for a
    missing text is never taken), and one of the 15 lines after the last
    line carrying that text is paragraph content at most 2 pages
    further. *)
Theorem refined_candidates_have_content : forall a t c,
  In c (refine (heading_candidates a t) (all_lines a)) ->
  has_consistent_formatting (l_spans (c_line c)) = true
  /\ exists k l j p,
      text_to_index (c_text c) 0 (all_lines a) = Some k
      /\ nth_error (all_lines a) k = Some l /\ l_text l = c_text c
      /\ (forall i l', k < i -> nth_error (all_lines a) i = Some l' ->
                       l_text l' <> c_text c)
      /\ j < 15 /\ nth_error (all_lines a) (k + 1 + j) = Some p
      /\ is_paragraph_content (l_text p) = true
      /\ l_page p <= l_page l + 2.
Proof.
  intros a t c H. unfold refine in H.
  destruct (heading_candidates a t) as [|c0 r] eqn:Hc; [contradiction|].
  rewrite <- Hc in H. unfold filter_headings_with_content in H.
  apply filter_In in H. destruct H as [H1 H2].
  apply filter_horizontal_In in H1. unfold filter_inconsistent_formatting in H1.
  apply filter_In in H1. destruct H1 as [H1 H3]. split; [exact H3|].
  unfold heading_candidates in H1. apply score_lines_In in H1.
  destruct H1 as [Hl _].
  pose proof (text_to_index_spec (all_lines a) (c_text c) 0) as Ti.
  destruct (text_to_index (c_text c) 0 (all_lines a)) as [k|].
  - destruct Ti as [_ [[l [Nk El]] Last]]. rewrite Nat.sub_0_r in Nk, Last.
    unfold has_paragraph_below in H2. rewrite Nk in H2.
    apply paragraph_scan_true in H2.
    destruct H2 as [j [p [Hj [Np [Pc [_ Pg]]]]]].
    exists k, l, j, p. split; [reflexivity|]. split; [exact Nk|].
    split; [exact El|]. split; [exact Last|]. split; [lia|].
    rewrite nth_error_skipn in Np. split.
    + rewrite <- Np. f_equal. lia.
    + split; [exact Pc|]. apply (Pg j p (Nat.le_refl j)).
      rewrite nth_error_skipn. exact Np.
  - exfalso. apply (Ti (c_line c) Hl). reflexivity.
Qed.

Lemma refined_candidates_have_content_witness :
  let sp := fun t sz b =>
              mk_span (Some (T t)) (Some sz) (Some (if b : bool then 16 else 0)%Z) in
  let rl := fun t sz b x0 y0 x1 y1 =>
              mk_raw_line (Some [sp t sz b]) (Some (mk_bbox x0 y0 x1 y1)) in
  let pages :=
    [mk_page 792
       (Some [mk_block
                (Some [rl "Project Charter"%string 18%Q true 50 100 300 120;
                       rl "the charter covers the following items in detail."%string
                          10%Q false 50 140 500 152;
                       rl "Sr. No."%string 10%Q true 50 300 90 312])])]%Q in
  let a := read_pages 0 pages acc0 in
  length (refine (heading_candidates a []) (all_lines a)) = 1
  /\ has_consistent_formatting [sp "Project Charter"%string 18%Q true] = true.
Proof.
  intros sp rl pages a. split; [vm_compute; reflexivity|].
  assert (E : exists c0, refine (heading_candidates a []) (all_lines a) = [c0]
                         /\ l_spans (c_line c0) = [sp "Project Charter"%string 18%Q true])
    by (eexists; split; vm_compute; reflexivity).
  destruct E as [c0 [E Es]]. rewrite <- Es.
  assert (Hin : In c0 (refine (heading_candidates a []) (all_lines a)))
    by (rewrite E; left; reflexivity).
  exact (proj1 (@refined_candidates_have_content a [] c0 Hin)).
Defined.
